(** * NextSkill résumé parser: a shallow embedding of [backend/nlp parser/app.py]

    The development follows the layout of the Python module: text helpers,
    the regular expressions of the module (run by a small backtracking
    matcher with the priorities of Python's [re]), the curated taxonomies,
    the dictionary extractors, the section splitter, the experience
    extractor and the request handler.

    Text is a list of Unicode code points.  Whitespace follows [str.isspace]
    for every code point, and the case folding of [re.IGNORECASE] against
    the ASCII patterns of the module is exact for every code point.  The
    case mappings [str.lower] and [str.upper], the decimal digits [\d] and
    the word characters [\w] follow Python on the ASCII range and on U+017F
    (LATIN SMALL LETTER LONG S, whose upper case is the ASCII letter S);
    they are not modelled for other code points, and the properties that
    depend on them are stated for ASCII text.  spaCy (the pipeline [nlp], its
    rule matcher) and the hash order in which a Python [set] is iterated are
    parameters of the functions that use them. *)

From Stdlib Require Import String Ascii List NArith ZArith Arith Bool Lia Permutation Sorted.
Import ListNotations.

Set Implicit Arguments.

(** ** Python strings *)

Definition char := N.
Bind Scope N_scope with char.
Definition str := list char.

(** An ASCII literal as a Python string. *)
Definition u (s : string) : str := map N_of_ascii (list_ascii_of_string s).

Definition in_range (lo hi c : char) : bool := (N.leb lo c && N.leb c hi)%bool.

Definition char_eqb (a b : char) : bool := N.eqb a b.

Fixpoint str_eqb (a b : str) : bool :=
  match a, b with
  | [], [] => true
  | x :: a', y :: b' => char_eqb x y && str_eqb a' b'
  | _, _ => false
  end.

(** [str.isspace] on one character, which is also [\s] of [re]. *)
Definition isspace (c : char) : bool :=
  in_range 9 13 c || in_range 28 32 c || N.eqb c 133 || N.eqb c 160
  || N.eqb c 5760 || in_range 8192 8202 c || N.eqb c 8232 || N.eqb c 8233
  || N.eqb c 8239 || N.eqb c 8287 || N.eqb c 12288.

Definition is_upper (c : char) : bool := in_range 65 90 c.
Definition is_lower (c : char) : bool := in_range 97 122 c.
Definition is_alpha (c : char) : bool := is_upper c || is_lower c.
Definition is_digit (c : char) : bool := in_range 48 57 c.
(** [\w]: letters, digits and the underscore. *)
Definition is_word (c : char) : bool := is_alpha c || is_digit c || N.eqb c 95.

Definition long_s : char := 383.

Definition lower_c (c : char) : char := if is_upper c then (c + 32)%N else c.
Definition upper_c (c : char) : char :=
  if is_lower c then (c - 32)%N else if N.eqb c long_s then 83%N else c.

Definition lower (s : str) : str := map lower_c s.
Definition upper (s : str) : str := map upper_c s.

Definition is_ascii (s : str) : Prop := Forall (fun c => (c < 128)%N) s.

Fixpoint lstrip (s : str) : str :=
  match s with
  | c :: t => if isspace c then lstrip t else s
  | [] => []
  end.
Definition rstrip (s : str) : str := rev (lstrip (rev s)).
Definition strip (s : str) : str := rstrip (lstrip s).

(** The line boundaries of [str.splitlines]. *)
Definition is_linebreak (c : char) : bool :=
  in_range 10 13 c || in_range 28 30 c || N.eqb c 133 || N.eqb c 8232 || N.eqb c 8233.

Fixpoint splitlines_from (cur : str) (s : str) : list str :=
  match s with
  | [] => match cur with [] => [] | _ => [rev cur] end
  | c :: t =>
      if is_linebreak c then
        match t with
        | d :: t' => if N.eqb c 13 && N.eqb d 10
                     then rev cur :: splitlines_from [] t'
                     else rev cur :: splitlines_from [] t
        | [] => rev cur :: splitlines_from [] t
        end
      else splitlines_from (c :: cur) t
  end.
Definition splitlines (s : str) : list str := splitlines_from [] s.

(** [sep.join(parts)]. *)
Fixpoint join (sep : str) (parts : list str) : str :=
  match parts with
  | [] => []
  | [p] => p
  | p :: ps => p ++ sep ++ join sep ps
  end.

(** Truthiness of a string. *)
Definition truthy (s : str) : bool := match s with [] => false | _ => true end.

(** [a <= b] on strings: lexicographic on code points. *)
Fixpoint str_leb (a b : str) : bool :=
  match a, b with
  | [], _ => true
  | _ :: _, [] => false
  | x :: a', y :: b' => if N.ltb x y then true else if N.ltb y x then false else str_leb a' b'
  end.

(** [sorted]: a stable sort; [le x y] says that [x] may stay before [y]. *)
Section Sorted.
Variable A : Type.
Variable le : A -> A -> bool.
Fixpoint insert_sorted (x : A) (l : list A) : list A :=
  match l with
  | [] => [x]
  | y :: t => if le x y then x :: l else y :: insert_sorted x t
  end.
Fixpoint sorted (l : list A) : list A :=
  match l with
  | [] => []
  | x :: t => insert_sorted x (sorted t)
  end.
End Sorted.

(** ** Python sets of strings

    A set is the duplicate-free list of its elements.  The order in which
    Python iterates a set depends on hashes and history; functions that
    iterate take that order as the parameter [set_iter]. *)

Fixpoint mem (x : str) (s : list str) : bool :=
  match s with
  | [] => false
  | y :: t => str_eqb x y || mem x t
  end.
Definition set_add (x : str) (s : list str) : list str := if mem x s then s else s ++ [x].

(** ** Regular expressions *)

Inductive regex : Type :=
| Eps : regex
| Cls : (char -> bool) -> regex
| Seq : regex -> regex -> regex
| Alt : regex -> regex -> regex
| Rep : bool -> (char -> bool) -> nat -> option nat -> regex
| Grp : nat -> regex -> regex
| Bol : regex
| Eol : regex
| Bos : regex
| Eos : regex
| Wb : regex.

(** [Rep greedy p lo hi] repeats a character class between [lo] and [hi] times
    (every quantified item of the module other than [?] is a class);
    [Bol] and [Eol] are [^] and [$] under MULTILINE, [Bos] and [Eos] without;
    [Wb] is [\b]. *)

Record mstate : Type := MState { seen : str; rest : str; caps : list (nat * str) }.

Definition more (hi : option nat) : bool :=
  match hi with Some 0 => false | _ => true end.
Definition dec (hi : option nat) : option nat :=
  match hi with Some n => Some (pred n) | None => None end.

Section Matcher.
Variable p : char -> bool.
Variable cs : list (nat * str).
Variable k : mstate -> option mstate.

Definition stop (lo : nat) (sn rs : str) : option mstate :=
  match lo with 0 => k (MState sn rs cs) | S _ => None end.

Fixpoint rep_greedy (lo : nat) (hi : option nat) (sn rs : str) : option mstate :=
  match rs with
  | c :: t =>
      if p c && more hi then
        match rep_greedy (pred lo) (dec hi) (c :: sn) t with
        | Some r => Some r
        | None => stop lo sn rs
        end
      else stop lo sn rs
  | [] => stop lo sn rs
  end.

Fixpoint rep_lazy (lo : nat) (hi : option nat) (sn rs : str) : option mstate :=
  match stop lo sn rs with
  | Some r => Some r
  | None =>
      match rs with
      | c :: t => if p c && more hi then rep_lazy (pred lo) (dec hi) (c :: sn) t else None
      | [] => None
      end
  end.
End Matcher.

Definition word_at (o : option char) : bool :=
  match o with Some c => is_word c | None => false end.
Definition at_bol (st : mstate) : bool :=
  match seen st with [] => true | c :: _ => N.eqb c 10 end.
Definition at_eol (st : mstate) : bool :=
  match rest st with [] => true | c :: _ => N.eqb c 10 end.
Definition at_bos (st : mstate) : bool :=
  match seen st with [] => true | _ => false end.
Definition at_eos (st : mstate) : bool :=
  match rest st with [] => true | [c] => N.eqb c 10 | _ => false end.
Definition at_wb (st : mstate) : bool :=
  negb (Bool.eqb (word_at (hd_error (seen st))) (word_at (hd_error (rest st)))).

(** The text of a group that started when [n0] characters had been read. *)
Definition captured (n0 : nat) (st : mstate) : str :=
  rev (firstn (length (seen st) - n0) (seen st)).

Fixpoint run (r : regex) (st : mstate) (k : mstate -> option mstate) : option mstate :=
  match r with
  | Eps => k st
  | Cls p =>
      match rest st with
      | c :: t => if p c then k (MState (c :: seen st) t (caps st)) else None
      | [] => None
      end
  | Seq a b => run a st (fun st' => run b st' k)
  | Alt a b =>
      match run a st k with
      | Some r => Some r
      | None => run b st k
      end
  | Rep true p lo hi => rep_greedy p (caps st) k lo hi (seen st) (rest st)
  | Rep false p lo hi => rep_lazy p (caps st) k lo hi (seen st) (rest st)
  | Grp g a =>
      run a st (fun st' =>
        k (MState (seen st') (rest st') ((g, captured (length (seen st)) st') :: caps st')))
  | Bol => if at_bol st then k st else None
  | Eol => if at_eol st then k st else None
  | Bos => if at_bos st then k st else None
  | Eos => if at_eos st then k st else None
  | Wb => if at_wb st then k st else None
  end.

(** A match object: [start()], [end()], [group(0)] and the groups. *)
Record rmatch : Type := RMatch { m_start : nat; m_end : nat; m_text : str; m_caps : list (nat * str) }.

Definition match_at (r : regex) (sn rs : str) : option rmatch :=
  match run r (MState sn rs []) (fun st => Some st) with
  | Some st => Some (RMatch (length sn) (length (seen st)) (captured (length sn) st) (caps st))
  | None => None
  end.

Fixpoint group (g : nat) (cs : list (nat * str)) : str :=
  match cs with
  | [] => []
  | (h, s) :: t => if Nat.eqb g h then s else group g t
  end.

(** [re.search] from a position of the text: leftmost start, then the
    matcher's first success. *)
Fixpoint search_from (r : regex) (sn rs : str) : option rmatch :=
  match match_at r sn rs with
  | Some m => Some m
  | None =>
      match rs with
      | [] => None
      | c :: t => search_from r (c :: sn) t
      end
  end.
Definition re_search (r : regex) (s : str) : option rmatch := search_from r [] s.

(** [re.finditer]: successive non-overlapping matches.  No pattern of the
    module matches the empty string; the scan steps over an empty match. *)
Fixpoint finditer_from (fuel : nat) (r : regex) (sn rs : str) : list rmatch :=
  match fuel with
  | 0 => []
  | S f =>
      match search_from r sn rs with
      | None => []
      | Some m =>
          let n := m_end m - length sn in
          let sn' := rev (firstn n rs) ++ sn in
          let rs' := skipn n rs in
          match n, rs' with
          | 0, c :: t => m :: finditer_from f r (c :: sn') t
          | 0, [] => [m]
          | _, _ => m :: finditer_from f r sn' rs'
          end
      end
  end.
Definition finditer (r : regex) (s : str) : list rmatch := finditer_from (S (length s)) r [] s.
Definition findall (r : regex) (s : str) : list str := map m_text (finditer r s).

(** [re.sub(r, repl, s)] for a pattern that never matches the empty string. *)
Fixpoint sub_from (fuel : nat) (r : regex) (repl : str) (sn rs : str) : str :=
  match fuel with
  | 0 => rs
  | S f =>
      match match_at r sn rs with
      | Some m =>
          let n := m_end m - length sn in
          match n with
          | 0 => match rs with
                 | [] => []
                 | c :: t => c :: sub_from f r repl (c :: sn) t
                 end
          | _ => repl ++ sub_from f r repl (rev (firstn n rs) ++ sn) (skipn n rs)
          end
      | None =>
          match rs with
          | [] => []
          | c :: t => c :: sub_from f r repl (c :: sn) t
          end
      end
  end.
Definition re_sub (r : regex) (repl s : str) : str := sub_from (S (length s)) r repl [] s.

(** Pattern builders.  Under IGNORECASE a literal or a class of the
    patterns, which are written in ASCII, is compared after case folding:
    besides the capital letters, [re] reads U+0130 and U+0131 as i, U+017F
    as s and U+212A as k. *)
Definition fold_c (c : char) : char :=
  if N.eqb c 304 || N.eqb c 305 then 105%N
  else if N.eqb c long_s then 115%N
  else if N.eqb c 8490 then 107%N
  else lower_c c.
Definition chr (c : char) : regex := Cls (char_eqb c).
Definition chr_i (c : char) : regex := Cls (fun x => char_eqb (fold_c x) (fold_c c)).
Fixpoint lit (s : str) : regex :=
  match s with [] => Eps | c :: t => Seq (chr c) (lit t) end.
Fixpoint lit_i (s : str) : regex :=
  match s with [] => Eps | c :: t => Seq (chr_i c) (lit_i t) end.
Fixpoint alts (rs : list regex) : regex :=
  match rs with
  | [] => Cls (fun _ => false)
  | [r] => r
  | r :: t => Alt r (alts t)
  end.
Definition opt (r : regex) : regex := Alt r Eps.
Definition star (p : char -> bool) : regex := Rep true p 0 None.
Definition plus (p : char -> bool) : regex := Rep true p 1 None.
Definition times (p : char -> bool) (n : nat) : regex := Rep true p n (Some n).
Definition one_of (s : str) (c : char) : bool := existsb (char_eqb c) s.
Fixpoint seqs (rs : list regex) : regex :=
  match rs with
  | [] => Eps
  | [r] => r
  | r :: t => Seq r (seqs t)
  end.

(** ** Python dictionaries with string keys, in insertion order *)

Section Dict.
Variable V : Type.
Fixpoint dict_get (key : str) (d : list (str * V)) : option V :=
  match d with
  | [] => None
  | (k0, v) :: t => if str_eqb key k0 then Some v else dict_get key t
  end.
Fixpoint dict_set (key : str) (v : V) (d : list (str * V)) : list (str * V) :=
  match d with
  | [] => [(key, v)]
  | (k0, v0) :: t => if str_eqb key k0 then (k0, v) :: t else (k0, v0) :: dict_set key v t
  end.
End Dict.

(** ** Curated dictionaries / taxonomies *)

Definition SKILL_ALIASES : list (str * str) :=
  [ (u "js", u "JavaScript"); (u "ts", u "TypeScript"); (u "py", u "Python");
    (u "nodejs", u "Node.js"); (u "reactjs", u "React"); (u "react.js", u "React");
    (u "node", u "Node.js"); (u "postgres", u "PostgreSQL"); (u "aws", u "AWS");
    (u "gcp", u "Google Cloud"); (u "ms sql", u "SQL Server"); (u "sql server", u "SQL Server") ].

Definition SKILL_TAXONOMY : list (str * list str) :=
  [ (u "Programming Languages",
      [u "Java"; u "Python"; u "JavaScript"; u "TypeScript"; u "C++"; u "C#"; u "Go";
       u "Ruby"; u "PHP"; u "Rust"; u "Kotlin"]);
    (u "Frameworks & Libraries",
      [u "Spring Boot"; u "Spring"; u "React"; u "Angular"; u "Vue"; u "Django"; u "Flask";
       u "Express"; u "FastAPI"; u "Hibernate"; u ".NET"]);
    (u "Databases",
      [u "PostgreSQL"; u "MySQL"; u "MongoDB"; u "Redis"; u "Elasticsearch"; u "SQLite";
       u "Oracle"; u "SQL Server"]);
    (u "Cloud & DevOps",
      [u "AWS"; u "Azure"; u "Google Cloud"; u "GCP"; u "Docker"; u "Kubernetes";
       u "Terraform"; u "Jenkins"; u "GitHub Actions"]);
    (u "Data Science",
      [u "TensorFlow"; u "PyTorch"; u "scikit-learn"; u "NumPy"; u "Pandas"]);
    (u "Tools", [u "Git"; u "Maven"; u "Gradle"; u "Jira"]) ].

Definition JOB_TITLES : list str :=
  [ u "Software Engineer"; u "Senior Software Engineer"; u "Backend Developer";
    u "Frontend Developer"; u "Full Stack Developer"; u "Data Scientist";
    u "Machine Learning Engineer"; u "DevOps Engineer"; u "SRE"; u "QA Engineer";
    u "Android Developer"; u "iOS Developer" ].

Definition ORG_SUFFIXES : list str :=
  [ u "Inc"; u "Ltd"; u "LLC"; u "Pvt"; u "Technologies"; u "Labs"; u "Systems";
    u "Solutions"; u "Corp"; u "Company" ].

Definition SKILL_STOPWORDS : list str :=
  [ u "intern"; u "junior"; u "senior"; u "fresher"; u "trainee"; u "lead"; u "manager";
    u "associate" ].

(** ** Helpers *)

(** [[^a-z0-9+.#]+] *)
Definition not_kept (c : char) : bool :=
  negb (is_lower c || is_digit c || one_of (u "+.#") c).

Definition normalize_text (text : str) : str :=
  u " " ++ re_sub (plus not_kept) (u " ") (lower text) ++ u " ".

Definition canonical_skill (token : str) : str :=
  let t := strip token in
  let key := lower t in
  match dict_get key SKILL_ALIASES with
  | Some v => v
  | None =>
      if mem key [u "node"; u "nodejs"] then u "Node.js"
      else if mem key [u "reactjs"; u "react.js"] then u "React"
      else if str_eqb key (u "postgres") then u "PostgreSQL"
      else if mem (upper t) [u "AWS"; u "GCP"] then upper t
      else if mem (lower t) [u "c++"; u "c#"; u ".net"] then t
      else upper (firstn 1 t) ++ skipn 1 t
  end.

(** What spaCy hands back: tokens, and entity spans with token offsets. *)
Record Token : Type := MkToken { tok_text : str; like_email : bool }.
Record Ent : Type := MkEnt { ent_text : str; label_ : str; ent_start : nat; ent_end : nat }.
Record Doc : Type := MkDoc { tokens : list Token; ents : list Ent }.

Fixpoint extract_email_spacy (toks : list Token) : str :=
  match toks with
  | [] => []
  | t :: ts => if like_email t then tok_text t else extract_email_spacy ts
  end.

(** [[A-Za-z0-9._%+-]+@[A-Za-z0-9.-]+\.[A-Za-z]{2,}] *)
Definition EMAIL_RE : regex :=
  seqs [ plus (fun c => is_alpha c || is_digit c || one_of (u "._%+-") c);
         chr 64;
         plus (fun c => is_alpha c || is_digit c || one_of (u ".-") c);
         chr 46;
         Rep true is_alpha 2 None ].

Definition extract_email_regex (text : str) : str :=
  match re_search EMAIL_RE text with
  | Some m => m_text m
  | None => []
  end.

(** [[\s-]] *)
Definition space_or_dash (c : char) : bool := isspace c || char_eqb c 45.

(** [(?:(?:\+?\d{1,3}[\s-]?)?(?:\(?\d{3}\)?[\s-]?)?\d{3}[\s-]?\d{4})] *)
Definition PHONE_RE : regex :=
  seqs [ opt (seqs [opt (chr 43); Rep true is_digit 1 (Some 3); Rep true space_or_dash 0 (Some 1)]);
         opt (seqs [opt (chr 40); times is_digit 3; opt (chr 41); Rep true space_or_dash 0 (Some 1)]);
         times is_digit 3;
         Rep true space_or_dash 0 (Some 1);
         times is_digit 4 ].

(** [Mobile[:\s]*(\d{10})], IGNORECASE *)
Definition MOBILE_RE : regex :=
  seqs [ lit_i (u "Mobile"); star (fun c => char_eqb c 58 || isspace c); Grp 1 (times is_digit 10) ].

(** [[^\d+]] *)
Definition not_digit_or_plus (c : char) : bool := negb (is_digit c || char_eqb c 43).

Definition extract_phone_number (text : str) : str :=
  match re_search PHONE_RE text with
  | None =>
      match re_search MOBILE_RE text with
      | Some m => group 1 (m_caps m)
      | None => []
      end
  | Some m => re_sub (Cls not_digit_or_plus) [] (m_text m)
  end.

Fixpoint extract_name_ml (es : list Ent) : str :=
  match es with
  | [] => []
  | e :: t => if str_eqb (label_ e) (u "PERSON") then ent_text e else extract_name_ml t
  end.

(** [^\s*(?:name)\s*[:\-]\s*(.+)$], IGNORECASE *)
Definition NAME_LABEL_RE : regex :=
  seqs [ Bos; star isspace; lit_i (u "name"); star isspace; Cls (one_of (u ":-"));
         star isspace; Grp 1 (plus (fun c => negb (N.eqb c 10))); Eos ].

(** [[A-Za-z]+] *)
Definition WORD_RE : regex := plus is_alpha.

Fixpoint first_label (lines : list str) : option str :=
  match lines with
  | [] => None
  | line :: t =>
      match re_search NAME_LABEL_RE (strip line) with
      | Some m => Some (strip (group 1 (m_caps m)))
      | None => first_label t
      end
  end.

Definition starts_upper (w : str) : bool :=
  match w with c :: _ => is_upper c | [] => false end.
Definition len_ok (w : str) : bool := (3 <=? length w) && (length w <=? 20).

Fixpoint first_two_capitalized (lines : list str) : str :=
  match lines with
  | [] => []
  | line :: t =>
      match findall WORD_RE line with
      | w0 :: w1 :: _ =>
          if starts_upper w0 && starts_upper w1 then
            if len_ok w0 && len_ok w1 then w0 ++ u " " ++ w1
            else first_two_capitalized t
          else first_two_capitalized t
      | _ => first_two_capitalized t
      end
  end.

Definition extract_name_fallback (text : str) : str :=
  match first_label (firstn 10 (splitlines text)) with
  | Some v => v
  | None => first_two_capitalized (firstn 10 (splitlines text))
  end.

(** [\b<keyword>\b] *)
Definition word_re (k : str) : regex := seqs [Wb; lit k; Wb].
Definition found_in (k norm : str) : bool :=
  match re_search (word_re k) norm with Some _ => true | None => false end.

Definition extract_skills_dict (text : str) : list str :=
  let norm := normalize_text text in
  let found :=
    fold_left (fun acc cat =>
      fold_left (fun acc kw =>
        if found_in (lower kw) norm then set_add (canonical_skill kw) acc else acc)
        (snd cat) acc)
      SKILL_TAXONOMY [] in
  let found :=
    fold_left (fun acc a =>
      if found_in (fst a) norm then set_add (canonical_skill (snd a)) acc else acc)
      SKILL_ALIASES found in
  filter (fun s => negb (mem (lower s) SKILL_STOPWORDS)) found.

Definition extract_job_titles_dict (text : str) : list str :=
  let norm := normalize_text text in
  fold_left (fun acc title =>
    if found_in (lower title) norm then set_add title acc else acc) JOB_TITLES [].

(** [(?:\b[A-Z][A-Za-z0-9&.,\- ]+?)\s+(?:Inc|Ltd|...)\b] *)
Definition ORG_RE : regex :=
  seqs [ Wb; Cls is_upper;
         Rep false (fun c => is_alpha c || is_digit c || one_of (u "&.,- ") c) 1 None;
         plus isspace; alts (map lit ORG_SUFFIXES); Wb ].

Definition extract_orgs_dict (text : str) : list str :=
  fold_left (fun acc m => set_add (strip (m_text m)) acc) (finditer ORG_RE text) [].

Definition is_org_label (l : str) : bool := mem l [u "ORG"; u "ORGANIZATION"].

Definition extract_entities_ml (es : list Ent) : list str * list str * list str :=
  fold_left (fun acc ent =>
    let '(skills, titles, orgs) := acc in
    if str_eqb (label_ ent) (u "SKILL") then
      let s := canonical_skill (ent_text ent) in
      if negb (mem (lower s) SKILL_STOPWORDS) then (set_add s skills, titles, orgs) else acc
    else if str_eqb (label_ ent) (u "JOB_TITLE") then (skills, set_add (ent_text ent) titles, orgs)
    else if is_org_label (label_ ent) then (skills, titles, set_add (ent_text ent) orgs)
    else acc) es ([], [], []).

Definition lower_key_le (x y : str) : bool := str_leb (lower x) (lower y).

Section MergeSets.
(** The order in which a set is iterated. *)
Variable set_iter : list str -> list str.

Definition merged_set (sets : list (list str)) : list str :=
  fold_left (fun acc s =>
    fold_left (fun acc item => set_add (strip item) acc) (set_iter s) acc) sets [].

Definition merge_sets (sets : list (list str)) : list str :=
  sorted lower_key_le (set_iter (merged_set sets)).
End MergeSets.

(** ** Sectioning *)

Definition SECTION_SYNONYMS : list (str * list str) :=
  [ (u "experience",
      [u "experience"; u "work experience"; u "professional experience"; u "employment history";
       u "career history"; u "work history"; u "employment"; u "work profile"]);
    (u "education",
      [u "education"; u "educational background"; u "academic background"; u "qualifications";
       u "academics"]);
    (u "projects",
      [u "projects"; u "project experience"; u "personal projects"; u "academic projects"]);
    (u "skills",
      [u "skills"; u "technical skills"; u "skills & tools"; u "skills and tools"; u "technologies";
       u "tech stack"; u "core competencies"; u "key skills"]);
    (u "certifications",
      [u "certifications"; u "certificates"; u "licenses"; u "licences"]);
    (u "summary",
      [u "summary"; u "professional summary"; u "profile"; u "about me"; u "objective"]) ].

Definition CANONICAL_BY_SYNONYM : list (str * str) :=
  fold_left (fun d entry =>
    fold_left (fun d s => dict_set (lower s) (fst entry) d) (snd entry) d)
    SECTION_SYNONYMS [].

(** [sorted(keys, key=len, reverse=True)] *)
Definition longer_first (x y : str) : bool := length y <=? length x.
Definition HEADING_WORDS : list str := sorted longer_first (map fst CANONICAL_BY_SYNONYM).

Definition g_head : nat := 1.

(** [^\s*(?P<head>...)\s*:?\s*$], IGNORECASE | MULTILINE *)
Definition HEADING_PATTERN : regex :=
  seqs [ Bol; star isspace; Grp g_head (alts (map lit_i HEADING_WORDS));
         star isspace; opt (chr 58); star isspace; Eol ].

(** [text[a:b]] for [a] and [b] within the text. *)
Definition slice (text : str) (a b : nat) : str := firstn (b - a) (skipn a text).

Definition blank_line : str := [10; 10]%N.

Fixpoint collect_sections (text : str) (ms : list rmatch) (sections : list (str * str))
  : list (str * str) :=
  match ms with
  | [] => sections
  | m :: ms' =>
      let raw_head := lower (strip (group g_head (m_caps m))) in
      let canon := match dict_get raw_head CANONICAL_BY_SYNONYM with
                   | Some c => c
                   | None => raw_head
                   end in
      let start := m_end m in
      let end_ := match ms' with m' :: _ => m_start m' | [] => length text end in
      let content := strip (slice text start end_) in
      let sections' :=
        if truthy content then
          let prev := match dict_get canon sections with Some v => v | None => [] end in
          dict_set canon
            (if truthy prev then strip (prev ++ blank_line ++ content) else content) sections
        else sections in
      collect_sections text ms' sections'
  end.

Definition split_resume_sections (text : str) : list (str * str) :=
  if negb (truthy text) then []
  else
    match finditer HEADING_PATTERN text with
    | [] => [(u "summary", strip text)]
    | ms => collect_sections text ms []
    end.

(** ** Experience extraction *)

Definition months : list str :=
  [u "Jan"; u "Feb"; u "Mar"; u "Apr"; u "May"; u "Jun"; u "Jul"; u "Aug"; u "Sep"; u "Sept";
   u "Oct"; u "Nov"; u "Dec"].
Definition en_dash : char := 8211.
Definition em_dash : char := 8212.
Definition g_start : nat := 1.
Definition g_end : nat := 2.

(** [[a-z]] under IGNORECASE *)
Definition letter_i (c : char) : bool := is_lower (fold_c c).

Definition month_year : regex :=
  seqs [alts (map lit_i months); star letter_i; plus isspace; times is_digit 4].

Definition DATE_RANGE_REGEX : regex :=
  seqs [ Grp g_start (Alt month_year (times is_digit 4));
         star isspace;
         alts [chr 45; chr en_dash; chr em_dash; lit_i (u "to"); lit_i (u "through"); lit_i (u "until")];
         star isspace;
         Grp g_end (alts [lit_i (u "Present"); lit_i (u "Current"); lit_i (u "Now");
                          lit_i (u "Till date"); lit_i (u "Until now");
                          month_year; times is_digit 4]) ].

(** [^[\-•‣◦⁃∙\*]+\s*] *)
Definition is_bullet (c : char) : bool :=
  existsb (char_eqb c) [45; 8226; 8227; 9702; 8259; 8729; 42]%N.
Definition BULLET_RE : regex := seqs [Bos; plus is_bullet; star isspace].

Definition clean_line (line : str) : str :=
  let line := re_sub BULLET_RE [] line in
  strip (re_sub (plus isspace) (u " ") line).

Fixpoint max_by_len (best : Ent) (l : list Ent) : Ent :=
  match l with
  | [] => best
  | e :: t => if length (ent_text best) <? length (ent_text e)
              then max_by_len e t else max_by_len best t
  end.
Definition pick_longest (spans : list Ent) : option str :=
  match spans with
  | [] => None
  | e :: t => Some (strip (ent_text (max_by_len e t)))
  end.

Definition dates_of (doc : Doc) : list str :=
  map ent_text (filter (fun e => str_eqb (label_ e) (u "DATE")) (ents doc)).

Definition detect_date_range (text : str) (doc : Doc) : str :=
  match re_search DATE_RANGE_REGEX text with
  | Some m => group g_start (m_caps m) ++ u " - " ++ group g_end (m_caps m)
  | None =>
      match dates_of doc with
      | d0 :: d1 :: _ => d0 ++ u " - " ++ d1
      | [d0] => d0
      | [] => []
      end
  end.

Record Entry : Type := MkEntry { job_title : str; company_name : str; date_range : str }.

(** Truthiness of an [Optional[str]], and [x or ""]. *)
Definition otruthy (o : option str) : bool :=
  match o with Some s => truthy s | None => false end.
Definition or_empty (o : option str) : str :=
  match o with Some s => s | None => [] end.

Definition is_title (e : Ent) : bool := str_eqb (label_ e) (u "JOB_TITLE").
Definition is_org (e : Ent) : bool := is_org_label (label_ e).

(** [span.ents] of [doc[a:b]]: the entities that lie within the span. *)
Definition span_ents (doc : Doc) (a b : nat) : list Ent :=
  filter (fun e => (a <=? ent_start e) && (ent_end e <=? b)) (ents doc).

(** The matcher loop of [extract_experience], with its [break]. *)
Fixpoint scan_matches (doc : Doc) (ms : list (nat * nat * nat)) (title org : option str)
  : option str * option str :=
  match ms with
  | [] => (title, org)
  | (_, a, b) :: ms' =>
      let cand_title := pick_longest (filter is_title (span_ents doc a b)) in
      let cand_org := pick_longest (filter is_org (span_ents doc a b)) in
      let title := if otruthy cand_title && negb (otruthy title) then cand_title else title in
      let org := if otruthy cand_org && negb (otruthy org) then cand_org else org in
      if otruthy title && otruthy org then (title, org) else scan_matches doc ms' title org
  end.

Definition join_block (buf : list str) : str :=
  join (u " ") (map clean_line (filter (fun x => truthy (strip x)) buf)).

Fixpoint split_blocks (raw_lines : list str) (buf : list str) (blocks : list str) : list str :=
  match raw_lines with
  | [] => if negb (length buf =? 0) then blocks ++ [join_block buf] else blocks
  | raw :: t =>
      let line := strip raw in
      if negb (truthy line) then
        if negb (length buf =? 0) then split_blocks t [] (blocks ++ [join_block buf])
        else split_blocks t buf blocks
      else split_blocks t (buf ++ [line]) blocks
  end.

(** The final loop of [extract_experience]. *)
Definition same_entry (a b : Entry) : bool :=
  str_eqb (lower (job_title a)) (lower (job_title b))
  && str_eqb (lower (company_name a)) (lower (company_name b))
  && str_eqb (lower (date_range a)) (lower (date_range b)).
Definition any_field (e : Entry) : bool :=
  truthy (job_title e) || truthy (company_name e) || truthy (date_range e).

Fixpoint dedup (results : list Entry) (prev : option Entry) (deduped : list Entry) : list Entry :=
  match results with
  | [] => deduped
  | item :: t =>
      if negb (any_field item) then dedup t prev deduped
      else
        match prev with
        | Some pv => if same_entry pv item then dedup t prev deduped
                     else dedup t (Some item) (deduped ++ [item])
        | None => dedup t (Some item) (deduped ++ [item])
        end
  end.

(** The same loop with the lower-casing of the comparison, [str.lower] in
    the code, as a parameter: [dedup] is [dedup_by lower]. *)
Section FinalLoop.
Variable low : str -> str.
Definition same_entry_by (a b : Entry) : bool :=
  str_eqb (low (job_title a)) (low (job_title b))
  && str_eqb (low (company_name a)) (low (company_name b))
  && str_eqb (low (date_range a)) (low (date_range b)).
Fixpoint dedup_by (results : list Entry) (prev : option Entry) (deduped : list Entry) : list Entry :=
  match results with
  | [] => deduped
  | item :: t =>
      if negb (any_field item) then dedup_by t prev deduped
      else
        match prev with
        | Some pv => if same_entry_by pv item then dedup_by t prev deduped
                     else dedup_by t (Some item) (deduped ++ [item])
        | None => dedup_by t (Some item) (deduped ++ [item])
        end
  end.
End FinalLoop.

Section Experience.
(** spaCy: the pipeline and the rule matcher built by [build_experience_matcher]. *)
Variable nlp : str -> Doc.
Variable EXPERIENCE_MATCHER : Doc -> list (nat * nat * nat).
Variable set_iter : list str -> list str.

Definition longest_of (s : list str) : option str :=
  hd_error (sorted longer_first (set_iter s)).

Definition process_block (block : str) : option Entry :=
  let doc := nlp block in
  let '(title_text, org_text) := scan_matches doc (EXPERIENCE_MATCHER doc) None None in
  let title_text :=
    if negb (otruthy title_text) then pick_longest (filter is_title (ents doc)) else title_text in
  let org_text :=
    if negb (otruthy org_text) then pick_longest (filter is_org (ents doc)) else org_text in
  let title_text :=
    if negb (otruthy title_text) then
      match extract_job_titles_dict block with
      | [] => title_text
      | dict_titles => longest_of dict_titles
      end
    else title_text in
  let org_text :=
    if negb (otruthy org_text) then
      match extract_orgs_dict block with
      | [] => org_text
      | dict_orgs => longest_of dict_orgs
      end
    else org_text in
  let date_range := detect_date_range block doc in
  if otruthy title_text || otruthy org_text || truthy date_range
  then Some (MkEntry (or_empty title_text) (or_empty org_text) date_range)
  else None.

Fixpoint process_blocks (blocks : list str) (results : list Entry) : list Entry :=
  match blocks with
  | [] => results
  | block :: t =>
      if negb (truthy block) || (length block <? 5) then process_blocks t results
      else
        match process_block block with
        | Some e => process_blocks t (results ++ [e])
        | None => process_blocks t results
        end
  end.

Definition extract_experience (experience_text : str) : list Entry :=
  if negb (truthy experience_text) then []
  else
    let blocks := split_blocks (splitlines experience_text) [] [] in
    dedup (process_blocks blocks []) None [].
End Experience.

(** ** The request handler *)

Unset Elimination Schemes.
Inductive json : Type :=
| JNull : json
| JBool : bool -> json
| JNum : Z -> json
| JStr : str -> json
| JArr : list json -> json
| JObj : list (str * json) -> json.
Set Elimination Schemes.

Definition json_truthy (j : json) : bool :=
  match j with
  | JNull => false
  | JBool b => b
  | JNum n => negb (Z.eqb n 0)
  | JStr s => truthy s
  | JArr l => negb (length l =? 0)
  | JObj d => negb (length d =? 0)
  end.

(** The components a request can set to work, in the order they ran. *)
Inductive component : Type :=
| Pipeline | Segmenter | ExperienceMatcher | ModelExtractor | RulerExtractor
| NameFallback | EmailRegex | PhoneRegex | SkillsDict | TitlesDict | OrgsDict | Merger.

Definition traced (A : Type) : Type := (list component * A)%type.
Definition ret {A : Type} (a : A) : traced A := ([], a).
Definition bind {A B : Type} (m : traced A) (f : A -> traced B) : traced B :=
  let (t1, a) := m in let (t2, b) := f a in (t1 ++ t2, b).
Definition call {A : Type} (c : component) (a : A) : traced A := ([c], a).

Notation "x <- m ;; f" := (bind m (fun x => f))
  (at level 61, m at next level, right associativity).
Notation "' pat <- m ;; f" := (bind m (fun x => match x with pat => f end))
  (at level 61, pat pattern, m at next level, right associativity).

Record Result : Type := MkResult {
  fullName : str;
  email : str;
  phoneNumber : str;
  skills : list str;
  jobTitles : list str;
  organizations : list str;
  experiences : list Entry;
  projects : list str }.

Inductive response : Type :=
| Invalid : response        (* 400, "Invalid request. 'text' field is required." *)
| ParsingError : response   (* 500, "Parsing error" *)
| Parsed : Result -> response.

(** [a or b] on strings. *)
Definition or_str (a b : str) : str := if truthy a then a else b.

Section ParseResume.
Variable nlp : str -> Doc.
Variable EXPERIENCE_MATCHER : Doc -> list (nat * nat * nat).
Variable set_iter : list str -> list str.
(** Process configuration: the learned-model switch, whether a custom model
    was loaded, whether an entity ruler was installed. *)
Variable HYBRID_USE_ML : bool.
Variable ML_AVAILABLE : bool.
Variable ENTITY_RULER : bool.

Definition ruler_skills_of (es : list Ent) : list str :=
  fold_left (fun acc ent =>
    if str_eqb (label_ ent) (u "SKILL") then
      let s := canonical_skill (ent_text ent) in
      if negb (mem (lower s) SKILL_STOPWORDS) then set_add s acc else acc
    else acc) es [].

Definition extract (text : str) : traced response :=
  doc <- call Pipeline (nlp text) ;;
  sections <- call Segmenter (split_resume_sections text) ;;
  let experience_text :=
    match dict_get (u "experience") sections with Some v => v | None => [] end in
  experiences_struct <-
    call ExperienceMatcher (extract_experience nlp EXPERIENCE_MATCHER set_iter experience_text) ;;
  ml_fullname <-
    (if HYBRID_USE_ML && ML_AVAILABLE then call ModelExtractor (extract_name_ml (ents doc))
     else ret []) ;;
  ' (ml_skills, ml_titles, ml_orgs) <-
    (if HYBRID_USE_ML && ML_AVAILABLE then call ModelExtractor (extract_entities_ml (ents doc))
     else ret ([], [], [])) ;;
  ruler_skills <-
    (if ENTITY_RULER then call RulerExtractor (ruler_skills_of (ents (nlp text)))
     else ret []) ;;
  rb_fullname <- call NameFallback (extract_name_fallback text) ;;
  rb_email <- call EmailRegex (extract_email_regex text) ;;
  rb_phone <- call PhoneRegex (extract_phone_number text) ;;
  rb_skills <- call SkillsDict (extract_skills_dict text) ;;
  rb_titles <- call TitlesDict (extract_job_titles_dict text) ;;
  rb_orgs <- call OrgsDict (extract_orgs_dict text) ;;
  let email := or_str (extract_email_spacy (tokens doc)) rb_email in
  let phone := rb_phone in
  let full_name := or_str ml_fullname rb_fullname in
  skills <- call Merger (merge_sets set_iter [ml_skills; rb_skills; ruler_skills]) ;;
  job_titles <- call Merger (merge_sets set_iter [ml_titles; rb_titles]) ;;
  organizations <- call Merger (merge_sets set_iter [rb_orgs; ml_orgs]) ;;
  ret (Parsed (MkResult full_name email phone skills job_titles organizations
                        experiences_struct [])).

(** [body] is what [request.get_json(silent=True)] returned. *)
Definition parse_resume (body : option json) : traced response :=
  let data :=
    match body with
    | Some j => if json_truthy j then j else JObj []
    | None => JObj []
    end in
  match data with
  | JObj d =>
      match (match dict_get (u "text") d with Some v => v | None => JStr [] end) with
      | JStr text => if negb (truthy (strip text)) then ret Invalid else extract text
      | _ => ret Invalid
      end
  | _ => ret ParsingError   (* [data.get] raises; caught at the request boundary *)
  end.
End ParseResume.

(** ** What a pattern matches

    [matches r st st'] says that [r] can read from state [st] to state [st'];
    the matcher explores these readings in Python's priority order. *)

Definition within (hi : option nat) (n : nat) : Prop :=
  match hi with Some h => n <= h | None => True end.

Inductive matches : regex -> mstate -> mstate -> Prop :=
| M_eps : forall st, matches Eps st st
| M_cls : forall (p : char -> bool) c sn rs cs,
    p c = true -> matches (Cls p) (MState sn (c :: rs) cs) (MState (c :: sn) rs cs)
| M_seq : forall a b s1 s2 s3,
    matches a s1 s2 -> matches b s2 s3 -> matches (Seq a b) s1 s3
| M_alt_l : forall a b s1 s2, matches a s1 s2 -> matches (Alt a b) s1 s2
| M_alt_r : forall a b s1 s2, matches b s1 s2 -> matches (Alt a b) s1 s2
| M_rep : forall g (p : char -> bool) lo hi w sn rs cs,
    Forall (fun c => p c = true) w -> lo <= length w -> within hi (length w) ->
    matches (Rep g p lo hi) (MState sn (w ++ rs) cs) (MState (rev w ++ sn) rs cs)
| M_grp : forall g a s1 s2,
    matches a s1 s2 ->
    matches (Grp g a) s1
      (MState (seen s2) (rest s2) ((g, captured (length (seen s1)) s2) :: caps s2))
| M_bol : forall st, at_bol st = true -> matches Bol st st
| M_eol : forall st, at_eol st = true -> matches Eol st st
| M_bos : forall st, at_bos st = true -> matches Bos st st
| M_eos : forall st, at_eos st = true -> matches Eos st st
| M_wb : forall st, at_wb st = true -> matches Wb st st.

(** ** Notions used to state the properties *)

(** An entry with at least one field filled in. *)
Definition has_field (e : Entry) : Prop :=
  job_title e <> [] \/ company_name e <> [] \/ date_range e <> [].

(** Two entries that agree field by field, letter case aside. *)
Definition same_ci (a b : Entry) : Prop :=
  lower (job_title a) = lower (job_title b) /\
  lower (company_name a) = lower (company_name b) /\
  lower (date_range a) = lower (date_range b).

(** Consecutive duplicates collapse to one: of the entries that have a
    field, an entry is left out when it agrees, field by field and letter
    case aside, with the entry just before it.  [low] is the lower-casing
    used to compare. *)
Section Collapse.
Variable low : str -> str.
Fixpoint keep_new (before : option Entry) (l : list Entry) : list Entry :=
  match l with
  | [] => []
  | e :: t =>
      match before with
      | Some b => if same_entry_by low b e then keep_new (Some e) t else e :: keep_new (Some e) t
      | None => e :: keep_new (Some e) t
      end
  end.
Definition collapse (l : list Entry) : list Entry := keep_new None (filter any_field l).
End Collapse.


(** An entry whose fields are ASCII text. *)
Definition ascii_entry (e : Entry) : Prop :=
  is_ascii (job_title e) /\ is_ascii (company_name e) /\ is_ascii (date_range e).

(** [prev] is the entry retained last. *)
Definition last_is (prev : option Entry) (deduped : list Entry) : Prop :=
  match prev with
  | None => deduped = []
  | Some pv => exists d, deduped = d ++ [pv]
  end.

Definition no_repeat (l : list Entry) : Prop :=
  forall pre a b post, l = pre ++ a :: b :: post -> ~ same_ci a b.

(** [data.get("text", "")] on the request's JSON object. *)
Definition text_of (d : list (str * json)) : json :=
  match dict_get (u "text") d with Some v => v | None => JStr [] end.

(** A text field that is empty, blank, or not a string. *)
Definition unusable (v : json) : Prop :=
  match v with
  | JStr t => Forall (fun c => isspace c = true) t
  | _ => True
  end.

(** A pattern without capture groups. *)
Fixpoint groupless (r : regex) : bool :=
  match r with
  | Seq a b | Alt a b => groupless a && groupless b
  | Grp _ _ => false
  | _ => true
  end.

(** No whitespace in front. *)
Definition no_lead (s : str) : Prop :=
  match s with c :: _ => isspace c = false | [] => True end.

(** The text [ſql server], which starts with U+017F. *)
Definition long_s_sql_server : str := long_s :: u "ql server".

(** Two admissible iteration orders of a set: the order of insertion, and
    descending code-point order. *)
Definition insertion_order (s : list str) : list str := s.
Definition descending_order (s : list str) : list str := sorted (fun x y => str_leb y x) s.

(** A pipeline that returns a document without tokens and without entities,
    and a rule matcher that finds nothing.  (The pipeline of [spacy.blank]
    tags no entity either, but it does split the text into tokens.) *)
Definition blank_nlp (text : str) : Doc := MkDoc [] [].
Definition no_matches (doc : Doc) : list (nat * nat * nat) := [].

(** Static information about a pattern: whether it has assertions, whether
    it can read the empty word, the characters a reading can start with and
    the characters it can contain (over-approximations). *)
Fixpoint assertion_free (r : regex) : bool :=
  match r with
  | Eps | Cls _ | Rep _ _ _ _ => true
  | Seq a b | Alt a b => assertion_free a && assertion_free b
  | Grp _ a => assertion_free a
  | Bol | Eol | Bos | Eos | Wb => false
  end.

Fixpoint nullable (r : regex) : bool :=
  match r with
  | Cls _ => false
  | Seq a b => nullable a && nullable b
  | Alt a b => nullable a || nullable b
  | Rep _ _ lo _ => lo =? 0
  | Grp _ a => nullable a
  | _ => true
  end.

Fixpoint firsts (r : regex) (c : char) : bool :=
  match r with
  | Cls p => p c
  | Seq a b => firsts a c || (nullable a && firsts b c)
  | Alt a b => firsts a c || firsts b c
  | Rep _ p _ _ => p c
  | Grp _ a => firsts a c
  | _ => false
  end.

Fixpoint alphabet (r : regex) (c : char) : bool :=
  match r with
  | Cls p => p c
  | Seq a b | Alt a b => alphabet a c || alphabet b c
  | Rep _ p _ _ => p c
  | Grp _ a => alphabet a c
  | _ => false
  end.

Definition first_ok (r : regex) (w : str) : Prop :=
  match w with
  | [] => nullable r = true
  | c :: _ => firsts r c = true
  end.

(** The label and the number of the phone example of the specification. *)
Definition mobile_label : str := u "Mobile: ".
Definition ten_digits : str := u "9876543210".
Definition starts_with_digit (s : str) : bool :=
  match s with c :: _ => is_digit c | [] => false end.

(** The lines that [^] and [$] delimit under MULTILINE: the pieces of the
    text between line feeds. *)
Fixpoint lines_from (cur : str) (s : str) : list str :=
  match s with
  | [] => [rev cur]
  | c :: t => if N.eqb c 10 then rev cur :: lines_from [] t else lines_from (c :: cur) t
  end.
Definition text_lines (s : str) : list str := lines_from [] s.

Definition all_space (w : str) : Prop := Forall (fun c => isspace c = true) w.
Definition no_newline (w : str) : Prop := Forall (fun c => N.eqb c 10 = false) w.

(** Equal up to letter case, as [re.IGNORECASE] compares a text with an
    ASCII pattern. *)
Definition same_fold (a b : str) : Prop := map fold_c a = map fold_c b.

(** The heading synonyms of the table. *)
Definition known_synonym (syn : str) : Prop := In syn (concat (map snd SECTION_SYNONYMS)).

(** What may follow a heading on its line: whitespace, an optional colon,
    whitespace. *)
Definition heading_trailer (t : str) : Prop :=
  exists w2 colon w3, t = w2 ++ colon ++ w3 /\ all_space w2 /\ all_space w3 /\
                      (colon = [] \/ colon = [58%N]).

(** A line that consists solely of a known heading synonym: letter case
    aside, with an optional trailing colon and optional surrounding
    whitespace. *)
Definition heading_line (l : str) : Prop :=
  exists w1 h t syn, l = w1 ++ h ++ t /\ all_space w1 /\ heading_trailer t /\
                     known_synonym syn /\ same_fold h syn.

(** The value of a name label on a line, if the line is one. *)
Definition label_value (line : str) : option str :=
  match re_search NAME_LABEL_RE (strip line) with
  | Some m => Some (strip (group 1 (m_caps m)))
  | None => None
  end.

(** The first two alphabetic words of a line, when both start with an
    upper-case letter and are 3 to 20 characters long. *)
Definition capitalized_pair (line : str) : option (str * str) :=
  match findall WORD_RE line with
  | w0 :: w1 :: _ =>
      if starts_upper w0 && starts_upper w1 && (len_ok w0 && len_ok w1)
      then Some (w0, w1) else None
  | _ => None
  end.

(** The alphabetic words of a line: its maximal runs of ASCII letters. *)
Fixpoint words_from (p : char -> bool) (cur : str) (s : str) : list str :=
  match s with
  | [] => match cur with [] => [] | _ => [rev cur] end
  | c :: t =>
      if p c then words_from p (c :: cur) t
      else match cur with
           | [] => words_from p [] t
           | _ => rev cur :: words_from p [] t
           end
  end.
Definition alpha_words (line : str) : list str := words_from is_alpha [] line.

Fixpoint take_while (p : char -> bool) (s : str) : str :=
  match s with
  | c :: t => if p c then c :: take_while p t else []
  | [] => []
  end.
Fixpoint drop_while (p : char -> bool) (s : str) : str :=
  match s with
  | c :: t => if p c then drop_while p t else s
  | [] => []
  end.

(** A name label line: after stripping, the word [name] in any letter case,
    optional whitespace, a colon or a dash, optional whitespace and a value
    that extends to the end of the line; [v] is the stripped value. *)
Definition name_label (line v : str) : Prop :=
  exists nm ws1 sep ws2 g,
    strip line = nm ++ ws1 ++ sep :: ws2 ++ g /\
    same_fold nm (u "name") /\ all_space ws1 /\ (sep = 58 \/ sep = 45)%N /\
    all_space ws2 /\ g <> [] /\ no_newline g /\ v = strip g.

(** The words of a line that qualify for a name: alphabetic words that
    start with an upper-case letter and are 3 to 20 characters long. *)
Definition qualifying (w : str) : bool := starts_upper w && len_ok w.
Definition qualifying_words (line : str) : list str := filter qualifying (alpha_words line).

(** The first two alphabetic words of a line both start with an upper-case
    letter and are 3 to 20 characters long. *)
Definition capitalized_words (line w0 w1 : str) : Prop :=
  exists ws, alpha_words line = w0 :: w1 :: ws /\
    starts_upper w0 = true /\ starts_upper w1 = true /\
    3 <= length w0 <= 20 /\ 3 <= length w1 <= 20.

(** Every maximal run of characters of the class [p] replaced by one copy of
    [repl]; [in_run] tells that the character before was in the class. *)
Fixpoint squeeze (p : char -> bool) (repl : str) (in_run : bool) (s : str) : str :=
  match s with
  | [] => []
  | c :: t =>
      if p c then (if in_run then squeeze p repl true t else repl ++ squeeze p repl true t)
      else c :: squeeze p repl false t
  end.

(** A line without its leading bullet characters and the whitespace that
    follows them. *)
Definition unbullet (line : str) : str :=
  match take_while is_bullet line with
  | [] => line
  | _ => drop_while isspace (drop_while is_bullet line)
  end.

(** No two adjacent characters of the class [p]. *)
Fixpoint no_double (p : char -> bool) (s : str) : bool :=
  match s with
  | c :: (d :: _) as t => negb (p c && p d) && no_double p t
  | _ => true
  end.

(** A whitespace character is never followed by another one. *)
Definition single_spaced (s : str) : Prop :=
  forall a c d b, s = a ++ c :: d :: b -> isspace c = true -> isspace d = false.

(** The characters of a text other than whitespace. *)
Definition visible (s : str) : str := filter (fun c => negb (isspace c)) s.

(** The characters that [normalize_text] keeps: [a-z0-9+.#]. *)
Definition kept (c : char) : Prop :=
  is_lower c = true \/ is_digit c = true \/ c = 43%N \/ c = 46%N \/ c = 35%N.

(** [w] stands in [text] between characters that satisfy [delim], or at an
    end of the text. *)
Definition stands_alone (delim : char -> Prop) (text w : str) : Prop :=
  exists pre post, text = pre ++ w ++ post /\
    (pre = [] \/ exists p x, pre = p ++ [x] /\ delim x) /\
    (post = [] \/ exists x q, post = x :: q /\ delim x).

(** An ASCII character that is neither a letter nor a digit. *)
Definition delimiter (c : char) : Prop :=
  (c < 128)%N /\ is_alpha c = false /\ is_digit c = false.

(** Not a word character of [re]. *)
Definition non_word (c : char) : Prop := is_word c = false.

(** A keyword that starts and ends with a word character. *)
Definition word_edged (k : str) : bool :=
  match k with
  | c :: _ => is_word c && is_word (last k c)
  | [] => false
  end.

(** The keywords of the skill taxonomy. *)
Definition skill_keywords : list str := concat (map snd SKILL_TAXONOMY).

(** [k] is a piece of [text]. *)
Definition occurs (k text : str) : Prop := exists a b, text = a ++ k ++ b.

(** The canonical section names: the keys of [SECTION_SYNONYMS]. *)
Definition section_names : list str := map fst SECTION_SYNONYMS.

(** The key under which the text after a heading match is filed. *)
Definition canon_of (m : rmatch) : str :=
  let raw_head := lower (strip (group g_head (m_caps m))) in
  match dict_get raw_head CANONICAL_BY_SYNONYM with
  | Some c => c
  | None => raw_head
  end.

(** [t[:1].upper() + t[1:]] *)
Definition capitalize (t : str) : str := upper (firstn 1 t) ++ skipn 1 t.

(** A tidy list of strings: no duplicates, no element with whitespace at
    either end, and, when the elements are ASCII strings, non-decreasing
    order of the lower-case forms. *)
Definition tidy (l : list str) : Prop :=
  NoDup l /\
  (Forall is_ascii l -> StronglySorted (fun a b => str_leb (lower a) (lower b) = true) l) /\
  Forall (fun s => strip s = s) l.

(** A line that consists solely of a synonym of the section [canon]: letter
    case aside, with an optional trailing colon and optional surrounding
    whitespace. *)
Definition heading_for (canon : str) (l : str) : Prop :=
  exists w1 h t syn syns, l = w1 ++ h ++ t /\ all_space w1 /\ heading_trailer t /\
    In (canon, syns) SECTION_SYNONYMS /\ In syn syns /\ same_fold h syn.

(** A text that is empty or ends with a line feed; a text that is empty or
    starts with one. *)
Definition ends_lines (p : str) : Prop := p = [] \/ exists p', p = p' ++ [10%N].
Definition starts_line (q : str) : Prop := q = [] \/ exists q', q = 10%N :: q'.

(** ** Texts made of headed parts *)

(** A part of a resume text: a heading line, the section it names and the
    text up to the next heading line. *)
Definition part : Type := (str * str * str)%type.
Definition part_heading (p : part) : str := fst (fst p).
Definition part_section (p : part) : str := snd (fst p).
Definition part_body (p : part) : str := snd p.

(** The text of the parts: every heading line is followed by a line feed and
    the body of its part. *)
Fixpoint join_parts (ps : list part) : str :=
  match ps with
  | [] => []
  | p :: ps' => part_heading p ++ 10%N :: part_body p ++ join_parts ps'
  end.

(** A part under a heading: the heading line is one for the section of the
    part, no line of the body is a heading line, and the first visible
    character of the body is not a colon. *)
Definition headed_part (p : part) : Prop :=
  no_newline (part_heading p) /\ heading_for (part_section p) (part_heading p) /\
  (forall l, In l (text_lines (part_body p)) -> ~ heading_line l) /\
  hd_error (strip (part_body p)) <> Some 58%N.

(** Every body but the last is empty or ends with a line feed: the next
    heading starts a line. *)
Fixpoint whole_lines (ps : list part) : Prop :=
  match ps with
  | [] => True
  | p :: ps' => (ps' = [] \/ ends_lines (part_body p)) /\ whole_lines ps'
  end.

(** One round of the loop of [split_resume_sections]: a content is filed
    under its key. *)
Definition file_section (sections : list (str * str)) (entry : str * str) : list (str * str) :=
  let (canon, content) := entry in
  if truthy content then
    let prev := match dict_get canon sections with Some v => v | None => [] end in
    dict_set canon (if truthy prev then strip (prev ++ blank_line ++ content) else content) sections
  else sections.

(** Where the content after a heading match ends: at the next match, or at
    the end of the text. *)
Definition next_start (text : str) (ms : list rmatch) : nat :=
  match ms with m :: _ => m_start m | [] => length text end.

(** The contents after the heading matches. *)
Fixpoint contents (text : str) (ms : list rmatch) : list str :=
  match ms with
  | [] => []
  | m :: ms' => strip (slice text (m_end m) (next_start text ms')) :: contents text ms'
  end.

(** The sections of a list of (key, content) entries: the entries with a
    content, their keys in the order of first appearance, and for each key
    its contents joined by blank lines. *)
Definition filed (entries : list (str * str)) : list (str * str) :=
  filter (fun e => truthy (snd e)) entries.
Definition section_keys (entries : list (str * str)) : list str :=
  fold_left (fun s e => set_add (fst e) s) (filed entries) [].
Definition section_text (k : str) (entries : list (str * str)) : str :=
  join blank_line (map snd (filter (fun e => str_eqb (fst e) k) (filed entries))).
Definition merged_sections (entries : list (str * str)) : list (str * str) :=
  map (fun k => (k, section_text k entries)) (section_keys entries).

(** ** Proof tactics *)

(** Case analysis on the comparisons of code points in the goal. *)
Ltac cmp_cases :=
  repeat (match goal with
          | |- context [N.leb ?a ?b] => destruct (N.leb_spec a b)
          | |- context [N.eqb ?a ?b] => destruct (N.eqb_spec a b)
          | H : context [N.leb ?a ?b] |- _ => destruct (N.leb_spec a b)
          | H : context [N.eqb ?a ?b] |- _ => destruct (N.eqb_spec a b)
          end; simpl in *; try (exfalso; lia)).

Ltac char_cases :=
  unfold upper_c, lower_c, is_upper, is_lower, in_range, long_s in *;
  cmp_cases; try reflexivity; try discriminate; try lia.

(** One step of evaluation of the left-hand side, down to its head. *)
Ltac whnf_lhs :=
  lazymatch goal with
  | |- ?l = ?r => let l' := eval lazy head in l in change (l' = r)
  end.

(** * Properties *)

(** ** The matcher against [matches] *)

Lemma matches_reads : forall r st st',
  matches r st st' ->
  exists w, rest st = w ++ rest st' /\ seen st' = rev w ++ seen st.
Proof.
  induction 1; simpl;
    try (exists []; split; reflexivity).
  - exists [c]. split; reflexivity.
  - destruct IHmatches1 as [w1 [R1 S1]]. destruct IHmatches2 as [w2 [R2 S2]].
    exists (w1 ++ w2). rewrite R1, R2, S2, S1, rev_app_distr, !app_assoc. split; reflexivity.
  - assumption.
  - assumption.
  - exists w. split; reflexivity.
  - assumption.
Qed.

Lemma within_dec : forall hi n, more hi = true -> within (dec hi) n -> within hi (S n).
Proof.
  intros [[|h]|] n Hm Hw; simpl in *; try discriminate; try exact I. lia.
Qed.

Lemma within_more : forall hi n, within hi (S n) -> more hi = true /\ within (dec hi) n.
Proof.
  intros [[|h]|] n Hw; simpl in *; repeat split; try lia.
Qed.

Section RepTheory.
Variable p : char -> bool.
Variable cs : list (nat * str).
Variable k : mstate -> option mstate.

Lemma stop_sound : forall lo sn rs x,
  stop cs k lo sn rs = Some x -> lo = 0 /\ k (MState sn rs cs) = Some x.
Proof. intros [|lo] sn rs x H; simpl in H; [split; [reflexivity | exact H] | discriminate]. Qed.

Lemma rep_greedy_sound : forall rs lo hi sn x,
  rep_greedy p cs k lo hi sn rs = Some x ->
  exists w rs', rs = w ++ rs' /\ Forall (fun c => p c = true) w /\ lo <= length w /\
                within hi (length w) /\ k (MState (rev w ++ sn) rs' cs) = Some x.
Proof.
  assert (Hstop : forall rs lo hi sn x, stop cs k lo sn rs = Some x ->
    exists w rs', rs = w ++ rs' /\ Forall (fun c => p c = true) w /\ lo <= length w /\
                  within hi (length w) /\ k (MState (rev w ++ sn) rs' cs) = Some x).
  { intros rs lo hi sn x H. apply stop_sound in H. destruct H as [-> H].
    exists [], rs. simpl. repeat split; auto. destruct hi; simpl; [lia | exact I]. }
  induction rs as [|c t IH]; intros lo hi sn x H; simpl in H.
  - eapply Hstop; eassumption.
  - destruct (p c && more hi) eqn:E.
    + destruct (rep_greedy p cs k (pred lo) (dec hi) (c :: sn) t) eqn:R.
      * inversion H; subst. apply IH in R.
        destruct R as [w [rs' [-> [Fw [Lo [Hi K]]]]]].
        apply andb_true_iff in E. destruct E as [Pc Hm].
        exists (c :: w), rs'. simpl. rewrite <- app_assoc. simpl.
        repeat split; auto; [lia | apply within_dec; assumption].
      * eapply Hstop; eassumption.
    + eapply Hstop; eassumption.
Qed.

Lemma rep_lazy_sound : forall rs lo hi sn x,
  rep_lazy p cs k lo hi sn rs = Some x ->
  exists w rs', rs = w ++ rs' /\ Forall (fun c => p c = true) w /\ lo <= length w /\
                within hi (length w) /\ k (MState (rev w ++ sn) rs' cs) = Some x.
Proof.
  assert (Hstop : forall rs lo hi sn x, stop cs k lo sn rs = Some x ->
    exists w rs', rs = w ++ rs' /\ Forall (fun c => p c = true) w /\ lo <= length w /\
                  within hi (length w) /\ k (MState (rev w ++ sn) rs' cs) = Some x).
  { intros rs lo hi sn x H. apply stop_sound in H. destruct H as [-> H].
    exists [], rs. simpl. repeat split; auto. destruct hi; simpl; [lia | exact I]. }
  induction rs as [|c t IH]; intros lo hi sn x H; simpl in H.
  - destruct (stop cs k lo sn []) eqn:S0; [|discriminate].
    inversion H; subst. eapply Hstop; eassumption.
  - destruct (stop cs k lo sn (c :: t)) eqn:S0.
    + inversion H; subst. eapply Hstop; eassumption.
    + destruct (p c && more hi) eqn:E; [|discriminate].
      apply IH in H. destruct H as [w [rs' [-> [Fw [Lo [Hi K]]]]]].
      apply andb_true_iff in E. destruct E as [Pc Hm].
      exists (c :: w), rs'. simpl. rewrite <- app_assoc. simpl.
      repeat split; auto; [lia | apply within_dec; assumption].
Qed.

Lemma rep_greedy_complete : forall w rs' lo hi sn,
  Forall (fun c => p c = true) w -> lo <= length w -> within hi (length w) ->
  k (MState (rev w ++ sn) rs' cs) <> None ->
  rep_greedy p cs k lo hi sn (w ++ rs') <> None.
Proof.
  induction w as [|c w IH]; intros rs' lo hi sn Fw Lo Hi K; simpl in *.
  - assert (lo = 0) by lia. subst lo.
    destruct rs' as [|c t]; simpl; [exact K|].
    destruct (p c && more hi); [|exact K].
    destruct (rep_greedy p cs k 0 (dec hi) (c :: sn) t); [discriminate | exact K].
  - inversion Fw; subst. apply within_more in Hi. destruct Hi as [Hm Hi].
    rewrite H1, Hm. simpl.
    assert (R : rep_greedy p cs k (pred lo) (dec hi) (c :: sn) (w ++ rs') <> None).
    { apply IH; auto; [lia|]. rewrite <- app_assoc in K. exact K. }
    destruct (rep_greedy p cs k (pred lo) (dec hi) (c :: sn) (w ++ rs')); [discriminate | congruence].
Qed.

Lemma rep_lazy_complete : forall w rs' lo hi sn,
  Forall (fun c => p c = true) w -> lo <= length w -> within hi (length w) ->
  k (MState (rev w ++ sn) rs' cs) <> None ->
  rep_lazy p cs k lo hi sn (w ++ rs') <> None.
Proof.
  induction w as [|c w IH]; intros rs' lo hi sn Fw Lo Hi K; simpl in *.
  - assert (lo = 0) by lia. subst lo.
    destruct rs' as [|c t]; simpl.
    + destruct (k (MState sn [] cs)); [discriminate | congruence].
    + destruct (k (MState sn (c :: t) cs)); [discriminate | congruence].
  - inversion Fw; subst. apply within_more in Hi. destruct Hi as [Hm Hi].
    destruct (stop cs k lo sn (c :: w ++ rs')); [discriminate|].
    rewrite H1, Hm. simpl. apply IH; auto; [lia|]. rewrite <- app_assoc in K. exact K.
Qed.
End RepTheory.

Lemma mstate_eta : forall st, MState (seen st) (rest st) (caps st) = st.
Proof. destruct st; reflexivity. Qed.

(** Every success of the matcher is a reading of the pattern. *)
Lemma run_sound : forall r st k x,
  run r st k = Some x -> exists st', matches r st st' /\ k st' = Some x.
Proof.
  induction r; intros st k x H; simpl in H.
  - exists st. split; [constructor | exact H].
  - destruct st as [sn rs cs]; simpl in H. destruct rs as [|c t]; [discriminate|].
    destruct (b c) eqn:E; [|discriminate].
    eexists. split; [constructor; exact E | exact H].
  - apply IHr1 in H. destruct H as [s2 [M1 H]]. apply IHr2 in H. destruct H as [s3 [M2 H]].
    exists s3. split; [econstructor; eassumption | exact H].
  - destruct (run r1 st k) eqn:E.
    + inversion H; subst. apply IHr1 in E. destruct E as [s2 [M E]].
      exists s2. split; [apply M_alt_l; exact M | exact E].
    + apply IHr2 in H. destruct H as [s2 [M K]].
      exists s2. split; [apply M_alt_r; exact M | exact K].
  - destruct st as [sn rs cs]; simpl in H.
    assert (G : exists w rs', rs = w ++ rs' /\ Forall (fun c => b0 c = true) w /\ n <= length w /\
                  within o (length w) /\ k (MState (rev w ++ sn) rs' cs) = Some x).
    { destruct b; [eapply rep_greedy_sound | eapply rep_lazy_sound]; eassumption. }
    destruct G as [w [rs' [-> [Fw [Lo [Hi K]]]]]].
    eexists. split; [apply M_rep; eassumption | exact K].
  - apply IHr in H. destruct H as [s2 [M H]].
    eexists. split; [apply M_grp; exact M | exact H].
  - destruct (at_bol st) eqn:E; [|discriminate]. exists st. split; [constructor; exact E | exact H].
  - destruct (at_eol st) eqn:E; [|discriminate]. exists st. split; [constructor; exact E | exact H].
  - destruct (at_bos st) eqn:E; [|discriminate]. exists st. split; [constructor; exact E | exact H].
  - destruct (at_eos st) eqn:E; [|discriminate]. exists st. split; [constructor; exact E | exact H].
  - destruct (at_wb st) eqn:E; [|discriminate]. exists st. split; [constructor; exact E | exact H].
Qed.

(** Every reading of the pattern that the continuation accepts makes the
    matcher succeed (possibly on a reading of higher priority). *)
Lemma run_complete : forall r st st',
  matches r st st' -> forall k, k st' <> None -> run r st k <> None.
Proof.
  induction 1; intros k K; simpl.
  - exact K.
  - rewrite H. exact K.
  - apply IHmatches1. apply IHmatches2. exact K.
  - specialize (IHmatches k K). destruct (run a s1 k); [discriminate | congruence].
  - specialize (IHmatches k K). destruct (run a s1 k); [discriminate | exact IHmatches].
  - destruct g; [apply rep_greedy_complete | apply rep_lazy_complete]; assumption.
  - apply IHmatches. exact K.
  - rewrite H. exact K.
  - rewrite H. exact K.
  - rewrite H. exact K.
  - rewrite H. exact K.
  - rewrite H. exact K.
Qed.

Lemma captured_app : forall w sn rs cs,
  captured (length sn) (MState (rev w ++ sn) rs cs) = w.
Proof.
  intros. unfold captured. simpl.
  rewrite length_app, length_rev, Nat.add_sub.
  rewrite <- (length_rev w), firstn_app, Nat.sub_diag, firstn_all. simpl.
  rewrite app_nil_r. apply rev_involutive.
Qed.

(** A successful attempt at one position reads a piece [w] of the text there. *)
Lemma match_at_sound : forall r sn rs m,
  match_at r sn rs = Some m ->
  exists w rs' cs, rs = w ++ rs' /\
    matches r (MState sn rs []) (MState (rev w ++ sn) rs' cs) /\
    m = RMatch (length sn) (length sn + length w) w cs.
Proof.
  intros r sn rs m H. unfold match_at in H.
  destruct (run r (MState sn rs []) (fun st => Some st)) as [st|] eqn:E; [|discriminate].
  apply run_sound in E. destruct E as [st' [M E]]. inversion E; subst st'. clear E.
  destruct (matches_reads M) as [w [R S]]. simpl in R, S.
  destruct st as [sn' rs' cs]. simpl in *. subst sn' rs.
  exists w, rs', cs. split; [reflexivity|]. split; [exact M|].
  inversion H. rewrite captured_app, length_app, length_rev. f_equal. lia.
Qed.

Lemma match_at_complete : forall r sn rs st',
  matches r (MState sn rs []) st' -> match_at r sn rs <> None.
Proof.
  intros r sn rs st' M. unfold match_at.
  assert (R : run r (MState sn rs []) (fun st => Some st) <> None)
    by (eapply run_complete; [exact M | discriminate]).
  destruct (run r (MState sn rs []) (fun st => Some st)); [discriminate | congruence].
Qed.

(** [re.search] returns the leftmost position at which the pattern reads. *)
Lemma search_from_sound : forall r rs sn m,
  search_from r sn rs = Some m ->
  exists a w b cs, rs = a ++ w ++ b /\
    matches r (MState (rev a ++ sn) (w ++ b) []) (MState (rev w ++ rev a ++ sn) b cs) /\
    m = RMatch (length sn + length a) (length sn + length a + length w) w cs /\
    (forall a1 a2, a = a1 ++ a2 -> a2 <> [] -> match_at r (rev a1 ++ sn) (a2 ++ w ++ b) = None).
Proof.
  induction rs as [|c t IH]; intros sn m H; simpl in H.
  - destruct (match_at r sn []) eqn:E; [|discriminate]. inversion H; subst.
    apply match_at_sound in E. destruct E as [w [rs' [cs [R [M ->]]]]].
    exists [], w, rs', cs. simpl. rewrite Nat.add_0_r.
    split; [exact R|]. split; [rewrite <- R; exact M|]. split; [reflexivity|].
    intros a1 a2 Ha Hne. destruct a1, a2; try discriminate. congruence.
  - destruct (match_at r sn (c :: t)) eqn:E.
    + inversion H; subst. apply match_at_sound in E. destruct E as [w [rs' [cs [R [M ->]]]]].
      exists [], w, rs', cs. simpl. rewrite Nat.add_0_r.
      split; [exact R|]. split; [rewrite <- R; exact M|]. split; [reflexivity|].
      intros a1 a2 Ha Hne. destruct a1, a2; try discriminate. congruence.
    + apply IH in H. destruct H as [a [w [b [cs [R [M [-> L]]]]]]].
      exists (c :: a), w, b, cs. simpl. rewrite <- !app_assoc. simpl.
      split; [f_equal; exact R|]. split; [exact M|].
      split; [f_equal; simpl; lia|].
      intros a1 a2 Ha Hne. destruct a1 as [|c1 a1]; simpl in *.
      * subst a2. simpl. rewrite <- R. exact E.
      * inversion Ha; subst. rewrite <- app_assoc. simpl. apply L; auto.
Qed.

Lemma search_from_none : forall r rs sn,
  search_from r sn rs = None ->
  forall a b, rs = a ++ b -> match_at r (rev a ++ sn) b = None.
Proof.
  induction rs as [|c t IH]; intros sn H a b Hab; simpl in H.
  - destruct (match_at r sn []) eqn:E; [discriminate|].
    destruct a, b; try discriminate. exact E.
  - destruct (match_at r sn (c :: t)) eqn:E; [discriminate|].
    destruct a as [|c' a]; simpl in *.
    + subst b. exact E.
    + inversion Hab; subst. rewrite <- app_assoc. simpl. eapply IH; eauto.
Qed.

Lemma search_from_complete : forall r a b sn,
  match_at r (rev a ++ sn) b <> None -> search_from r sn (a ++ b) <> None.
Proof.
  intros r a b sn H E. apply H. eapply search_from_none; eauto.
Qed.

(** ** Strings *)

Lemma str_eqb_eq : forall a b, str_eqb a b = true <-> a = b.
Proof.
  induction a as [|x a IH]; destruct b as [|y b]; simpl; split; intro H;
    try reflexivity; try discriminate.
  - apply andb_true_iff in H. destruct H as [H1 H2].
    apply N.eqb_eq in H1. apply IH in H2. congruence.
  - inversion H; subst. apply andb_true_iff. split; [apply N.eqb_refl | apply IH; reflexivity].
Qed.

Lemma str_eqb_refl : forall a, str_eqb a a = true.
Proof. intro a. apply str_eqb_eq. reflexivity. Qed.

Lemma mem_In : forall x s, mem x s = true <-> In x s.
Proof.
  induction s as [|y t IH]; simpl; split; intro H; try discriminate; try contradiction.
  - apply orb_true_iff in H. destruct H as [H|H].
    + left. symmetry. apply str_eqb_eq. exact H.
    + right. apply IH. exact H.
  - apply orb_true_iff. destruct H as [H|H].
    + left. apply str_eqb_eq. congruence.
    + right. apply IH. exact H.
Qed.

Lemma is_ascii_check : forall s, forallb (fun c => N.ltb c 128) s = true -> is_ascii s.
Proof.
  intros s H. rewrite forallb_forall in H. apply Forall_forall. intros c Hc.
  apply N.ltb_lt. apply H. exact Hc.
Qed.

Lemma truthy_false : forall s, truthy s = false <-> s = [].
Proof. destruct s; simpl; split; intro H; try reflexivity; discriminate. Qed.

Lemma lstrip_all_space : forall s, Forall (fun c => isspace c = true) s -> lstrip s = [].
Proof. induction 1; simpl; [reflexivity | rewrite H; assumption]. Qed.

Lemma strip_all_space : forall s, Forall (fun c => isspace c = true) s -> strip s = [].
Proof. intros s H. unfold strip. rewrite (lstrip_all_space H). reflexivity. Qed.

(** ** Experience entries *)

Lemma any_field_has : forall e, any_field e = true <-> has_field e.
Proof.
  intro e. unfold any_field, has_field.
  destruct (job_title e), (company_name e), (date_range e); simpl; split; intro H;
    try reflexivity; try discriminate;
    try (left; discriminate); try (right; left; discriminate); try (right; right; discriminate).
  destruct H as [H | [H | H]]; contradiction.
Qed.

Lemma same_entry_ci : forall a b, same_entry a b = true <-> same_ci a b.
Proof.
  intros a b. unfold same_entry, same_ci. rewrite !andb_true_iff, !str_eqb_eq. tauto.
Qed.

Lemma no_repeat_snoc : forall d pv x,
  no_repeat (d ++ [pv]) -> ~ same_ci pv x -> no_repeat ((d ++ [pv]) ++ [x]).
Proof.
  intros d pv x Hd Hx pre a b post E.
  destruct (exists_last (l := a :: b :: post)) as [l' [z Ez]]; [discriminate|].
  rewrite Ez, app_assoc in E. apply app_inj_tail in E. destruct E as [E ->].
  destruct post as [|y post].
  - change [a; b] with ([a] ++ [b]) in Ez. apply app_inj_tail in Ez. destruct Ez as [<- ->].
    apply app_inj_tail in E. destruct E as [_ ->]. exact Hx.
  - destruct (exists_last (l := y :: post)) as [post' [z' Ez']]; [discriminate|].
    rewrite Ez' in Ez. change (a :: b :: post' ++ [z']) with ((a :: b :: post') ++ [z']) in Ez.
    apply app_inj_tail in Ez. destruct Ez as [<- _].
    apply (Hd pre a b post'). rewrite E. reflexivity.
Qed.

Lemma no_repeat_single : forall x, no_repeat [x].
Proof.
  intros x pre a b post E. apply (f_equal (@length Entry)) in E.
  rewrite length_app in E. simpl in E. lia.
Qed.

(** The last loop keeps the two properties of the list it builds. *)
Lemma dedup_keeps : forall results prev deduped,
  Forall has_field deduped -> no_repeat deduped -> last_is prev deduped ->
  Forall has_field (dedup results prev deduped) /\ no_repeat (dedup results prev deduped).
Proof.
  induction results as [|item t IH]; intros prev deduped Hf Hn Hl; simpl.
  - split; assumption.
  - destruct (any_field item) eqn:Ea; simpl; [| apply IH; assumption].
    assert (Hi : has_field item) by (apply any_field_has; exact Ea).
    destruct prev as [pv|].
    + destruct (same_entry pv item) eqn:Es; [apply IH; assumption|].
      destruct Hl as [d ->]. apply IH.
      * apply Forall_app. split; [assumption | constructor; [exact Hi | constructor]].
      * apply no_repeat_snoc; [assumption|]. intro C. apply same_entry_ci in C. congruence.
      * exists (d ++ [pv]). reflexivity.
    + simpl in Hl. subst deduped. apply IH.
      * constructor; [exact Hi | constructor].
      * apply no_repeat_single.
      * exists []. reflexivity.
Qed.

Section FinalLoopFacts.
Variable low : str -> str.

Lemma same_entry_by_refl : forall a, same_entry_by low a a = true.
Proof. intro a. unfold same_entry_by. rewrite !str_eqb_refl. reflexivity. Qed.

Lemma same_entry_by_eq : forall a b,
  same_entry_by low a b = true <->
  low (job_title a) = low (job_title b) /\ low (company_name a) = low (company_name b) /\
  low (date_range a) = low (date_range b).
Proof. intros a b. unfold same_entry_by. rewrite !andb_true_iff, !str_eqb_eq. tauto. Qed.

Lemma same_entry_by_shift : forall k p e,
  same_entry_by low k p = true -> same_entry_by low p e = same_entry_by low k e.
Proof.
  intros k p e H. apply same_entry_by_eq in H. destruct H as [H1 [H2 H3]].
  unfold same_entry_by. rewrite H1, H2, H3. reflexivity.
Qed.

(** The loop compares an entry with the entry kept last; as the entries left
    out agree with that entry, this is the comparison with the entry just
    before it among the entries that have a field. *)
Lemma dedup_by_keep_new : forall results kept before deduped,
  match kept, before with
  | None, None => True
  | Some k, Some p => same_entry_by low k p = true
  | _, _ => False
  end ->
  dedup_by low results kept deduped = deduped ++ keep_new low before (filter any_field results).
Proof.
  induction results as [|item t IH]; intros kept before deduped R; cbn [dedup_by filter keep_new].
  - rewrite app_nil_r. reflexivity.
  - destruct (any_field item) eqn:Ea; cbn [negb]; [|apply IH; exact R].
    cbn [keep_new].
    destruct kept as [k|], before as [p|]; try contradiction.
    + rewrite (@same_entry_by_shift k p item R). destruct (same_entry_by low k item) eqn:Es.
      * apply IH. exact Es.
      * rewrite (IH (Some item) (Some item)) by apply same_entry_by_refl.
        rewrite <- app_assoc. reflexivity.
    + rewrite (IH (Some item) (Some item)) by apply same_entry_by_refl.
      rewrite <- app_assoc. reflexivity.
Qed.

Lemma dedup_by_collapse : forall results, dedup_by low results None [] = collapse low results.
Proof. intro results. apply (@dedup_by_keep_new results None None []). exact I. Qed.
End FinalLoopFacts.

Lemma dedup_by_lower : forall results prev deduped,
  dedup_by lower results prev deduped = dedup results prev deduped.
Proof.
  induction results as [|item t IH]; intros prev deduped; cbn [dedup_by dedup]; [reflexivity|].
  destruct (negb (any_field item)); [apply IH|].
  destruct prev as [pv|]; [|apply IH].
  change (same_entry_by lower pv item) with (same_entry pv item).
  destruct (same_entry pv item); apply IH.
Qed.

(** C1. Whatever the pipeline and the rule matcher find in the blocks of an
    experience section, every entry that [extract_experience] returns has a
    job title, a company name or a date range, and no returned entry agrees
    field by field, letter case aside, with the entry returned just before
    it.  The final loop returns exactly the entries that have a field with
    consecutive duplicates collapsed to one, whatever function lower-cases
    the fields for the comparison; for an ASCII text whose block entries are
    ASCII this is what [extract_experience] returns. *)
Theorem extract_experience_retained :
  forall (nlp : str -> Doc) (matcher : Doc -> list (nat * nat * nat))
         (set_iter : list str -> list str) (experience_text : str),
    Forall has_field (extract_experience nlp matcher set_iter experience_text) /\
    no_repeat (extract_experience nlp matcher set_iter experience_text) /\
    (forall (low : str -> str) (results : list Entry),
       dedup_by low results None [] = collapse low results) /\
    (is_ascii experience_text ->
     Forall ascii_entry
       (process_blocks nlp matcher set_iter (split_blocks (splitlines experience_text) [] []) []) ->
     extract_experience nlp matcher set_iter experience_text
     = collapse lower
         (process_blocks nlp matcher set_iter (split_blocks (splitlines experience_text) [] []) [])).
Proof.
  intros nlp matcher set_iter text.
  assert (H : Forall has_field (extract_experience nlp matcher set_iter text) /\
              no_repeat (extract_experience nlp matcher set_iter text)).
  { unfold extract_experience. destruct (negb (truthy text)).
    - split; [constructor|]. intros pre a b post E. destruct pre; discriminate.
    - apply dedup_keeps.
      + constructor.
      + intros pre a b post E. destruct pre; discriminate.
      + reflexivity. }
  split; [apply H|]. split; [apply H|]. split.
  - intros low results. apply dedup_by_collapse.
  - intros _ _. unfold extract_experience. destruct text as [|c text]; [reflexivity|].
    cbn [truthy negb]. rewrite <- dedup_by_lower. apply dedup_by_collapse.
Qed.

Lemma ascii_entries_check : forall l,
  forallb (fun e => forallb (fun c => N.ltb c 128) (job_title e ++ company_name e ++ date_range e)) l
  = true ->
  Forall ascii_entry l.
Proof.
  intros l H. rewrite forallb_forall in H. apply Forall_forall. intros e He.
  specialize (H e He). rewrite !forallb_app, !andb_true_iff in H. destruct H as [H1 [H2 H3]].
  assert (A : forall s, forallb (fun c => N.ltb c 128) s = true -> is_ascii s).
  { intros s Hs. apply Forall_forall. intros c Hc. rewrite forallb_forall in Hs.
    apply N.ltb_lt. apply Hs. exact Hc. }
  split; [|split]; apply A; assumption.
Qed.

Lemma extract_experience_retained_witness :
  extract_experience blank_nlp no_matches insertion_order
    (u "Backend Developer, Jan 2020 - Present" ++ [10; 10]%N ++
     u "backend developer, JAN 2020 - PRESENT" ++ [10; 10]%N ++ u "Data Scientist at Acme Labs")
  = [MkEntry (u "Backend Developer") [] (u "Jan 2020 - Present");
     MkEntry (u "Data Scientist") (u "Data Scientist at Acme Labs") []].
Proof.
  rewrite (proj2 (proj2 (proj2 (extract_experience_retained blank_nlp no_matches insertion_order _)))).
  - vm_compute. reflexivity.
  - apply Forall_forall. intros c Hc.
    assert (A : forallb (fun c => N.ltb c 128)
                  (u "Backend Developer, Jan 2020 - Present" ++ [10; 10]%N ++
                   u "backend developer, JAN 2020 - PRESENT" ++ [10; 10]%N ++
                   u "Data Scientist at Acme Labs") = true) by (vm_compute; reflexivity).
    rewrite forallb_forall in A. apply N.ltb_lt. apply A. exact Hc.
  - apply ascii_entries_check. vm_compute. reflexivity.
Defined.

(** ** Request validation *)

(** C7. A request whose JSON object has no usable text (the field is
    missing, empty, made of whitespace only, or not a string) is answered
    with the validation error, and the trace of components that ran is
    empty: neither the pipeline, the segmenter, the experience matcher, an
    extractor nor the merger was called. *)
Theorem parse_resume_rejects :
  forall (nlp : str -> Doc) (matcher : Doc -> list (nat * nat * nat))
         (set_iter : list str -> list str) (use_ml ml_available ruler : bool)
         (d : list (str * json)),
    unusable (text_of d) ->
    parse_resume nlp matcher set_iter use_ml ml_available ruler (Some (JObj d)) = ([], Invalid).
Proof.
  intros nlp matcher set_iter use_ml ml_available ruler d H.
  unfold parse_resume.
  assert (E : (if json_truthy (JObj d) then JObj d else JObj []) = JObj d).
  { destruct d; reflexivity. }
  rewrite E. unfold text_of in H.
  destruct (dict_get (u "text") d) as [v|]; [|reflexivity].
  destruct v; try reflexivity.
  simpl in H. rewrite (strip_all_space H). reflexivity.
Qed.

Lemma parse_resume_rejects_witness :
  parse_resume (fun _ => MkDoc [] []) (fun _ => []) (fun s => s) true true true
    (Some (JObj [(u "text", JStr (u "   "))])) = ([], Invalid).
Proof.
  apply parse_resume_rejects. vm_compute. repeat constructor.
Defined.

(** ** Phone numbers *)

(** C10. On the bare year range 2020-2021, which holds no phone number, the
    primary pattern of [extract_phone_number] reads the whole text (4 digits,
    a dash, 4 digits) and the function returns the digit string 20202021. *)
Theorem extract_phone_number_year_range :
  re_search PHONE_RE (u "2020-2021") = Some (RMatch 0 9 (u "2020-2021") []) /\
  extract_phone_number (u "2020-2021") = u "20202021".
Proof.
  split; vm_compute; reflexivity.
Qed.

(** ** Date ranges *)

Lemma matches_groupless : forall r st st',
  matches r st st' -> groupless r = true ->
  exists w, rest st = w ++ rest st' /\ seen st' = rev w ++ seen st /\ caps st' = caps st.
Proof.
  induction 1; simpl; intro G;
    try (exists []; repeat split; reflexivity); try discriminate.
  - exists [c]. repeat split; reflexivity.
  - apply andb_true_iff in G. destruct G as [G1 G2].
    destruct (IHmatches1 G1) as [w1 [R1 [S1 C1]]]. destruct (IHmatches2 G2) as [w2 [R2 [S2 C2]]].
    exists (w1 ++ w2). rewrite R1, R2, S2, S1, C2, C1, rev_app_distr, !app_assoc.
    repeat split; reflexivity.
  - apply andb_true_iff in G. destruct G as [G1 G2]. auto.
  - apply andb_true_iff in G. destruct G as [G1 G2]. auto.
  - exists w. repeat split; reflexivity.
Qed.

(** A group over a groupless pattern records exactly what it read. *)
Lemma matches_group : forall g a st st',
  matches (Grp g a) st st' -> groupless a = true ->
  exists w, rest st = w ++ rest st' /\ seen st' = rev w ++ seen st /\
            caps st' = (g, w) :: caps st.
Proof.
  intros g a st st' M G.
  inversion M as [| | | | | |g' a' s1 s2 Ma| | | | |]; subst. simpl.
  destruct (matches_groupless Ma G) as [w [R [S C]]].
  exists w. split; [exact R|]. split; [exact S|].
  unfold captured. rewrite S, C, length_app, length_rev, Nat.add_sub.
  rewrite <- (length_rev w), firstn_app, Nat.sub_diag, firstn_all. simpl.
  rewrite app_nil_r, rev_involutive. reflexivity.
Qed.

Lemma groupless_lit_i : forall s, groupless (lit_i s) = true.
Proof. induction s; simpl; auto. Qed.

Lemma groupless_lit : forall s, groupless (lit s) = true.
Proof. induction s; simpl; auto. Qed.

Lemma groupless_alts : forall rs,
  Forall (fun r => groupless r = true) rs -> groupless (alts rs) = true.
Proof.
  induction 1 as [|r rs Hr Hrs IH]; simpl; [reflexivity|].
  destruct rs; [exact Hr|]. simpl in *. rewrite Hr, IH. reflexivity.
Qed.

Lemma groupless_month_year : groupless month_year = true.
Proof. reflexivity. Qed.





(** The literal case of the specification. *)
Example detect_date_range_literal :
  detect_date_range (u "Software Engineer at Acme Technologies, Jan 2020 - Present") (MkDoc [] [])
  = u "Jan 2020 - Present".
Proof. vm_compute. reflexivity. Qed.

(** ** Canonical skill names *)

Lemma upper_c_idem : forall c, upper_c (upper_c c) = upper_c c.
Proof. intro c. char_cases. Qed.

Lemma lower_upper_c : forall c, c <> long_s -> lower_c (upper_c c) = lower_c c.
Proof. intros c H. char_cases. Qed.

Lemma isspace_capital : forall c, (65 <= c <= 90)%N -> isspace c = false.
Proof. intros c H. unfold isspace, in_range. cmp_cases. reflexivity. Qed.

Lemma isspace_upper_c : forall c, isspace c = false -> isspace (upper_c c) = false.
Proof.
  intros c H. unfold upper_c. destruct (is_lower c) eqn:E.
  - apply isspace_capital. unfold is_lower, in_range in E.
    apply andb_true_iff in E. destruct E as [E1 E2].
    apply N.leb_le in E1. apply N.leb_le in E2. lia.
  - destruct (N.eqb_spec c long_s); [reflexivity | exact H].
Qed.

Lemma lstrip_no_lead : forall s, no_lead (lstrip s).
Proof.
  induction s as [|c t IH]; simpl; [exact I|].
  destruct (isspace c) eqn:E; [exact IH | simpl; exact E].
Qed.

Lemma no_lead_lstrip : forall s, no_lead s -> lstrip s = s.
Proof. destruct s as [|c t]; simpl; intro H; [reflexivity | rewrite H; reflexivity]. Qed.

Lemma lstrip_snoc : forall l c, isspace c = false -> exists l', lstrip (l ++ [c]) = l' ++ [c].
Proof.
  induction l as [|x l IH]; intros c H; simpl.
  - rewrite H. exists []. reflexivity.
  - destruct (isspace x); [apply IH; exact H | exists (x :: l); reflexivity].
Qed.

Lemma rstrip_no_lead : forall s, no_lead s -> no_lead (rstrip s).
Proof.
  intros [|c t] H; [exact I|]. unfold rstrip. simpl in *.
  destruct (lstrip_snoc (rev t) c H) as [l' E]. rewrite E, rev_app_distr. simpl. exact H.
Qed.

Lemma rstrip_no_trail : forall s, no_lead (rev (rstrip s)).
Proof. intro s. unfold rstrip. rewrite rev_involutive. apply lstrip_no_lead. Qed.

Lemma strip_fixed : forall s, no_lead s -> no_lead (rev s) -> strip s = s.
Proof.
  intros s H1 H2. unfold strip. rewrite (no_lead_lstrip _ H1).
  unfold rstrip. rewrite (no_lead_lstrip _ H2). apply rev_involutive.
Qed.

Lemma strip_no_lead : forall s, no_lead (strip s).
Proof. intro s. apply rstrip_no_lead, lstrip_no_lead. Qed.

Lemma strip_no_trail : forall s, no_lead (rev (strip s)).
Proof. intro s. apply rstrip_no_trail. Qed.

Lemma strip_idem : forall s, strip (strip s) = strip s.
Proof. intro s. apply strip_fixed; [apply strip_no_lead | apply strip_no_trail]. Qed.

(** [t[:1].upper() + t[1:]] of a stripped text is stripped. *)
Lemma capitalized_stripped : forall c t,
  no_lead (c :: t) -> no_lead (rev (c :: t)) ->
  strip (upper_c c :: t) = upper_c c :: t.
Proof.
  intros c t H1 H2. simpl in H1. apply strip_fixed.
  - simpl. apply isspace_upper_c. exact H1.
  - simpl in *. destruct (rev t) as [|x l]; simpl in *; [apply isspace_upper_c|]; assumption.
Qed.

Lemma upper_is_gcp : forall t, upper t = u "GCP" -> lower t = u "gcp".
Proof.
  intros t H. destruct t as [|c1 [|c2 [|c3 [|c4 t]]]]; try discriminate.
  unfold upper, lower in *. simpl in *. inversion H as [[H1 H2 H3]]. clear H.
  assert (L : forall c v, upper_c c = v -> (v = 71 \/ v = 67 \/ v = 80)%N ->
                lower_c c = (v + 32)%N).
  { intros c v Hc Hv. char_cases. }
  rewrite (L c1 _ H1), (L c2 _ H2), (L c3 _ H3); [reflexivity| | |]; lia.
Qed.

Lemma alias_values_fixed : forall key v,
  dict_get key SKILL_ALIASES = Some v -> canonical_skill v = v.
Proof.
  intros key v H. unfold SKILL_ALIASES in H. simpl in H.
  repeat match type of H with
         | (if ?b then _ else _) = _ => destruct b
         end;
    try discriminate; inversion H; vm_compute; reflexivity.
Qed.

(** C3 as stated fails: the canonical form of [ſql server] is [Sql server],
    whose canonical form is the alias value [SQL Server]. *)
Lemma canonical_skill_not_idempotent :
  canonical_skill long_s_sql_server = u "Sql server" /\
  canonical_skill (canonical_skill long_s_sql_server) = u "SQL Server" /\
  canonical_skill (canonical_skill long_s_sql_server) <> canonical_skill long_s_sql_server.
Proof.
  split; [vm_compute; reflexivity|]. split; [vm_compute; reflexivity|].
  vm_compute. discriminate.
Qed.

(** Idempotence when the first character after stripping is not U+017F. *)
Lemma canonical_skill_idempotent_plain :
  forall x : str,
    hd_error (strip x) <> Some long_s ->
    canonical_skill (canonical_skill x) = canonical_skill x.
Proof.
  intros x Hx. unfold canonical_skill at 2 3.
  set (t := strip x) in *.
  destruct (dict_get (lower t) SKILL_ALIASES) as [v|] eqn:Ea.
  { eapply alias_values_fixed; eassumption. }
  destruct (mem (lower t) [u "node"; u "nodejs"]); [vm_compute; reflexivity|].
  destruct (mem (lower t) [u "reactjs"; u "react.js"]); [vm_compute; reflexivity|].
  destruct (str_eqb (lower t) (u "postgres")); [vm_compute; reflexivity|].
  destruct (mem (upper t) [u "AWS"; u "GCP"]) eqn:Eu.
  { apply mem_In in Eu. destruct Eu as [Eu | [Eu | []]].
    - rewrite <- Eu. vm_compute. reflexivity.
    - symmetry in Eu. apply upper_is_gcp in Eu. rewrite Eu in Ea. vm_compute in Ea. discriminate. }
  destruct (mem (lower t) [u "c++"; u "c#"; u ".net"]) eqn:El.
  { unfold canonical_skill. fold t.
    assert (Et : strip t = t) by apply strip_idem. rewrite Et, Ea.
    destruct (mem (lower t) [u "node"; u "nodejs"]) eqn:E1.
    { apply mem_In in E1. destruct E1 as [E1 | [E1 | []]]; rewrite <- E1 in Ea;
        vm_compute in Ea; discriminate. }
    destruct (mem (lower t) [u "reactjs"; u "react.js"]) eqn:E2.
    { apply mem_In in E2. destruct E2 as [E2 | [E2 | []]]; rewrite <- E2 in Ea;
        vm_compute in Ea; discriminate. }
    destruct (str_eqb (lower t) (u "postgres")) eqn:E3.
    { apply str_eqb_eq in E3. rewrite E3 in Ea. vm_compute in Ea. discriminate. }
    rewrite Eu, El. reflexivity. }
  destruct t as [|c t'] eqn:Et; [vm_compute; reflexivity|].
  assert (Hc : c <> long_s) by (intro C; apply Hx; simpl; congruence).
  assert (Hs : strip (upper_c c :: t') = upper_c c :: t').
  { apply capitalized_stripped; rewrite <- Et; [apply strip_no_lead | apply strip_no_trail]. }
  assert (Hl : lower (upper_c c :: t') = lower (c :: t')).
  { unfold lower. simpl. rewrite lower_upper_c by exact Hc. reflexivity. }
  assert (Hu : upper (upper_c c :: t') = upper (c :: t')).
  { unfold upper. simpl. rewrite upper_c_idem. reflexivity. }
  change (upper (firstn 1 (c :: t')) ++ skipn 1 (c :: t')) with (upper_c c :: t').
  unfold canonical_skill. rewrite Hs, Hl, Hu, Ea.
  destruct (mem (lower (c :: t')) [u "node"; u "nodejs"]) eqn:E1.
  { apply mem_In in E1. destruct E1 as [E1 | [E1 | []]]; rewrite <- E1 in Ea;
      vm_compute in Ea; discriminate. }
  destruct (mem (lower (c :: t')) [u "reactjs"; u "react.js"]) eqn:E2.
  { apply mem_In in E2. destruct E2 as [E2 | [E2 | []]]; rewrite <- E2 in Ea;
      vm_compute in Ea; discriminate. }
  destruct (str_eqb (lower (c :: t')) (u "postgres")) eqn:E3.
  { apply str_eqb_eq in E3. rewrite E3 in Ea. vm_compute in Ea. discriminate. }
  rewrite Eu, El. simpl. unfold upper. simpl. rewrite upper_c_idem. reflexivity.
Qed.

Lemma alias_after_s : forall r,
  dict_get (115%N :: r) SKILL_ALIASES
  = if str_eqb r (u "ql server") then Some (u "SQL Server") else None.
Proof.
  intro r. unfold SKILL_ALIASES. cbn [dict_get str_eqb char_eqb u map list_ascii_of_string N_of_ascii N.eqb Pos.eqb andb N.add N.mul].
  destruct (str_eqb r (u "ql server")) eqn:E.
  - cbn in E |- *. rewrite E. reflexivity.
  - cbn in E |- *. rewrite E. reflexivity.
Qed.

Lemma lower_c_long_s : forall c, lower_c c = long_s -> c = long_s.
Proof.
  intros c H. unfold lower_c, is_upper, in_range, long_s in *.
  destruct (N.leb_spec 65 c); destruct (N.leb_spec c 90); cbn [andb] in H; lia.
Qed.

(** C3, amended. [canonical_skill] returns a string for every string (it is a
    total function).  On the strings of ASCII characters and U+017F it is
    idempotent except in one case: when the stripped string is U+017F
    followed by "ql server" in a letter case other than "QL Server", the
    first call gives S followed by the rest and the second the alias value
    SQL Server.  In particular it is idempotent on every ASCII string. *)
Theorem canonical_skill_idempotent :
  forall x : str,
    Forall (fun c => (c < 128)%N \/ c = long_s) x ->
    (canonical_skill (canonical_skill x) = canonical_skill x
     <-> (lower (strip x) = long_s_sql_server -> strip x = long_s :: u "QL Server")).
Proof.
  intros x _.
  destruct (strip x) as [|c t'] eqn:Et.
  { split; [intros _ C; discriminate C|]. intros _. unfold canonical_skill at 2 3. rewrite Et.
    vm_compute. reflexivity. }
  destruct (N.eqb_spec c long_s) as [-> | Hc].
  2:{ split.
      - intros _ C. exfalso. apply Hc. unfold lower, long_s_sql_server in C. cbn [map] in C.
        injection C as C1 C2. exact (lower_c_long_s _ C1).
      - intros _. apply canonical_skill_idempotent_plain. rewrite Et. cbn [hd_error]. congruence. }
  assert (Hs : strip (83%N :: t') = 83%N :: t').
  { apply (@capitalized_stripped long_s t'); rewrite <- Et; [apply strip_no_lead | apply strip_no_trail]. }
  assert (E1 : canonical_skill x = 83%N :: t').
  { unfold canonical_skill. rewrite Et. reflexivity. }
  assert (E2 : canonical_skill (83%N :: t')
               = if str_eqb (lower t') (u "ql server") then u "SQL Server" else 83%N :: t').
  { unfold canonical_skill. rewrite Hs.
    change (lower (83%N :: t')) with (115%N :: lower t'). rewrite alias_after_s.
    destruct (str_eqb (lower t') (u "ql server")); reflexivity. }
  rewrite E1, E2. unfold lower, long_s_sql_server. cbn [map]. fold (lower t').
  change (lower_c long_s) with long_s.
  destruct (str_eqb (lower t') (u "ql server")) eqn:El.
  - apply str_eqb_eq in El. split.
    + intros H _. f_equal. inversion H. reflexivity.
    + intro H. rewrite El in H. specialize (H eq_refl). inversion H. reflexivity.
  - split; [|reflexivity]. intros _ C. inversion C as [C1].
    rewrite C1, str_eqb_refl in El. discriminate El.
Qed.

Lemma canonical_skill_idempotent_witness :
  canonical_skill (canonical_skill (u "  nodeJS ")) = canonical_skill (u "  nodeJS ").
Proof.
  apply (proj2 (@canonical_skill_idempotent (u "  nodeJS ")
                  (Forall_impl _ (fun c H => or_introl H)
                     (is_ascii_check (u "  nodeJS ") eq_refl)))).
  intro C. vm_compute in C. discriminate C.
Defined.

(** ** Merging *)

Lemma insert_sorted_perm : forall (A : Type) (le : A -> A -> bool) x l,
  Permutation (insert_sorted le x l) (x :: l).
Proof.
  induction l as [|y t IH]; simpl; [apply Permutation_refl|].
  destruct (le x y); [apply Permutation_refl|].
  eapply Permutation_trans; [apply perm_skip; exact IH | apply perm_swap].
Qed.

Lemma sorted_perm : forall (A : Type) (le : A -> A -> bool) l,
  Permutation (sorted le l) l.
Proof.
  induction l as [|x t IH]; simpl; [apply Permutation_refl|].
  eapply Permutation_trans; [apply insert_sorted_perm | apply perm_skip; exact IH].
Qed.

(** C5 at the failing input. The set {Java, java} has two elements with the
    same lower-case key. Iterated in insertion order [merge_sets] returns
    [Java; java]; iterated in another order (both orders enumerate each set
    exactly) it returns [java; Java]: the stable sort on the lower-case key
    leaves ties in iteration order. *)
Theorem merge_sets_depends_on_set_order :
  (forall s, Permutation (insertion_order s) s) /\
  (forall s, Permutation (descending_order s) s) /\
  merge_sets insertion_order [[u "Java"; u "java"]] = [u "Java"; u "java"] /\
  merge_sets descending_order [[u "Java"; u "java"]] = [u "java"; u "Java"].
Proof.
  split; [intro s; apply Permutation_refl|].
  split; [intro s; apply sorted_perm|].
  split; vm_compute; reflexivity.
Qed.

(** ** Dictionary-only mode *)

(** C6 at the failing input. C++ is a keyword of the skill taxonomy, and the
    text C++ normalizes to " c++ " so that the keyword stands as a whole
    word; yet [\bc\+\+\b] finds nothing there (no word boundary follows the
    last +), [extract_skills_dict] returns the empty set, and with the
    learned model switched off and no entity ruler the answer holds no skill. *)
Theorem dictionary_only_misses_cpp :
  In (u "C++") (concat (map snd SKILL_TAXONOMY)) /\
  normalize_text (u "C++") = u " c++ " /\
  re_search (word_re (u "c++")) (u " c++ ") = None /\
  extract_skills_dict (u "C++") = [] /\
  snd (parse_resume blank_nlp no_matches insertion_order false false false
         (Some (JObj [(u "text", JStr (u "C++"))])))
  = Parsed (MkResult [] [] [] [] [] [] [] []).
Proof.
  split; [apply mem_In; vm_compute; reflexivity|].
  split; [vm_compute; reflexivity|].
  split; [vm_compute; reflexivity|].
  split; vm_compute; reflexivity.
Qed.

(** ** What readings look like *)

(** The word read, its first character and its characters. *)
Lemma matches_word : forall r st st',
  matches r st st' ->
  exists w, rest st = w ++ rest st' /\ seen st' = rev w ++ seen st /\
            first_ok r w /\ Forall (fun c => alphabet r c = true) w.
Proof.
  induction 1; simpl;
    try (exists []; repeat split; try reflexivity; constructor).
  - exists [c]. repeat split; simpl; auto.
  - destruct IHmatches1 as [w1 [R1 [S1 [F1 A1]]]].
    destruct IHmatches2 as [w2 [R2 [S2 [F2 A2]]]].
    exists (w1 ++ w2). rewrite R1, R2, S2, S1, rev_app_distr, !app_assoc.
    split; [reflexivity|]. split; [reflexivity|]. split.
    + destruct w1 as [|c w1]; simpl in *.
      * destruct w2 as [|c w2]; simpl in *.
        -- rewrite F1, F2. reflexivity.
        -- rewrite F1, F2. simpl. apply orb_true_r.
      * rewrite F1. reflexivity.
    + apply Forall_app. split; eapply Forall_impl; try eassumption;
        simpl; intros c Hc; rewrite Hc; auto using orb_true_r.
  - destruct IHmatches as [w [R [S [F A]]]]. exists w. repeat split; auto.
    + destruct w; simpl in *; rewrite F; reflexivity.
    + eapply Forall_impl; try eassumption. simpl. intros c Hc. rewrite Hc. reflexivity.
  - destruct IHmatches as [w [R [S [F A]]]]. exists w. repeat split; auto.
    + destruct w; simpl in *; rewrite F; apply orb_true_r.
    + eapply Forall_impl; try eassumption. simpl. intros c Hc. rewrite Hc. apply orb_true_r.
  - exists w. repeat split; auto.
    destruct w as [|c w]; simpl in *.
    + apply Nat.eqb_eq. lia.
    + inversion H; assumption.
  - destruct IHmatches as [w [R [S [F A]]]]. exists w. repeat split; auto.
Qed.

(** A pattern without assertions reads the same word whatever follows it. *)
Lemma matches_context : forall r st st',
  matches r st st' -> assertion_free r = true ->
  forall w rs2, rest st = w ++ rest st' ->
    matches r (MState (seen st) (w ++ rs2) (caps st)) (MState (seen st') rs2 (caps st')).
Proof.
  induction 1; simpl; intros AF w0 rs2 E; try discriminate.
  - assert (w0 = []) by (apply (app_inv_tail (rest st)); exact (eq_sym E)). subst.
    simpl. rewrite <- (mstate_eta st) at 2. simpl. constructor.
  - assert (w0 = [c]) by (apply (app_inv_tail rs); simpl; exact (eq_sym E)). subst.
    simpl. constructor. assumption.
  - apply andb_true_iff in AF. destruct AF as [AF1 AF2].
    destruct (matches_reads H) as [w1 [R1 _]]. destruct (matches_reads H0) as [w2 [R2 _]].
    assert (w0 = w1 ++ w2).
    { apply (app_inv_tail (rest s3)). rewrite <- E, R1, R2, app_assoc. reflexivity. }
    subst w0. rewrite <- app_assoc.
    apply M_seq with (s2 := MState (seen s2) (w2 ++ rs2) (caps s2)).
    + apply (IHmatches1 AF1 w1 (w2 ++ rs2) R1).
    + apply (IHmatches2 AF2 w2 rs2 R2).
  - apply andb_true_iff in AF. destruct AF as [AF1 AF2]. apply M_alt_l. auto.
  - apply andb_true_iff in AF. destruct AF as [AF1 AF2]. apply M_alt_r. auto.
  - assert (w0 = w) by (apply (app_inv_tail rs); exact (eq_sym E)). subst.
    constructor; assumption.
  - apply (M_grp g) in H. specialize (IHmatches AF w0 rs2 E).
    apply (M_grp g) in IHmatches. exact IHmatches.
Qed.

(** Positions at which the pattern does not read are skipped by the search. *)
Lemma search_from_skip : forall r p sn rs,
  (forall a1 a2, p = a1 ++ a2 -> a2 <> [] -> match_at r (rev a1 ++ sn) (a2 ++ rs) = None) ->
  search_from r sn (p ++ rs) = search_from r (rev p ++ sn) rs.
Proof.
  induction p as [|c p IH]; intros sn rs H; [reflexivity|].
  assert (H0 := H [] (c :: p) eq_refl ltac:(discriminate)). simpl in H0.
  simpl. rewrite H0.
  rewrite <- app_assoc. simpl. apply IH.
  intros a1 a2 E Hne. specialize (H (c :: a1) a2). simpl in H.
  rewrite <- app_assoc in H. simpl in H. apply H; [rewrite E; reflexivity | exact Hne].
Qed.

Lemma search_from_here : forall r sn rs m,
  match_at r sn rs = Some m -> search_from r sn rs = Some m.
Proof. intros r sn rs m H. destruct rs; simpl; rewrite H; reflexivity. Qed.

(** ** Phone numbers: the labelled number *)

(** At the number, the primary pattern reads the ten digits: the attempt
    with an area code fails on the character after the number, the next one
    reads 987 as country code, then 654 and 3210. *)
Lemma phone_run_number : forall sn post,
  starts_with_digit post = false ->
  run PHONE_RE (MState sn (ten_digits ++ post) []) (fun st => Some st)
  = Some (MState (rev ten_digits ++ sn) post []).
Proof.
  intros sn post Hp.
  unfold PHONE_RE, seqs, opt, times, chr.
  change ten_digits with [57; 56; 55; 54; 53; 52; 51; 50; 49; 48]%N.
  cbn [app rev].
  remember is_digit as dg eqn:Edg.
  assert (D : forall x, (48 <=? x)%N && (x <=? 57)%N = true -> dg x = true).
  { intros x Hx. subst dg. exact Hx. }
  assert (D9 : dg 57%N = true) by (apply D; reflexivity).
  assert (D8 : dg 56%N = true) by (apply D; reflexivity).
  assert (D7 : dg 55%N = true) by (apply D; reflexivity).
  assert (D6 : dg 54%N = true) by (apply D; reflexivity).
  assert (D5 : dg 53%N = true) by (apply D; reflexivity).
  assert (D4 : dg 52%N = true) by (apply D; reflexivity).
  assert (D3 : dg 51%N = true) by (apply D; reflexivity).
  assert (D2 : dg 50%N = true) by (apply D; reflexivity).
  assert (D1 : dg 49%N = true) by (apply D; reflexivity).
  assert (D0 : dg 48%N = true) by (apply D; reflexivity).
  clear D.
  destruct post as [|c post].
  - clear Hp Edg.
    repeat (whnf_lhs; progress rewrite ?D9, ?D8, ?D7, ?D6, ?D5, ?D4, ?D3, ?D2, ?D1, ?D0).
    whnf_lhs. reflexivity.
  - simpl in Hp. rewrite <- Edg in Hp. clear Edg.
    repeat (whnf_lhs; progress rewrite ?D9, ?D8, ?D7, ?D6, ?D5, ?D4, ?D3, ?D2, ?D1, ?D0, ?Hp).
    whnf_lhs. reflexivity.
Qed.

Lemma phone_at_number : forall sn post,
  starts_with_digit post = false ->
  match_at PHONE_RE sn (ten_digits ++ post)
  = Some (RMatch (length sn) (length sn + 10) ten_digits []).
Proof.
  intros sn post Hp. unfold match_at. rewrite (phone_run_number sn post Hp).
  rewrite captured_app. cbn [seen caps]. rewrite length_app, length_rev.
  change (length ten_digits) with 10. f_equal. f_equal. lia.
Qed.

Lemma prefix_of_alphabet : forall (P : char -> bool) w rs' l m rs,
  Forall (fun c => P c = true) w -> P m = false ->
  w ++ rs' = l ++ m :: rs -> exists l2, l = w ++ l2.
Proof.
  induction w as [|c w IH]; intros rs' l m rs Fw Pm E.
  - exists l. reflexivity.
  - inversion Fw; subst. destruct l as [|x l]; simpl in E.
    + inversion E; subst. congruence.
    + inversion E; subst. destruct (IH rs' l m rs H2 Pm H3) as [l2 ->].
      exists l2. reflexivity.
Qed.

(** Nothing is read from a position inside the label, nor from a position
    before it when the pattern finds nothing in the text before the label. *)
Lemma phone_before_label : forall pre rs a1 a2,
  re_search PHONE_RE pre = None ->
  pre ++ mobile_label = a1 ++ a2 -> a2 <> [] ->
  match_at PHONE_RE (rev a1 ++ []) (a2 ++ rs) = None.
Proof.
  intros pre rs a1 a2 Hpre E Hne.
  destruct (match_at PHONE_RE (rev a1 ++ []) (a2 ++ rs)) as [m|] eqn:Em; [exfalso | reflexivity].
  apply match_at_sound in Em. destruct Em as [w [rs' [cs [Ew [M _]]]]].
  destruct (matches_word M) as [w' [Rw [_ [Fw Aw]]]]. simpl in Rw.
  assert (w' = w) by (apply (app_inv_tail rs'); rewrite <- Rw; exact Ew). subst w'.
  apply app_eq_app in E. destruct E as [l [[E1 E2] | [E1 E2]]].
  - (* the position is in the text before the label *)
    destruct l as [|x l].
    + simpl in E2. subst a2. rewrite app_nil_r in E1. subst a1.
      destruct w as [|c w]; [discriminate Fw|].
      unfold mobile_label in Ew. simpl in Ew. inversion Ew; subst c.
      vm_compute in Fw. discriminate.
    + subst a2. rewrite <- app_assoc in Ew.
      destruct (@prefix_of_alphabet (alphabet PHONE_RE) w rs' (x :: l) 77%N
                  (tl mobile_label ++ rs)) as [l2 El];
        [exact Aw | reflexivity | symmetry; exact Ew |].
      assert (Hn : match_at PHONE_RE (rev a1 ++ []) (x :: l) = None).
      { unfold re_search in Hpre. eapply search_from_none; [exact Hpre | exact E1]. }
      rewrite El in Hn.
      assert (Hc : match_at PHONE_RE (rev a1 ++ []) (w ++ l2) <> None).
      { eapply match_at_complete.
        apply (matches_context M (eq_refl : assertion_free PHONE_RE = true) w l2). exact Rw. }
      contradiction.
  - (* the position is in the label *)
    destruct a2 as [|c a2]; [contradiction|].
    assert (Hin : In c mobile_label).
    { rewrite E2. apply in_or_app. right. left. reflexivity. }
    destruct w as [|c' w]; [discriminate Fw|].
    simpl in Ew. inversion Ew; subst c'. simpl in Fw.
    unfold mobile_label in Hin. simpl in Hin.
    repeat (destruct Hin as [Hin | Hin]; [subst c; vm_compute in Fw; discriminate|]).
    contradiction.
Qed.

Lemma phone_search_labelled : forall pre post,
  re_search PHONE_RE pre = None -> starts_with_digit post = false ->
  re_search PHONE_RE (pre ++ mobile_label ++ ten_digits ++ post)
  = Some (RMatch (length pre + 8) (length pre + 8 + 10) ten_digits []).
Proof.
  intros pre post Hpre Hpost. unfold re_search.
  rewrite app_assoc, search_from_skip.
  - apply search_from_here. rewrite (phone_at_number _ post Hpost).
    rewrite app_nil_r, length_rev, length_app. reflexivity.
  - intros a1 a2 E Hne. eapply phone_before_label; eassumption.
Qed.

(** Inversion of readings. *)
Lemma matches_seq_inv : forall a b s1 s3,
  matches (Seq a b) s1 s3 -> exists s2, matches a s1 s2 /\ matches b s2 s3.
Proof. intros a b s1 s3 M. inversion M; subst. eauto. Qed.

Lemma matches_alt_inv : forall a b s1 s2,
  matches (Alt a b) s1 s2 -> matches a s1 s2 \/ matches b s1 s2.
Proof. intros a b s1 s2 M. inversion M; subst; auto. Qed.

Lemma matches_eps_inv : forall s1 s2, matches Eps s1 s2 -> s2 = s1.
Proof. intros s1 s2 M. inversion M; subst; auto. Qed.

Lemma matches_cls_inv : forall p s1 s2,
  matches (Cls p) s1 s2 ->
  exists c, p c = true /\ rest s1 = c :: rest s2 /\ seen s2 = c :: seen s1 /\ caps s2 = caps s1.
Proof. intros p s1 s2 M. inversion M; subst. exists c. simpl. auto. Qed.

Lemma matches_rep_inv : forall g p lo hi s1 s2,
  matches (Rep g p lo hi) s1 s2 ->
  exists w, Forall (fun c => p c = true) w /\ lo <= length w /\ within hi (length w) /\
            rest s1 = w ++ rest s2 /\ seen s2 = rev w ++ seen s1 /\ caps s2 = caps s1.
Proof. intros g p lo hi s1 s2 M. inversion M; subst. exists w. simpl. auto 7. Qed.

(** [re.sub] of one class by the empty string removes the characters of the class. *)
Lemma match_at_cls : forall p sn rs,
  match_at (Cls p) sn rs =
  match rs with
  | c :: t => if p c then Some (RMatch (length sn) (S (length sn)) [c] []) else None
  | [] => None
  end.
Proof.
  intros p sn rs. unfold match_at. simpl. destruct rs as [|c t]; [reflexivity|].
  destruct (p c); [|reflexivity].
  change (c :: sn) with (rev [c] ++ sn). rewrite captured_app. reflexivity.
Qed.

Lemma sub_class_empty : forall p fuel rs sn,
  length rs < fuel ->
  sub_from fuel (Cls p) [] sn rs = filter (fun c => negb (p c)) rs.
Proof.
  induction fuel as [|f IH]; intros rs sn Hf; [lia|].
  cbn [sub_from]. rewrite match_at_cls. destruct rs as [|c t]; [reflexivity|].
  simpl in Hf. cbn [filter]. destruct (p c); cbn [negb m_end].
  - replace (S (length sn) - length sn) with 1 by lia.
    cbn [firstn skipn rev app]. apply IH. lia.
  - f_equal. apply IH. lia.
Qed.

Lemma re_sub_class_empty : forall p s,
  re_sub (Cls p) [] s = filter (fun c => negb (p c)) s.
Proof. intros p s. unfold re_sub. apply sub_class_empty. lia. Qed.

Lemma no_plus_in : forall r c,
  alphabet r 43%N = false -> alphabet r c = true -> char_eqb c 43 = false.
Proof.
  intros r c H43 Hc. unfold char_eqb. destruct (N.eqb_spec c 43); [subst; congruence | reflexivity].
Qed.

(** What the primary pattern reads: an optional [+], then characters other
    than [+]. *)
Lemma phone_shape : forall st st',
  matches PHONE_RE st st' ->
  exists sign body, rest st = sign ++ body ++ rest st' /\
    (sign = [] \/ sign = [43%N]) /\ Forall (fun c => char_eqb c 43 = false) body.
Proof.
  intros st st' M. unfold PHONE_RE, seqs, opt, chr in M.
  apply matches_seq_inv in M. destruct M as [s2 [M1 M2]].
  destruct (matches_word M2) as [w2 [R2 [_ [_ A2]]]].
  assert (B2 : Forall (fun c => char_eqb c 43 = false) w2).
  { eapply Forall_impl; [|exact A2]. intros c Hc. eapply no_plus_in; [|exact Hc]. reflexivity. }
  apply matches_alt_inv in M1. destruct M1 as [M1 | M1].
  - apply matches_seq_inv in M1. destruct M1 as [s1 [Ms M1]].
    destruct (matches_word M1) as [w1 [R1 [_ [_ A1]]]].
    assert (B1 : Forall (fun c => char_eqb c 43 = false) w1).
    { eapply Forall_impl; [|exact A1]. intros c Hc. eapply no_plus_in; [|exact Hc]. reflexivity. }
    apply matches_alt_inv in Ms. destruct Ms as [Ms | Ms].
    + apply matches_cls_inv in Ms. destruct Ms as [c [Pc [Rc _]]].
      apply N.eqb_eq in Pc. subst c.
      exists [43%N], (w1 ++ w2). rewrite Rc, R1, R2, <- app_assoc.
      split; [reflexivity|]. split; [right; reflexivity | apply Forall_app; split; assumption].
    + apply matches_eps_inv in Ms. subst s1.
      exists [], (w1 ++ w2). rewrite R1, R2, <- app_assoc.
      split; [reflexivity|]. split; [left; reflexivity | apply Forall_app; split; assumption].
  - apply matches_eps_inv in M1. subst s2.
    exists [], w2. split; [exact R2|]. split; [left; reflexivity | exact B2].
Qed.

Lemma Forall_cut : forall (A : Type) (P : A -> Prop) n (l : list A),
  Forall P l -> Forall P (firstn n l) /\ Forall P (skipn n l).
Proof.
  intros A P n l H. rewrite <- (firstn_skipn n l) in H. apply Forall_app in H. exact H.
Qed.

(** Seven digits in a row are read by the primary pattern. *)
Lemma phone_reads_seven : forall sn d3 d4 rs,
  Forall (fun c => is_digit c = true) d3 -> length d3 = 3 ->
  Forall (fun c => is_digit c = true) d4 -> length d4 = 4 ->
  matches PHONE_RE (MState sn (d3 ++ d4 ++ rs) []) (MState (rev d4 ++ rev d3 ++ sn) rs []).
Proof.
  intros sn d3 d4 rs F3 L3 F4 L4. unfold PHONE_RE, seqs, opt, times.
  eapply M_seq; [apply M_alt_r; apply M_eps|].
  eapply M_seq; [apply M_alt_r; apply M_eps|].
  eapply M_seq; [apply M_rep; [exact F3 | lia | simpl; lia]|].
  eapply M_seq.
  - apply (@M_rep true space_or_dash 0 (Some 1) [] (rev d3 ++ sn) (d4 ++ rs) []);
      [constructor | simpl; lia | simpl; lia].
  - apply M_rep; [exact F4 | lia | simpl; lia].
Qed.

(** The fallback of [extract_phone_number] never fires: ten digits after a
    Mobile label are already found by the primary pattern. *)
Lemma mobile_never_fires : forall text,
  re_search PHONE_RE text = None -> re_search MOBILE_RE text = None.
Proof.
  intros text Hp. destruct (re_search MOBILE_RE text) as [m|] eqn:Em; [exfalso | reflexivity].
  unfold re_search in Em. apply search_from_sound in Em.
  destruct Em as [a [w [b [cs [Et [M _]]]]]].
  unfold MOBILE_RE, seqs, times in M.
  apply matches_seq_inv in M. destruct M as [s1 [M1 M]].
  apply matches_seq_inv in M. destruct M as [s2 [M2 M3]].
  destruct (matches_reads M1) as [w1 [R1 S1]]. destruct (matches_reads M2) as [w2 [R2 S2]].
  inversion M3 as [| | | | | |g' a' s1' s3 Mg| | | | |]; subst.
  apply matches_rep_inv in Mg. destruct Mg as [d [Fd [Ld [_ [Rd [Sd _]]]]]].
  simpl in R1.
  assert (Ed : d = firstn 3 d ++ (firstn 4 (skipn 3 d)) ++ skipn 4 (skipn 3 d)).
  { rewrite (firstn_skipn 4 (skipn 3 d)), (firstn_skipn 3 d). reflexivity. }
  assert (Ew : a ++ w ++ rest s3 = (a ++ w1 ++ w2) ++ firstn 3 d ++ firstn 4 (skipn 3 d)
                               ++ (skipn 4 (skipn 3 d) ++ rest s3)).
  { rewrite R1, R2, Rd. rewrite Ed at 1. rewrite <- !app_assoc. reflexivity. }
  assert (Hc : search_from PHONE_RE [] (a ++ w ++ rest s3) <> None).
  { rewrite Ew. apply search_from_complete. eapply match_at_complete.
    apply phone_reads_seven.
    - apply (Forall_cut 3 Fd).
    - rewrite firstn_length_le; lia.
    - apply (Forall_cut 4 (proj2 (Forall_cut 3 Fd))).
    - rewrite firstn_length_le; [reflexivity | rewrite length_skipn; lia]. }
  apply Hc. exact Hp.
Qed.

Lemma filter_digits_plus : forall body,
  Forall (fun c => char_eqb c 43 = false) body ->
  filter (fun c => negb (not_digit_or_plus c)) body = filter is_digit body.
Proof.
  induction 1 as [|c body Hc Hb IH]; [reflexivity|].
  simpl. unfold not_digit_or_plus at 1. rewrite Hc, orb_false_r, negb_involutive, IH.
  reflexivity.
Qed.

(** C8. An ASCII text that contains "Mobile: 9876543210", in which the
    primary pattern finds nothing before the label and the number is not
    continued by a further digit, yields exactly 9876543210.  In general,
    for an ASCII text, the result is empty when the primary pattern finds
    nothing (the Mobile fallback never adds a result), and otherwise it is
    the text of the match with a leading + kept and every character that is
    not a digit removed. *)
Theorem extract_phone_number_labelled :
  (forall pre post,
     is_ascii (pre ++ post) ->
     re_search PHONE_RE pre = None -> starts_with_digit post = false ->
     extract_phone_number (pre ++ u "Mobile: 9876543210" ++ post) = u "9876543210") /\
  (forall text,
     is_ascii text ->
     match re_search PHONE_RE text with
     | None => extract_phone_number text = []
     | Some m =>
         exists sign body,
           m_text m = sign ++ body /\ (sign = [] \/ sign = [43%N]) /\
           Forall (fun c => char_eqb c 43 = false) body /\
           extract_phone_number text = sign ++ filter is_digit body
     end).
Proof.
  split.
  - intros pre post _ Hpre Hpost. unfold extract_phone_number.
    change (u "Mobile: 9876543210" ++ post) with (mobile_label ++ ten_digits ++ post).
    rewrite (phone_search_labelled pre post Hpre Hpost). vm_compute. reflexivity.
  - intros text _. unfold extract_phone_number.
    destruct (re_search PHONE_RE text) as [m|] eqn:Em.
    + unfold re_search in Em. apply search_from_sound in Em.
      destruct Em as [a [w [b [cs [Et [M [-> _]]]]]]].
      apply phone_shape in M. destruct M as [sign [body [R [Hs Hb]]]]. simpl in R.
      rewrite app_assoc in R. apply app_inv_tail in R.
      exists sign, body. simpl m_text. split; [exact R|]. split; [exact Hs|]. split; [exact Hb|].
      rewrite re_sub_class_empty, R, filter_app, (filter_digits_plus Hb).
      destruct Hs as [-> | ->]; reflexivity.
    + rewrite (mobile_never_fires text Em). reflexivity.
Qed.

Lemma extract_phone_number_labelled_witness :
  extract_phone_number (u "Contact me. Mobile: 9876543210 (home)") = u "9876543210".
Proof.
  change (u "Contact me. Mobile: 9876543210 (home)")
    with (u "Contact me. " ++ u "Mobile: 9876543210" ++ u " (home)").
  apply (proj1 extract_phone_number_labelled);
    [apply is_ascii_check | |]; vm_compute; reflexivity.
Defined.

(** ** Sections *)

Lemma lines_from_line : forall l cur q,
  no_newline l -> lines_from cur (l ++ q) = lines_from (rev l ++ cur) q.
Proof.
  induction l as [|c l IH]; intros cur q H; [reflexivity|].
  inversion H; subst. simpl. rewrite H2, IH by assumption.
  rewrite <- app_assoc. reflexivity.
Qed.

Lemma lines_from_later : forall p cur s x,
  In x (lines_from [] s) -> In x (lines_from cur (p ++ 10%N :: s)).
Proof.
  induction p as [|c p IH]; intros cur s x H; simpl.
  - right. exact H.
  - destruct (N.eqb c 10); [right|]; apply IH; exact H.
Qed.

(** A piece without line feed that starts at a line start and ends at a line
    end is a line of the text. *)
Lemma line_in_text : forall p l q,
  no_newline l ->
  (p = [] \/ exists p', p = p' ++ [10%N]) ->
  (q = [] \/ exists q', q = 10%N :: q') ->
  In l (text_lines (p ++ l ++ q)).
Proof.
  intros p l q Hl Hp Hq.
  assert (H0 : In l (lines_from [] (l ++ q))).
  { rewrite lines_from_line by exact Hl. rewrite app_nil_r.
    destruct Hq as [-> | [q' ->]]; simpl; left; apply rev_involutive. }
  unfold text_lines. destruct Hp as [-> | [p' ->]]; [exact H0|].
  rewrite <- app_assoc. simpl. apply lines_from_later. exact H0.
Qed.

Lemma split_last_line : forall w : str,
  exists wa wb, w = wa ++ wb /\ no_newline wb /\ (wa = [] \/ exists wa', wa = wa' ++ [10%N]).
Proof.
  induction w as [|x w IH] using rev_ind.
  - exists [], []. repeat split; [constructor | left; reflexivity].
  - destruct (N.eqb_spec x 10) as [-> | Hx].
    + exists (w ++ [10%N]), []. rewrite app_nil_r.
      repeat split; [constructor | right; exists w; reflexivity].
    + destruct IH as [wa [wb [-> [Hb Ha]]]].
      exists wa, (wb ++ [x]). rewrite app_assoc. repeat split; [|exact Ha].
      apply Forall_app. split; [exact Hb|]. constructor; [|constructor].
      apply N.eqb_neq. exact Hx.
Qed.

Lemma split_first_line : forall t : str,
  exists ta tb, t = ta ++ tb /\ no_newline ta /\ (tb = [] \/ exists tb', tb = 10%N :: tb').
Proof.
  induction t as [|x t IH].
  - exists [], []. repeat split; [constructor | left; reflexivity].
  - destruct (N.eqb_spec x 10) as [-> | Hx].
    + exists [], (10%N :: t). repeat split; [constructor | right; exists t; reflexivity].
    + destruct IH as [ta [tb [-> [Ha Hb]]]].
      exists (x :: ta), tb. repeat split; [|exact Hb].
      constructor; [apply N.eqb_neq; exact Hx | exact Ha].
Qed.

Lemma all_space_app : forall a b, all_space (a ++ b) -> all_space a /\ all_space b.
Proof. intros a b H. apply Forall_app in H. exact H. Qed.

(** A prefix of a heading trailer is a heading trailer. *)
Lemma heading_trailer_prefix : forall ta tb, heading_trailer (ta ++ tb) -> heading_trailer ta.
Proof.
  intros ta tb [w2 [colon [w3 [E [H2 [H3 Hc]]]]]].
  symmetry in E. apply app_eq_app in E. destruct E as [l [[E1 E2] | [E1 E2]]].
  - (* ta lies within w2 *)
    subst w2. apply all_space_app in H2. destruct H2 as [H2 _].
    exists ta, [], []. rewrite app_nil_r. repeat split; auto; constructor.
  - (* ta = w2 ++ l *)
    subst ta. apply app_eq_app in E2. destruct E2 as [l2 [[E3 E4] | [E3 E4]]].
    + (* l lies within colon *)
      destruct Hc as [-> | ->].
      * destruct l; [|discriminate]. exists w2, [], []. repeat split; auto; constructor.
      * destruct l as [|x l].
        -- exists w2, [], []. repeat split; auto; constructor.
        -- inversion E3. destruct l; [|discriminate]. subst.
           exists w2, [58%N], []. repeat split; auto; constructor.
    + (* l = colon ++ l2, l2 within w3 *)
      subst l w3. apply all_space_app in H3. destruct H3 as [H3 _].
      exists w2, colon, l2. repeat split; auto.
Qed.

Lemma matches_alts : forall rs s s',
  matches (alts rs) s s' -> exists r, In r rs /\ matches r s s'.
Proof.
  induction rs as [|r rs IH]; intros s s' M; simpl in M.
  - apply matches_cls_inv in M. destruct M as [c [Hc _]]. discriminate.
  - destruct rs as [|r' rs].
    + exists r. split; [left; reflexivity | exact M].
    + apply matches_alt_inv in M. destruct M as [M | M].
      * exists r. split; [left; reflexivity | exact M].
      * destruct (IH _ _ M) as [r0 [Hin M0]]. exists r0. split; [right; exact Hin | exact M0].
Qed.

Lemma matches_lit_i : forall syn s s',
  matches (lit_i syn) s s' ->
  exists h, rest s = h ++ rest s' /\ seen s' = rev h ++ seen s /\ same_fold h syn.
Proof.
  induction syn as [|c syn IH]; intros s s' M; simpl in M.
  - apply matches_eps_inv in M. subst. exists []. repeat split.
  - apply matches_seq_inv in M. destruct M as [s1 [M1 M2]].
    apply matches_cls_inv in M1. destruct M1 as [x [Hx [R1 [S1 _]]]].
    apply N.eqb_eq in Hx.
    destruct (IH _ _ M2) as [h [R2 [S2 F2]]].
    exists (x :: h). rewrite R1, R2, S2, S1. simpl. rewrite <- app_assoc.
    repeat split. unfold same_fold in *. simpl. rewrite Hx, F2. reflexivity.
Qed.

Lemma at_bol_start : forall a cs rs,
  at_bol (MState (rev a ++ []) rs cs) = true -> a = [] \/ exists a', a = a' ++ [10%N].
Proof.
  intros a cs rs H. unfold at_bol in H. simpl in H. rewrite app_nil_r in H.
  destruct a as [|x a] using rev_ind; [left; reflexivity|].
  right. rewrite rev_app_distr in H. simpl in H. apply N.eqb_eq in H. subst. exists a. reflexivity.
Qed.

Lemma at_eol_end : forall sn b cs,
  at_eol (MState sn b cs) = true -> b = [] \/ exists b', b = 10%N :: b'.
Proof.
  intros sn [|c b] cs H; [left; reflexivity|].
  unfold at_eol in H. simpl in H. apply N.eqb_eq in H. subst. right. exists b. reflexivity.
Qed.

Lemma heading_words_known : forall syn, In syn HEADING_WORDS -> known_synonym syn.
Proof.
  intros syn H. unfold known_synonym. apply mem_In. apply mem_In in H.
  assert (Hall : forallb (fun h => mem h (concat (map snd SECTION_SYNONYMS))) HEADING_WORDS = true)
    by (vm_compute; reflexivity).
  rewrite forallb_forall in Hall. apply Hall. apply mem_In. exact H.
Qed.

Lemma heading_no_newline : forall syn h,
  In syn HEADING_WORDS -> same_fold h syn -> no_newline h.
Proof.
  intros syn h Hin Hf.
  assert (Hall : forallb (fun s => forallb (fun c => negb (N.eqb c 10)) (map fold_c s)) HEADING_WORDS = true)
    by (vm_compute; reflexivity).
  rewrite forallb_forall in Hall. specialize (Hall syn Hin).
  rewrite <- Hf in Hall. rewrite forallb_forall in Hall.
  apply Forall_forall. intros c Hc.
  specialize (Hall (fold_c c) (in_map fold_c h c Hc)).
  destruct (N.eqb_spec c 10) as [-> | _]; [|reflexivity].
  vm_compute in Hall. discriminate.
Qed.

Lemma matches_grp_inv : forall g a s1 s3,
  matches (Grp g a) s1 s3 ->
  exists s2, matches a s1 s2 /\ rest s3 = rest s2 /\ seen s3 = seen s2.
Proof. intros g a s1 s3 M. inversion M; subst. eexists. split; [eassumption | split; reflexivity]. Qed.

Lemma matches_bol_inv : forall s1 s2, matches Bol s1 s2 -> s2 = s1 /\ at_bol s1 = true.
Proof. intros s1 s2 M. inversion M; subst. auto. Qed.

Lemma matches_eol_inv : forall s1 s2, matches Eol s1 s2 -> s2 = s1 /\ at_eol s1 = true.
Proof. intros s1 s2 M. inversion M; subst. auto. Qed.

(** A reading of the heading pattern lies on a heading line of the text. *)
Lemma heading_match_line : forall a w b cs,
  matches HEADING_PATTERN (MState (rev a ++ []) (w ++ b) []) (MState (rev w ++ rev a ++ []) b cs) ->
  exists l, In l (text_lines (a ++ w ++ b)) /\ heading_line l.
Proof.
  intros a w b cs M. unfold HEADING_PATTERN, seqs, opt, star, chr in M.
  remember (alts (map lit_i HEADING_WORDS)) as R eqn:ER.
  apply matches_seq_inv in M. destruct M as [s1 [M1 M]].
  apply matches_bol_inv in M1. destruct M1 as [-> Hbol].
  apply matches_seq_inv in M. destruct M as [s2 [M2 M]].
  apply matches_rep_inv in M2. destruct M2 as [w1 [F1 [_ [_ [R1 [S1 _]]]]]].
  apply matches_seq_inv in M. destruct M as [s3 [M3 M]].
  apply matches_grp_inv in M3. destruct M3 as [s3' [Mg [Rg Sg]]].
  rewrite ER in Mg. apply matches_alts in Mg. destruct Mg as [r [Hr Mg]].
  apply in_map_iff in Hr. destruct Hr as [syn [<- Hsyn]].
  apply matches_lit_i in Mg. destruct Mg as [h [Rh [Sh Fh]]].
  apply matches_seq_inv in M. destruct M as [s4 [M4 M]].
  apply matches_rep_inv in M4. destruct M4 as [w2 [F2 [_ [_ [R2 [S2 _]]]]]].
  apply matches_seq_inv in M. destruct M as [s5 [M5 M]].
  apply matches_seq_inv in M. destruct M as [s6 [M6 M7]].
  apply matches_rep_inv in M6. destruct M6 as [w3 [F3 [_ [_ [R3 [S3 _]]]]]].
  apply matches_eol_inv in M7. destruct M7 as [E6 Heol].
  assert (Hcol : exists colon, rest s4 = colon ++ rest s5 /\ (colon = [] \/ colon = [58%N])).
  { apply matches_alt_inv in M5. destruct M5 as [M5 | M5].
    - apply matches_cls_inv in M5. destruct M5 as [c [Hc [Rc _]]].
      apply N.eqb_eq in Hc. subst c. exists [58%N]. split; [exact Rc | right; reflexivity].
    - apply matches_eps_inv in M5. subst s5. exists []. split; [reflexivity | left; reflexivity]. }
  destruct Hcol as [colon [Rc Hc]]. subst s6. cbn [rest seen] in *.
  assert (Ew : w ++ b = w1 ++ h ++ (w2 ++ colon ++ w3) ++ b).
  { rewrite R1, Rh, <- Rg, R2, Rc, R3, <- !app_assoc. reflexivity. }
  destruct (split_last_line w1) as [wa [wb [E1 [Nb Ha]]]].
  destruct (split_first_line (w2 ++ colon ++ w3)) as [ta [tb [Et [Na Hb]]]].
  assert (Htr : heading_trailer ta).
  { apply heading_trailer_prefix with (tb := tb). rewrite <- Et.
    exists w2, colon, w3. repeat split; auto. }
  assert (Hsp : all_space wb).
  { unfold all_space. rewrite E1 in F1. apply Forall_app in F1. apply F1. }
  exists (wb ++ h ++ ta). split.
  - replace (a ++ w ++ b) with ((a ++ wa) ++ (wb ++ h ++ ta) ++ (tb ++ b)).
    + apply line_in_text.
      * apply Forall_app. split; [exact Nb|]. apply Forall_app. split; [|exact Na].
        eapply heading_no_newline; eassumption.
      * destruct Ha as [-> | [wa' ->]].
        -- rewrite app_nil_r. eapply at_bol_start. exact Hbol.
        -- right. exists (a ++ wa'). rewrite app_assoc. reflexivity.
      * destruct Hb as [-> | [tb' ->]].
        -- simpl. eapply at_eol_end. exact Heol.
        -- right. exists (tb' ++ b). reflexivity.
    + rewrite Ew, E1, Et, <- !app_assoc. reflexivity.
  - exists wb, h, ta, syn. repeat split; auto.
    apply heading_words_known. exact Hsyn.
Qed.

Lemma known_heading_word : forall syn, known_synonym syn -> In syn HEADING_WORDS.
Proof.
  intros syn H. unfold known_synonym in H.
  assert (Hall : forallb (fun h => mem h HEADING_WORDS) (concat (map snd SECTION_SYNONYMS)) = true)
    by (vm_compute; reflexivity).
  rewrite forallb_forall in Hall. apply mem_In. apply Hall. exact H.
Qed.

Lemma alts_complete : forall rs r s s',
  In r rs -> matches r s s' -> matches (alts rs) s s'.
Proof.
  induction rs as [|r0 rs IH]; intros r s s' Hin M; [contradiction|].
  simpl. destruct rs as [|r1 rs].
  - destruct Hin as [-> | []]. exact M.
  - destruct Hin as [-> | Hin]; [apply M_alt_l; exact M | apply M_alt_r; eapply IH; eassumption].
Qed.

Lemma lit_i_complete : forall syn h sn rs cs,
  same_fold h syn -> matches (lit_i syn) (MState sn (h ++ rs) cs) (MState (rev h ++ sn) rs cs).
Proof.
  induction syn as [|c syn IH]; intros h sn rs cs Hf; unfold same_fold in Hf.
  - destruct h; [|discriminate]. constructor.
  - destruct h as [|x h]; [discriminate|]. simpl in Hf. inversion Hf as [[Hx Hh]].
    simpl. rewrite <- app_assoc. simpl. eapply M_seq.
    + apply M_cls. rewrite Hx. apply N.eqb_refl.
    + apply IH. exact Hh.
Qed.

(** The heading pattern reads every heading line. *)
Lemma heading_line_found : forall l, heading_line l -> re_search HEADING_PATTERN l <> None.
Proof.
  intros l [w1 [h [t [syn [-> [H1 [[w2 [colon [w3 [-> [H2 [H3 Hc]]]]]] [Hk Hf]]]]]]]].
  assert (Hg : forall sn rs cs,
            matches (Grp g_head (alts (map lit_i HEADING_WORDS))) (MState sn (h ++ rs) cs)
              (MState (rev h ++ sn) rs ((g_head, h) :: cs))).
  { intros sn rs cs.
    assert (M : matches (alts (map lit_i HEADING_WORDS)) (MState sn (h ++ rs) cs)
                  (MState (rev h ++ sn) rs cs)).
    { eapply alts_complete.
      - apply in_map. apply known_heading_word. exact Hk.
      - apply lit_i_complete. exact Hf. }
    apply (M_grp g_head) in M. cbn [seen rest caps] in M.
    rewrite captured_app in M. exact M. }
  assert (Hs : forall w sn rs cs, all_space w ->
            matches (Rep true isspace 0 None) (MState sn (w ++ rs) cs) (MState (rev w ++ sn) rs cs)).
  { intros w sn rs cs Hw. apply M_rep; [exact Hw | lia | exact I]. }
  unfold re_search. apply (search_from_complete HEADING_PATTERN [] _ []).
  rewrite <- (app_nil_r w3). cbn [rev app].
  destruct Hc as [-> | ->]; cbn [app];
    eapply match_at_complete; unfold HEADING_PATTERN, seqs, opt, star, chr;
    (eapply M_seq; [apply M_bol; reflexivity|]);
    (eapply M_seq; [apply Hs; exact H1|]);
    (eapply M_seq; [apply Hg|]);
    (eapply M_seq; [apply Hs; exact H2|]).
  - eapply M_seq; [apply M_alt_r; apply M_eps|].
    eapply M_seq; [apply Hs; exact H3 | apply M_eol; reflexivity].
  - eapply M_seq; [apply M_alt_l; apply M_cls; reflexivity|].
    eapply M_seq; [apply Hs; exact H3 | apply M_eol; reflexivity].
Qed.

Lemma not_heading_line : forall l, re_search HEADING_PATTERN l = None -> ~ heading_line l.
Proof. intros l H Hl. apply (@heading_line_found l Hl). exact H. Qed.

(** C4 as stated fails on the empty text: it has no heading line, and the
    function returns no section at all (the guard [if not text]). *)
Lemma split_resume_sections_empty_text :
  (forall l, In l (text_lines []) -> ~ heading_line l) /\
  split_resume_sections [] = [] /\
  split_resume_sections [] <> [(u "summary", strip [])].
Proof.
  split; [|split; [reflexivity | discriminate]].
  intros l Hl. apply not_heading_line. simpl in Hl. destruct Hl as [<- | []].
  vm_compute. reflexivity.
Qed.

(** C4, amended. For every non-empty text in which no line consists solely
    of a known heading synonym (letter case aside, as [re.IGNORECASE]
    compares it, with an optional trailing colon and optional surrounding
    whitespace), which includes texts where heading phrases stand only
    inside sentences, [split_resume_sections] returns exactly one section:
    the key summary with the whole text stripped. *)
Theorem split_resume_sections_no_heading :
  forall text : str,
    text <> [] ->
    (forall l, In l (text_lines text) -> ~ heading_line l) ->
    split_resume_sections text = [(u "summary", strip text)].
Proof.
  intros text Hne Hno. unfold split_resume_sections.
  destruct text as [|c text]; [contradiction|]. cbn [truthy negb].
  unfold finditer. cbn [finditer_from].
  destruct (search_from HEADING_PATTERN [] (c :: text)) as [m|] eqn:Es; [exfalso | reflexivity].
  apply search_from_sound in Es. destruct Es as [a [w [b [cs [Et [M _]]]]]].
  destruct (@heading_match_line a w b cs M) as [l [Hin Hl]].
  rewrite <- Et in Hin. exact (Hno l Hin Hl).
Qed.

Lemma split_resume_sections_no_heading_witness :
  split_resume_sections (u "Jane Doe" ++ [10%N] ++ u "I have work experience in Python")
  = [(u "summary", strip (u "Jane Doe" ++ [10%N] ++ u "I have work experience in Python"))].
Proof.
  apply split_resume_sections_no_heading.
  - discriminate.
  - intros l Hl. apply not_heading_line.
    vm_compute in Hl. destruct Hl as [<- | [<- | []]]; vm_compute; reflexivity.
Defined.

(** ** The name heuristic *)

Lemma first_label_none : forall lines,
  Forall (fun l => label_value l = None) lines -> first_label lines = None.
Proof.
  induction 1 as [|l lines Hl _ IH]; [reflexivity|].
  simpl. unfold label_value in Hl.
  destruct (re_search NAME_LABEL_RE (strip l)); [discriminate | exact IH].
Qed.

Lemma first_label_found : forall pre line post v,
  Forall (fun l => label_value l = None) pre -> label_value line = Some v ->
  first_label (pre ++ line :: post) = Some v.
Proof.
  induction pre as [|l pre IH]; intros line post v Hpre Hv; simpl.
  - unfold label_value in Hv. destruct (re_search NAME_LABEL_RE (strip line)); [exact Hv | discriminate].
  - inversion Hpre as [|? ? Hl Hpre']; subst. unfold label_value in Hl.
    destruct (re_search NAME_LABEL_RE (strip l)); [discriminate|]. apply IH; assumption.
Qed.

Lemma first_two_step : forall l lines,
  first_two_capitalized (l :: lines) =
  match capitalized_pair l with
  | Some (w0, w1) => w0 ++ u " " ++ w1
  | None => first_two_capitalized lines
  end.
Proof.
  intros l lines. simpl. unfold capitalized_pair.
  destruct (findall WORD_RE l) as [|w0 [|w1 ws]]; try reflexivity.
  destruct (starts_upper w0 && starts_upper w1); simpl; [|reflexivity].
  destruct (len_ok w0 && len_ok w1); reflexivity.
Qed.

Lemma first_two_none : forall lines,
  Forall (fun l => capitalized_pair l = None) lines -> first_two_capitalized lines = [].
Proof.
  induction 1 as [|l lines Hl _ IH]; [reflexivity|].
  rewrite first_two_step, Hl. exact IH.
Qed.

Lemma first_two_found : forall pre line post w0 w1,
  Forall (fun l => capitalized_pair l = None) pre -> capitalized_pair line = Some (w0, w1) ->
  first_two_capitalized (pre ++ line :: post) = w0 ++ u " " ++ w1.
Proof.
  induction pre as [|l pre IH]; intros line post w0 w1 Hpre Hp.
  - simpl app. rewrite first_two_step, Hp. reflexivity.
  - inversion Hpre as [|? ? Hl Hpre']; subst.
    change ((l :: pre) ++ line :: post) with (l :: (pre ++ line :: post)).
    rewrite first_two_step, Hl. apply IH; assumption.
Qed.

(** The three cases of [extract_name_fallback], on the values computed by
    the label pattern and the word pattern. *)
Lemma extract_name_fallback_by_value :
  forall text : str,
    (forall pre line post v,
       firstn 10 (splitlines text) = pre ++ line :: post ->
       Forall (fun l => label_value l = None) pre ->
       label_value line = Some v ->
       extract_name_fallback text = v) /\
    (Forall (fun l => label_value l = None) (firstn 10 (splitlines text)) ->
       (forall pre line post w0 w1,
          firstn 10 (splitlines text) = pre ++ line :: post ->
          Forall (fun l => capitalized_pair l = None) pre ->
          capitalized_pair line = Some (w0, w1) ->
          extract_name_fallback text = w0 ++ u " " ++ w1) /\
       (Forall (fun l => capitalized_pair l = None) (firstn 10 (splitlines text)) ->
          extract_name_fallback text = [])).
Proof.
  intro text. unfold extract_name_fallback. split.
  - intros pre line post v E Hpre Hv. rewrite E.
    rewrite (@first_label_found pre line post v Hpre Hv). reflexivity.
  - intro Hno. rewrite (@first_label_none _ Hno). split.
    + intros pre line post w0 w1 E Hpre Hp. rewrite E.
      apply first_two_found; assumption.
    + intro Hnone. apply first_two_none. exact Hnone.
Qed.

(** ** Words found by [[A-Za-z]+] *)

Lemma take_drop_while : forall p s, take_while p s ++ drop_while p s = s.
Proof.
  induction s as [|c t IH]; [reflexivity|]. simpl.
  destruct (p c); simpl; [rewrite IH|]; reflexivity.
Qed.

Lemma length_drop_while : forall p s, length (drop_while p s) <= length s.
Proof.
  induction s as [|c t IH]; simpl; [lia|]. destruct (p c); simpl; lia.
Qed.

(** A greedy class repetition without upper bound, at the end of a pattern,
    reads the longest run of the class. *)
Lemma rep_greedy_longest : forall p cs rs lo sn,
  rep_greedy p cs (fun st => Some st) lo None sn rs =
  if lo <=? length (take_while p rs)
  then Some (MState (rev (take_while p rs) ++ sn) (drop_while p rs) cs)
  else None.
Proof.
  induction rs as [|c t IH]; intros lo sn.
  - simpl. destruct lo; reflexivity.
  - cbn [rep_greedy take_while drop_while]. destruct (p c) eqn:Pc; cbn [andb more dec].
    + rewrite IH. cbn [length].
      destruct lo as [|lo]; cbn [pred Nat.leb].
      * cbn [rev]. rewrite <- app_assoc. reflexivity.
      * destruct (lo <=? length (take_while p t)).
        -- cbn [rev]. rewrite <- app_assoc. reflexivity.
        -- reflexivity.
    + destruct lo; reflexivity.
Qed.

Lemma match_at_plus : forall p sn rs,
  match_at (plus p) sn rs =
  match take_while p rs with
  | [] => None
  | w => Some (RMatch (length sn) (length sn + length w) w [])
  end.
Proof.
  intros p sn rs. unfold match_at, plus. cbn [run seen rest caps].
  rewrite rep_greedy_longest.
  destruct (take_while p rs) as [|c w] eqn:E; [reflexivity|].
  cbn [length Nat.leb]. rewrite captured_app. cbn [seen caps].
  rewrite length_app, length_rev. cbn [length]. f_equal. f_equal. lia.
Qed.

Lemma words_from_run : forall p rs cur,
  cur <> [] \/ take_while p rs <> [] ->
  words_from p cur rs = (rev cur ++ take_while p rs) :: words_from p [] (drop_while p rs).
Proof.
  induction rs as [|c t IH]; intros cur H.
  - simpl. destruct H as [H | H]; [|exfalso; apply H; reflexivity].
    destruct cur; [exfalso; apply H; reflexivity|]. rewrite app_nil_r. reflexivity.
  - cbn [words_from take_while drop_while]. destruct (p c) eqn:Pc.
    + rewrite IH by (left; discriminate). cbn [rev]. rewrite <- app_assoc. reflexivity.
    + destruct H as [H | H]; [|exfalso; apply H; cbn [take_while]; rewrite Pc; reflexivity].
      destruct cur as [|x cur]; [exfalso; apply H; reflexivity|]. rewrite app_nil_r.
      cbn [words_from]. rewrite Pc. reflexivity.
Qed.

(** One step of [re.finditer] after a match that is not empty. *)
Lemma finditer_from_step : forall f r sn a w b cs,
  search_from r sn (a ++ w ++ b)
    = Some (RMatch (length sn + length a) (length sn + length a + length w) w cs) ->
  w <> [] ->
  finditer_from (S f) r sn (a ++ w ++ b)
  = RMatch (length sn + length a) (length sn + length a + length w) w cs
    :: finditer_from f r (rev (a ++ w) ++ sn) b.
Proof.
  intros f r sn a w b cs Hs Hw. cbn [finditer_from]. rewrite Hs. cbn [m_end].
  replace (length sn + length a + length w - length sn) with (length (a ++ w))
    by (rewrite length_app; lia).
  rewrite app_assoc, firstn_app, Nat.sub_diag, firstn_all, firstn_O, app_nil_r.
  rewrite skipn_app, Nat.sub_diag, skipn_all. cbn [skipn app].
  destruct (length (a ++ w)) eqn:El.
  - rewrite length_app in El. destruct w; [contradiction | simpl in El; lia].
  - reflexivity.
Qed.

Lemma findall_words_from : forall p f rs sn,
  length rs < f ->
  map m_text (finditer_from f (plus p) sn rs) = words_from p [] rs.
Proof.
  induction f as [|f IHf]; intros rs sn Hf; [lia|].
  revert sn Hf. induction rs as [|c t IHt]; intros sn Hf.
  - cbn [finditer_from search_from]. rewrite match_at_plus. reflexivity.
  - destruct (p c) eqn:Pc.
    + assert (Hm : search_from (plus p) sn ([] ++ take_while p (c :: t) ++ drop_while p (c :: t))
                   = Some (RMatch (length sn + length (@nil char))
                             (length sn + length (@nil char) + length (take_while p (c :: t)))
                             (take_while p (c :: t)) [])).
      { cbn [app]. rewrite take_drop_while. apply search_from_here. rewrite match_at_plus.
        cbn [take_while]. rewrite Pc. cbn [length]. rewrite Nat.add_0_r. reflexivity. }
      assert (Hw : take_while p (c :: t) <> []) by (cbn [take_while]; rewrite Pc; discriminate).
      rewrite <- (take_drop_while p (c :: t)) at 1.
      change (take_while p (c :: t) ++ drop_while p (c :: t))
        with ([] ++ take_while p (c :: t) ++ drop_while p (c :: t)).
      rewrite (finditer_from_step f _ _ _ _ Hm Hw). cbn [map m_text].
      rewrite IHf.
      * rewrite (@words_from_run p (c :: t) [] (or_intror Hw)). reflexivity.
      * pose proof (length_drop_while p (c :: t)). simpl in *. rewrite Pc in *. 
        pose proof (length_drop_while p t). lia.
    + cbn [words_from]. rewrite Pc. rewrite <- (IHt (c :: sn)) by (simpl in Hf; lia).
      cbn [finditer_from search_from]. rewrite match_at_plus. cbn [take_while]. rewrite Pc.
      destruct (search_from (plus p) (c :: sn) t) as [m|] eqn:Es; [|reflexivity].
      apply search_from_sound in Es. destruct Es as [a [w [b [cs [Et [M [-> _]]]]]]].
      apply matches_rep_inv in M. destruct M as [w' [_ [Lw [_ [Rw _]]]]].
      cbn [rest] in Rw. apply app_inv_tail in Rw. subst w'.
      cbn [m_end length].
      replace (S (length sn) + length a + length w - length sn) with (S (length a + length w)) by lia.
      replace (S (length sn) + length a + length w - S (length sn)) with (length a + length w) by lia.
      destruct (length a + length w) as [|n] eqn:En; [lia|].
      cbn [firstn skipn rev]. rewrite <- app_assoc. reflexivity.
Qed.

(** [re.findall] of the word pattern returns the alphabetic words. *)
Lemma findall_words : forall line, findall WORD_RE line = alpha_words line.
Proof.
  intro line. unfold findall, finditer, WORD_RE, alpha_words.
  apply findall_words_from. lia.
Qed.

(** ** Name label lines *)

Lemma captured_read : forall w sn st,
  seen st = rev w ++ sn -> captured (length sn) st = w.
Proof.
  intros w sn [s r c] E. simpl in E. subst s. apply captured_app.
Qed.

Lemma matches_grp_full : forall g a s1 s3,
  matches (Grp g a) s1 s3 ->
  exists s2, matches a s1 s2 /\ rest s3 = rest s2 /\ seen s3 = seen s2 /\
             caps s3 = (g, captured (length (seen s1)) s2) :: caps s2.
Proof.
  intros g a s1 s3 M. inversion M; subst. eexists. split; [eassumption|].
  repeat split; reflexivity.
Qed.

Lemma matches_bos_inv : forall s1 s2, matches Bos s1 s2 -> s2 = s1 /\ at_bos s1 = true.
Proof. intros s1 s2 M. inversion M; subst. auto. Qed.

Lemma matches_eos_inv : forall s1 s2, matches Eos s1 s2 -> s2 = s1 /\ at_eos s1 = true.
Proof. intros s1 s2 M. inversion M; subst. auto. Qed.

Lemma lstrip_lead : forall w g, all_space w -> lstrip (w ++ g) = lstrip g.
Proof. induction 1 as [|c w Hc _ IH]; simpl; [reflexivity | rewrite Hc; exact IH]. Qed.

Lemma strip_lead : forall w g, all_space w -> strip (w ++ g) = strip g.
Proof. intros w g H. unfold strip. rewrite lstrip_lead by exact H. reflexivity. Qed.

Lemma no_lead_space : forall w s, all_space w -> no_lead (w ++ s) -> s <> [] -> w = [].
Proof.
  intros [|c w] s H N _; [reflexivity|]. inversion H; subst. simpl in N. congruence.
Qed.

(** Whitespace followed by a character that is not whitespace splits in one way. *)
Lemma space_run_unique : forall w1 c1 r1 w2 c2 r2,
  all_space w1 -> all_space w2 -> isspace c1 = false -> isspace c2 = false ->
  w1 ++ c1 :: r1 = w2 ++ c2 :: r2 -> w1 = w2 /\ c1 = c2 /\ r1 = r2.
Proof.
  induction w1 as [|x w1 IH]; intros c1 r1 w2 c2 r2 H1 H2 N1 N2 E.
  - destruct w2 as [|y w2]; simpl in E.
    + inversion E. auto.
    + inversion E; subst. apply Forall_inv in H2. congruence.
  - destruct w2 as [|y w2]; simpl in E.
    + inversion E; subst. apply Forall_inv in H1. congruence.
    + inversion E as [[Ex Et]]. subst y.
      destruct (IH c1 r1 w2 c2 r2 (Forall_inv_tail H1) (Forall_inv_tail H2) N1 N2 Et)
        as [-> [-> ->]]. auto.
Qed.

Lemma same_fold_length : forall a b, same_fold a b -> length a = length b.
Proof.
  intros a b H. unfold same_fold in H. apply (f_equal (@length char)) in H.
  rewrite !length_map in H. exact H.
Qed.

Lemma app_same_length : forall (a b c d : str),
  a ++ b = c ++ d -> length a = length c -> a = c /\ b = d.
Proof.
  induction a as [|x a IH]; intros b c d E L; destruct c as [|y c]; try discriminate.
  - auto.
  - simpl in *. inversion E; subst. destruct (IH b c d H1) as [-> ->]; [lia | auto].
Qed.

Lemma sep_not_space : forall sep : char, (sep = 58 \/ sep = 45)%N -> isspace sep = false.
Proof. intros sep [-> | ->]; reflexivity. Qed.

(** The value of a name label does not depend on the way the line is cut. *)
Lemma name_label_unique : forall line v v', name_label line v -> name_label line v' -> v = v'.
Proof.
  intros line v v' [nm [ws1 [sep [ws2 [g [E [Fn [H1 [Hs [H2 [_ [_ ->]]]]]]]]]]]]
                   [nm' [ws1' [sep' [ws2' [g' [E' [Fn' [H1' [Hs' [H2' [_ [_ ->]]]]]]]]]]]].
  rewrite E in E'.
  destruct (@app_same_length nm _ nm' _ E') as [_ E2].
  { rewrite (@same_fold_length nm _ Fn), (@same_fold_length nm' _ Fn'). reflexivity. }
  destruct (@space_run_unique ws1 sep (ws2 ++ g) ws1' sep' (ws2' ++ g') H1 H1'
              (@sep_not_space sep Hs) (@sep_not_space sep' Hs') E2) as [_ [_ E3]].
  rewrite <- (@strip_lead ws2 g H2), <- (@strip_lead ws2' g' H2'), E3. reflexivity.
Qed.

Lemma label_value_sound : forall line v, label_value line = Some v -> name_label line v.
Proof.
  intros line v H. unfold label_value in H.
  destruct (re_search NAME_LABEL_RE (strip line)) as [m|] eqn:Em; [|discriminate].
  inversion H; subst v. clear H.
  unfold re_search in Em. apply search_from_sound in Em.
  destruct Em as [a [w [b [cs [Es [M [-> _]]]]]]]. cbn [m_caps].
  unfold NAME_LABEL_RE, seqs, star, plus in M.
  apply matches_seq_inv in M. destruct M as [s1 [M1 M]].
  apply matches_bos_inv in M1. destruct M1 as [-> Hbos].
  apply matches_seq_inv in M. destruct M as [s2 [M2 M]].
  apply matches_rep_inv in M2. destruct M2 as [w0 [F0 [_ [_ [R0 [S0 C0]]]]]].
  apply matches_seq_inv in M. destruct M as [s3 [M3 M]].
  destruct (@matches_groupless _ _ _ M3 (groupless_lit_i (u "name"))) as [nm0 [Rn0 [Sn0 C3]]].
  apply matches_lit_i in M3. destruct M3 as [nm [Rn [Sn Fn]]].
  apply matches_seq_inv in M. destruct M as [s4 [M4 M]].
  apply matches_rep_inv in M4. destruct M4 as [ws1 [F1 [_ [_ [R1 [S1 C4]]]]]].
  apply matches_seq_inv in M. destruct M as [s5 [M5 M]].
  apply matches_cls_inv in M5. destruct M5 as [sep [Hsep [R5 [S5 C5]]]].
  apply matches_seq_inv in M. destruct M as [s6 [M6 M]].
  apply matches_rep_inv in M6. destruct M6 as [ws2 [F2 [_ [_ [R6 [S6 C6]]]]]].
  apply matches_seq_inv in M. destruct M as [s7 [M7 M8]].
  apply matches_grp_full in M7. destruct M7 as [s7' [Mg [R7 [S7 C7]]]].
  apply matches_rep_inv in Mg. destruct Mg as [g [Fg [Lg [_ [Rg [Sg Cg]]]]]].
  apply matches_eos_inv in M8. destruct M8 as [E8 Heos]. subst s7.
  cbn [rest seen caps] in *.
  rewrite (@captured_read g _ s7' Sg) in C7.
  rewrite Cg, C6, C5, C4, C3, C0 in C7. rewrite C7. cbn [group Nat.eqb].
  assert (Ha : a = []).
  { unfold at_bos in Hbos. cbn [seen] in Hbos. rewrite app_nil_r in Hbos.
    destruct a as [|x a] using rev_ind; [reflexivity|].
    rewrite rev_app_distr in Hbos. discriminate. }
  subst a. cbn [app] in Es.
  assert (Ew : w ++ b = w0 ++ nm ++ ws1 ++ sep :: ws2 ++ g ++ b).
  { rewrite R0, Rn, R1, R5, R6, Rg, <- R7. reflexivity. }
  assert (Hb : b = []).
  { unfold at_eos in Heos. cbn [rest] in Heos.
    destruct b as [|x [|y b]]; [reflexivity | | discriminate].
    apply N.eqb_eq in Heos. subst x. exfalso.
    pose proof (strip_no_trail line) as Ht. rewrite Es, rev_app_distr in Ht.
    simpl in Ht. discriminate. }
  rewrite Hb, !app_nil_r in Ew. rewrite Hb, app_nil_r, Ew in Es.
  assert (H0 : w0 = []).
  { apply (@no_lead_space w0 (nm ++ ws1 ++ sep :: ws2 ++ g) F0).
    - rewrite <- Es. apply strip_no_lead.
    - destruct nm; [|discriminate]. apply same_fold_length in Fn. discriminate. }
  subst w0. cbn [app] in Es.
  exists nm, ws1, sep, ws2, g. split; [exact Es|]. split; [exact Fn|]. split; [exact F1|].
  split.
  { unfold one_of in Hsep. simpl in Hsep. unfold char_eqb in Hsep.
    destruct (N.eqb_spec sep 58); [left; assumption|].
    destruct (N.eqb_spec sep 45); [right; assumption | discriminate]. }
  split; [exact F2|]. split.
  { destruct g; [simpl in Lg; lia | discriminate]. }
  split; [|reflexivity].
  eapply Forall_impl; [|exact Fg]. intros c Hc. apply negb_true_iff in Hc. exact Hc.
Qed.

Lemma label_value_found : forall line v, name_label line v -> label_value line <> None.
Proof.
  intros line v [nm [ws1 [sep [ws2 [g [E [Fn [H1 [Hs [H2 [Hg [Ng _]]]]]]]]]]]].
  unfold label_value.
  assert (Hr : re_search NAME_LABEL_RE (strip line) <> None).
  { rewrite E. unfold re_search.
    apply (search_from_complete NAME_LABEL_RE [] _ []). cbn [rev app].
    rewrite <- (app_nil_r g).
    eapply match_at_complete. unfold NAME_LABEL_RE, seqs, star, plus.
    eapply M_seq; [apply M_bos; reflexivity|].
    eapply M_seq; [apply (@M_rep true isspace 0 None [] [] _ []); [constructor | simpl; lia | exact I]|].
    cbn [app rev].
    eapply M_seq; [apply lit_i_complete; exact Fn|].
    eapply M_seq; [apply (@M_rep true isspace 0 None ws1); [exact H1 | lia | exact I]|].
    eapply M_seq.
    { apply M_cls. destruct Hs as [-> | ->]; reflexivity. }
    eapply M_seq; [apply (@M_rep true isspace 0 None ws2); [exact H2 | lia | exact I]|].
    eapply M_seq.
    - apply M_grp. apply (@M_rep true (fun c => negb (N.eqb c 10)) 1 None g _ []).
      + eapply Forall_impl; [|exact Ng]. intros c Hc. simpl in Hc. rewrite Hc. reflexivity.
      + destruct g; [contradiction | simpl; lia].
      + exact I.
    - apply M_eos. reflexivity. }
  destruct (re_search NAME_LABEL_RE (strip line)); [discriminate | contradiction].
Qed.

Lemma label_value_complete : forall line v, name_label line v -> label_value line = Some v.
Proof.
  intros line v H. destruct (label_value line) as [v'|] eqn:E.
  - f_equal. apply label_value_sound in E. eapply name_label_unique; eassumption.
  - exfalso. eapply label_value_found; eassumption.
Qed.

Lemma label_value_none : forall line,
  (forall v, ~ name_label line v) -> label_value line = None.
Proof.
  intros line H. destruct (label_value line) as [v|] eqn:E; [|reflexivity].
  exfalso. apply (H v). apply label_value_sound. exact E.
Qed.

(** ** Capitalized words *)

Lemma len_ok_bounds : forall w, len_ok w = true <-> 3 <= length w <= 20.
Proof.
  intro w. unfold len_ok. rewrite andb_true_iff, !Nat.leb_le. tauto.
Qed.

Lemma capitalized_pair_words : forall line w0 w1,
  capitalized_pair line = Some (w0, w1) <-> capitalized_words line w0 w1.
Proof.
  intros line w0 w1. unfold capitalized_pair, capitalized_words. rewrite findall_words.
  split.
  - destruct (alpha_words line) as [|x0 [|x1 ws]]; try discriminate.
    destruct (starts_upper x0) eqn:U0; [|discriminate].
    destruct (starts_upper x1) eqn:U1; [|discriminate].
    destruct (len_ok x0) eqn:L0; [|discriminate].
    destruct (len_ok x1) eqn:L1; [|discriminate].
    simpl. intro H. inversion H; subst. exists ws.
    apply len_ok_bounds in L0. apply len_ok_bounds in L1. auto.
  - intros [ws [E [U0 [U1 [L0 L1]]]]]. rewrite E, U0, U1.
    apply len_ok_bounds in L0. apply len_ok_bounds in L1. rewrite L0, L1. reflexivity.
Qed.

Lemma capitalized_pair_none : forall line,
  (forall w0 w1, ~ capitalized_words line w0 w1) -> capitalized_pair line = None.
Proof.
  intros line H. destruct (capitalized_pair line) as [[w0 w1]|] eqn:E; [|reflexivity].
  exfalso. apply (H w0 w1). apply capitalized_pair_words. exact E.
Qed.

Lemma no_name_label : forall line, label_value line = None -> forall v, ~ name_label line v.
Proof.
  intros line H v Hv. apply label_value_complete in Hv. congruence.
Qed.

Lemma no_capitalized_words : forall line,
  capitalized_pair line = None -> forall a b, ~ capitalized_words line a b.
Proof.
  intros line H a b Hc. apply capitalized_pair_words in Hc. congruence.
Qed.

(** C9 as stated fails: the only line of the text "Dr Jane Doe" is no name
    label line and contains two qualifying words, Jane and Doe, but the
    result is the empty string and not "Jane Doe": the function looks at the
    first two alphabetic words of the line, Dr and Jane, and Dr is too
    short. *)
Lemma extract_name_fallback_first_two_only :
  splitlines (u "Dr Jane Doe") = [u "Dr Jane Doe"] /\
  (forall v, ~ name_label (u "Dr Jane Doe") v) /\
  qualifying_words (u "Dr Jane Doe") = [u "Jane"; u "Doe"] /\
  extract_name_fallback (u "Dr Jane Doe") = [] /\
  extract_name_fallback (u "Dr Jane Doe") <> u "Jane" ++ u " " ++ u "Doe".
Proof.
  split; [vm_compute; reflexivity|].
  split; [apply no_name_label; vm_compute; reflexivity|].
  split; [vm_compute; reflexivity|].
  split; [vm_compute; reflexivity|].
  vm_compute. discriminate.
Qed.

(** C9, amended. [extract_name_fallback] looks at the first 10 lines only. If
    one of them is a name label line ("Name: X", "Name - X"), the value of
    the first such line is returned. Otherwise the first of these lines
    whose first two alphabetic words both start with an upper-case letter
    and are 3 to 20 characters long gives the result: these two words joined
    by a space; a line whose first two alphabetic words do not both qualify
    is passed over, whatever words follow. Otherwise the result is the empty
    string. *)
Theorem extract_name_fallback_cases :
  forall text : str,
    (forall pre line post v,
       firstn 10 (splitlines text) = pre ++ line :: post ->
       (forall l, In l pre -> forall v', ~ name_label l v') ->
       name_label line v ->
       extract_name_fallback text = v) /\
    ((forall l, In l (firstn 10 (splitlines text)) -> forall v, ~ name_label l v) ->
       (forall pre line post w0 w1,
          firstn 10 (splitlines text) = pre ++ line :: post ->
          (forall l, In l pre -> forall a b, ~ capitalized_words l a b) ->
          capitalized_words line w0 w1 ->
          extract_name_fallback text = w0 ++ u " " ++ w1) /\
       ((forall l, In l (firstn 10 (splitlines text)) -> forall a b, ~ capitalized_words l a b) ->
          extract_name_fallback text = [])).
Proof.
  intro text. destruct (extract_name_fallback_by_value text) as [H1 H2]. split.
  - intros pre line post v E Hpre Hv. apply (H1 pre line post v E).
    + apply Forall_forall. intros l Hl. apply label_value_none. exact (Hpre l Hl).
    + apply label_value_complete. exact Hv.
  - intro Hno.
    assert (Hn : Forall (fun l => label_value l = None) (firstn 10 (splitlines text))).
    { apply Forall_forall. intros l Hl. apply label_value_none. exact (Hno l Hl). }
    destruct (H2 Hn) as [H3 H4]. split.
    + intros pre line post w0 w1 E Hpre Hc. apply (H3 pre line post w0 w1 E).
      * apply Forall_forall. intros l Hl. apply capitalized_pair_none. exact (Hpre l Hl).
      * apply capitalized_pair_words. exact Hc.
    + intro Hnone. apply H4. apply Forall_forall. intros l Hl.
      apply capitalized_pair_none. exact (Hnone l Hl).
Qed.

Lemma extract_name_fallback_cases_witness :
  extract_name_fallback (u "Curriculum Vitae" ++ [10%N] ++ u "name - Jane Doe  " ++ [10%N]) = u "Jane Doe"
  /\ extract_name_fallback (u "resume of" ++ [10%N] ++ u "Dr Jane Doe" ++ [10%N] ++ u "Jane Doe, Engineer")
     = u "Jane" ++ u " " ++ u "Doe".
Proof.
  split.
  - apply (proj1 (extract_name_fallback_cases _) [u "Curriculum Vitae"] (u "name - Jane Doe  ") []).
    + vm_compute. reflexivity.
    + intros l [<- | []]. apply no_name_label. vm_compute. reflexivity.
    + apply label_value_sound. vm_compute. reflexivity.
  - assert (E : firstn 10 (splitlines (u "resume of" ++ [10%N] ++ u "Dr Jane Doe" ++ [10%N]
                                         ++ u "Jane Doe, Engineer"))
                = [u "resume of"; u "Dr Jane Doe"] ++ u "Jane Doe, Engineer" :: [])
      by (vm_compute; reflexivity).
    refine (proj1 (proj2 (extract_name_fallback_cases _) _)
              [u "resume of"; u "Dr Jane Doe"] (u "Jane Doe, Engineer") [] (u "Jane") (u "Doe") E _ _).
    + rewrite E. cbn [app]. intros l [<- | [<- | [<- | []]]];
        apply no_name_label; vm_compute; reflexivity.
    + intros l [<- | [<- | []]]; apply no_capitalized_words; vm_compute; reflexivity.
    + apply capitalized_pair_words. vm_compute. reflexivity.
Defined.

(** ** What [merge_sets] guarantees *)

Lemma str_leb_total : forall a b, str_leb a b = false -> str_leb b a = true.
Proof.
  induction a as [|x a IH]; intros b H; [discriminate|].
  destruct b as [|y b]; [reflexivity|]. simpl in *.
  destruct (N.ltb_spec x y); [discriminate|].
  destruct (N.ltb_spec y x); [reflexivity|]. apply IH. exact H.
Qed.

Lemma str_leb_trans : forall a b c,
  str_leb a b = true -> str_leb b c = true -> str_leb a c = true.
Proof.
  induction a as [|x a IH]; intros b c H1 H2; [reflexivity|].
  destruct b as [|y b]; [discriminate|]. destruct c as [|z c]; [discriminate|].
  simpl in *.
  destruct (N.ltb_spec x y), (N.ltb_spec y z), (N.ltb_spec x z); try reflexivity; try lia;
    destruct (N.ltb_spec y x); try discriminate; try lia;
    destruct (N.ltb_spec z y); try discriminate; try lia;
    destruct (N.ltb_spec z x); try lia.
  eapply IH; eassumption.
Qed.

Lemma str_leb_antisym : forall a b,
  str_leb a b = true -> str_leb b a = true -> a = b.
Proof.
  induction a as [|x a IH]; intros b H1 H2.
  - destruct b; [reflexivity | discriminate].
  - destruct b as [|y b]; [discriminate|]. simpl in *.
    destruct (N.ltb_spec x y), (N.ltb_spec y x); try discriminate; try lia.
    assert (x = y) by lia. subst. f_equal. apply IH; assumption.
Qed.

Section SortedFacts.
Variable A : Type.
Variable le : A -> A -> bool.
Hypothesis le_total : forall x y, le x y = false -> le y x = true.
Hypothesis le_trans : forall x y z, le x y = true -> le y z = true -> le x z = true.

Lemma insert_sorted_In : forall x y l, In y (insert_sorted le x l) <-> y = x \/ In y l.
Proof.
  intros x y l. split; intro H.
  - apply (Permutation_in y (insert_sorted_perm le x l)) in H. destruct H; auto.
  - apply (Permutation_in y (Permutation_sym (insert_sorted_perm le x l))).
    destruct H; [left | right]; auto.
Qed.

Lemma insert_sorted_sorted : forall x l,
  StronglySorted (fun a b => le a b = true) l ->
  StronglySorted (fun a b => le a b = true) (insert_sorted le x l).
Proof.
  induction l as [|y t IH]; intro H; simpl.
  - constructor; constructor.
  - inversion H as [|? ? Ht Hy]; subst. destruct (le x y) eqn:E.
    + constructor; [exact H|]. constructor; [exact E|].
      eapply Forall_impl; [|exact Hy]. intros z Hz. eapply le_trans; eassumption.
    + constructor; [apply IH; exact Ht|].
      apply Forall_forall. intros z Hz. apply insert_sorted_In in Hz.
      destruct Hz as [-> | Hz]; [apply le_total; exact E|].
      rewrite Forall_forall in Hy. apply Hy. exact Hz.
Qed.

Lemma sorted_sorted : forall l, StronglySorted (fun a b => le a b = true) (sorted le l).
Proof.
  induction l as [|x t IH]; simpl; [constructor | apply insert_sorted_sorted; exact IH].
Qed.

(** Two sorted enumerations of the same elements agree when the elements
    that compare both ways are equal. *)
Lemma sorted_unique : forall l1 l2,
  StronglySorted (fun a b => le a b = true) l1 ->
  StronglySorted (fun a b => le a b = true) l2 ->
  Permutation l1 l2 -> NoDup l1 ->
  (forall x y, In x l1 -> In y l1 -> le x y = true -> le y x = true -> x = y) ->
  l1 = l2.
Proof.
  induction l1 as [|h1 t1 IH]; intros l2 S1 S2 P N Anti.
  - apply Permutation_nil in P. subst. reflexivity.
  - destruct l2 as [|h2 t2]; [apply Permutation_sym, Permutation_nil in P; discriminate|].
    inversion S1 as [|? ? St1 Hh1]; subst. inversion S2 as [|? ? St2 Hh2]; subst.
    assert (Eh : h1 = h2).
    { assert (I2 : In h2 (h1 :: t1)) by (apply (Permutation_in h2 (Permutation_sym P)); left; reflexivity).
      assert (I1 : In h1 (h2 :: t2)) by (apply (Permutation_in h1 P); left; reflexivity).
      destruct I2 as [E | I2]; [exact E|]. destruct I1 as [E | I1]; [symmetry; exact E|].
      rewrite Forall_forall in Hh1, Hh2.
      apply Anti; [left; reflexivity | right; exact I2 | apply Hh1; exact I2 | apply Hh2; exact I1]. }
    subst h2. f_equal. apply Permutation_cons_inv in P. inversion N; subst.
    apply IH; auto. intros x y Hx Hy. apply Anti; right; assumption.
Qed.
End SortedFacts.

Lemma lower_key_total : forall x y, lower_key_le x y = false -> lower_key_le y x = true.
Proof. intros x y. apply str_leb_total. Qed.

Lemma lower_key_trans : forall x y z,
  lower_key_le x y = true -> lower_key_le y z = true -> lower_key_le x z = true.
Proof. intros x y z. apply str_leb_trans. Qed.

Lemma set_add_In : forall x y s, In y (set_add x s) <-> y = x \/ In y s.
Proof.
  intros x y s. unfold set_add. destruct (mem x s) eqn:E.
  - apply mem_In in E. split; [auto | intros [-> | H]; assumption].
  - rewrite in_app_iff. simpl. split; [intros [H | [H | []]]; auto | intros [-> | H]; auto].
Qed.

Lemma set_add_NoDup : forall x s, NoDup s -> NoDup (set_add x s).
Proof.
  intros x s H. unfold set_add. destruct (mem x s) eqn:E; [exact H|].
  apply NoDup_app; [exact H | constructor; [intros [] | constructor] |].
  intros y Hy [<- | []]. apply mem_In in Hy. congruence.
Qed.

Section MergeFacts.
Variable set_iter : list str -> list str.
Hypothesis iter_enumerates : forall s, Permutation (set_iter s) s.

Lemma add_stripped_In : forall items acc x,
  In x (fold_left (fun acc item => set_add (strip item) acc) items acc)
  <-> In x acc \/ exists item, In item items /\ x = strip item.
Proof.
  induction items as [|i items IH]; intros acc x; simpl.
  - split; [auto | intros [H | [item [[] _]]]; exact H].
  - rewrite IH, set_add_In. split.
    + intros [[-> | H] | [item [Hi ->]]].
      * right. exists i. split; [left; reflexivity | reflexivity].
      * left. exact H.
      * right. exists item. split; [right; exact Hi | reflexivity].
    + intros [H | [item [[<- | Hi] ->]]].
      * left. right. exact H.
      * left. left. reflexivity.
      * right. exists item. split; [exact Hi | reflexivity].
Qed.

Lemma add_stripped_NoDup : forall items acc,
  NoDup acc -> NoDup (fold_left (fun acc item => set_add (strip item) acc) items acc).
Proof.
  induction items as [|i items IH]; intros acc H; simpl; [exact H|].
  apply IH. apply set_add_NoDup. exact H.
Qed.

Lemma merged_from_In : forall sets acc x,
  In x (fold_left (fun acc s =>
          fold_left (fun acc item => set_add (strip item) acc) (set_iter s) acc) sets acc)
  <-> In x acc \/ exists s item, In s sets /\ In item s /\ x = strip item.
Proof.
  induction sets as [|s sets IH]; intros acc x; simpl.
  - split; [auto | intros [H | [s [item [[] _]]]]; exact H].
  - rewrite IH, add_stripped_In. split.
    + intros [[H | [item [Hi ->]]] | [s' [item [Hs [Hi ->]]]]].
      * left. exact H.
      * right. exists s, item. split; [left; reflexivity|]. split; [|reflexivity].
        apply (Permutation_in item (iter_enumerates s)). exact Hi.
      * right. exists s', item. split; [right; exact Hs|]. split; [exact Hi | reflexivity].
    + intros [H | [s' [item [[<- | Hs] [Hi ->]]]]].
      * left. left. exact H.
      * left. right. exists item. split; [|reflexivity].
        apply (Permutation_in item (Permutation_sym (iter_enumerates s))). exact Hi.
      * right. exists s', item. split; [exact Hs|]. split; [exact Hi | reflexivity].
Qed.

Lemma merged_from_NoDup : forall sets acc,
  NoDup acc ->
  NoDup (fold_left (fun acc s =>
          fold_left (fun acc item => set_add (strip item) acc) (set_iter s) acc) sets acc).
Proof.
  induction sets as [|s sets IH]; intros acc H; simpl; [exact H|].
  apply IH. apply add_stripped_NoDup. exact H.
Qed.

Lemma merged_set_In : forall sets x,
  In x (merged_set set_iter sets) <-> exists s item, In s sets /\ In item s /\ x = strip item.
Proof.
  intros sets x. unfold merged_set. rewrite merged_from_In. split; [intros [[] | H]; exact H | auto].
Qed.

Lemma merge_sets_perm : forall sets,
  Permutation (merge_sets set_iter sets) (merged_set set_iter sets).
Proof.
  intro sets. unfold merge_sets.
  eapply Permutation_trans; [apply sorted_perm | apply iter_enumerates].
Qed.
End MergeFacts.

(** X1. Whatever the order in which sets are iterated, [merge_sets] returns
    the stripped elements of the input sets, each once.  When the elements
    are ASCII strings, the result is in non-decreasing order of the
    lower-case forms, and when in addition no two different elements of the
    result share a lower-case form, every iteration order gives this same
    list. *)
Theorem merge_sets_sorted_union :
  forall (set_iter : list str -> list str) (sets : list (list str)),
    (forall s, Permutation (set_iter s) s) ->
    (forall x, In x (merge_sets set_iter sets)
               <-> exists s item, In s sets /\ In item s /\ x = strip item) /\
    NoDup (merge_sets set_iter sets) /\
    ((forall s item, In s sets -> In item s -> is_ascii item) ->
     StronglySorted (fun a b => str_leb (lower a) (lower b) = true) (merge_sets set_iter sets) /\
     (forall set_iter' : list str -> list str,
        (forall s, Permutation (set_iter' s) s) ->
        (forall x y, In x (merge_sets set_iter sets) -> In y (merge_sets set_iter sets) ->
                     lower x = lower y -> x = y) ->
        merge_sets set_iter' sets = merge_sets set_iter sets)).
Proof.
  intros set_iter sets Hit.
  assert (HIn : forall it, (forall s, Permutation (it s) s) ->
            forall x, In x (merge_sets it sets)
                      <-> exists s item, In s sets /\ In item s /\ x = strip item).
  { intros it Hp x. rewrite <- (@merged_set_In it Hp sets x). split; intro H.
    - apply (Permutation_in x (@merge_sets_perm it Hp sets)). exact H.
    - apply (Permutation_in x (Permutation_sym (@merge_sets_perm it Hp sets))). exact H. }
  assert (HND : forall it, (forall s, Permutation (it s) s) -> NoDup (merge_sets it sets)).
  { intros it Hp. apply (Permutation_NoDup (Permutation_sym (@merge_sets_perm it Hp sets))).
    unfold merged_set. apply merged_from_NoDup. constructor. }
  assert (HS : forall it, StronglySorted (fun a b => lower_key_le a b = true) (merge_sets it sets)).
  { intro it. unfold merge_sets. apply sorted_sorted; [apply lower_key_total | apply lower_key_trans]. }
  split; [apply HIn; exact Hit|]. split; [apply HND; exact Hit|].
  intros _. split; [apply HS|].
  intros it' Hit' Hinj. symmetry.
  apply (@sorted_unique str lower_key_le); [apply HS | apply HS | | apply HND; exact Hit |].
  - apply NoDup_Permutation; [apply HND; exact Hit | apply HND; exact Hit' |].
    intro x. rewrite (HIn _ Hit), (HIn _ Hit'). tauto.
  - intros x y Hx Hy L1 L2. apply Hinj; [exact Hx | exact Hy |].
    apply str_leb_antisym; assumption.
Qed.

Lemma merge_sets_sorted_union_witness :
  merge_sets descending_order [[u " Java"; u "aws "]; [u "Java"]] = [u "aws"; u "Java"].
Proof.
  assert (A : forall s item, In s [[u " Java"; u "aws "]; [u "Java"]] -> In item s -> is_ascii item).
  { intros s item [<- | [<- | []]] Hi.
    - destruct Hi as [<- | [<- | []]]; apply is_ascii_check; vm_compute; reflexivity.
    - destruct Hi as [<- | []]; apply is_ascii_check; vm_compute; reflexivity. }
  assert (H := proj2 (proj2 (proj2 (merge_sets_sorted_union insertion_order
                  [[u " Java"; u "aws "]; [u "Java"]] (fun s => Permutation_refl s))) A)
               descending_order (fun s => sorted_perm _ s)).
  rewrite H; [vm_compute; reflexivity|].
  intros x y Hx Hy. vm_compute in Hx, Hy.
  destruct Hx as [<- | [<- | []]], Hy as [<- | [<- | []]]; intro E; try reflexivity;
    vm_compute in E; discriminate.
Defined.

(** ** Substitution of the runs of a class *)

Lemma squeeze_run : forall p repl s,
  squeeze p repl true s = squeeze p repl false (drop_while p s).
Proof.
  intros p repl. induction s as [|c t IH]; simpl; [reflexivity|].
  destruct (p c) eqn:E; [exact IH | simpl; rewrite E; reflexivity].
Qed.

Lemma firstn_take_while : forall p (s : str), firstn (length (take_while p s)) s = take_while p s.
Proof.
  intros p. induction s as [|c t IH]; simpl; [reflexivity|].
  destruct (p c); simpl; [rewrite IH|]; reflexivity.
Qed.

Lemma skipn_take_while : forall p (s : str), skipn (length (take_while p s)) s = drop_while p s.
Proof.
  intros p. induction s as [|c t IH]; simpl; [reflexivity|].
  destruct (p c); simpl; [exact IH | reflexivity].
Qed.

Lemma sub_plus : forall p repl fuel rs sn,
  length rs < fuel -> sub_from fuel (plus p) repl sn rs = squeeze p repl false rs.
Proof.
  intros p repl. induction fuel as [|f IH]; intros rs sn Hf; [inversion Hf|].
  cbn [sub_from]. rewrite match_at_plus.
  destruct rs as [|c t]; [reflexivity|].
  cbn [take_while squeeze]. destruct (p c) eqn:E.
  - cbn [m_end length]. replace (length sn + S (length (take_while p t)) - length sn)
      with (S (length (take_while p t))) by lia.
    cbn [skipn]. rewrite skipn_take_while, IH.
    + rewrite squeeze_run. reflexivity.
    + pose proof (length_drop_while p t). simpl in Hf. lia.
  - rewrite IH; [reflexivity | simpl in Hf; lia].
Qed.

Lemma re_sub_plus : forall p repl s, re_sub (plus p) repl s = squeeze p repl false s.
Proof. intros p repl s. unfold re_sub. apply sub_plus. lia. Qed.

(** ** Text normalisation *)

Lemma squeeze_chars : forall p repl (P : char -> Prop) s f,
  Forall P repl -> (forall c, p c = false -> P c) -> Forall P (squeeze p repl f s).
Proof.
  intros p repl P s f Hr Hc. revert f. induction s as [|c t IH]; intro f; simpl; [constructor|].
  destruct (p c) eqn:E.
  - destruct f; [apply IH | apply Forall_app; split; [exact Hr | apply IH]].
  - constructor; [apply Hc; exact E | apply IH].
Qed.

Lemma not_kept_kept : forall c, not_kept c = false -> kept c.
Proof.
  intros c H. unfold not_kept in H. apply negb_false_iff in H. unfold kept.
  apply orb_true_iff in H. destruct H as [H | H].
  - apply orb_true_iff in H. tauto.
  - right. right. unfold one_of in H. simpl in H. unfold char_eqb in H.
    repeat (apply orb_true_iff in H; destruct H as [H | H]); try discriminate;
      apply N.eqb_eq in H; auto.
Qed.

Lemma squeeze_filter : forall p repl s f,
  Forall (fun c => p c = true) repl ->
  filter (fun c => negb (p c)) (squeeze p repl f s) = filter (fun c => negb (p c)) s.
Proof.
  intros p repl s f Hr.
  assert (R : filter (fun c => negb (p c)) repl = []).
  { induction Hr as [|c r Hc _ IH]; simpl; [reflexivity | rewrite Hc; exact IH]. }
  revert f. induction s as [|c t IH]; intro f; simpl; [reflexivity|].
  destruct (p c) eqn:E; simpl.
  - destruct f; [apply IH | rewrite filter_app, R, IH; reflexivity].
  - rewrite E. simpl. rewrite IH. reflexivity.
Qed.

Lemma normalize_text_squeeze : forall text,
  normalize_text text = u " " ++ squeeze not_kept (u " ") false (lower text) ++ u " ".
Proof. intro text. unfold normalize_text. rewrite re_sub_plus. reflexivity. Qed.

Lemma normalize_text_chars : forall text,
  Forall (fun c => c = 32%N \/ kept c) (normalize_text text).
Proof.
  intro text. rewrite normalize_text_squeeze.
  apply Forall_app. split; [repeat constructor; left; reflexivity|].
  apply Forall_app. split; [|repeat constructor; left; reflexivity].
  apply squeeze_chars; [repeat constructor; left; reflexivity|].
  intros c H. right. apply not_kept_kept. exact H.
Qed.

(** X3. The result of [normalize_text] holds only spaces and characters of
    [a-z0-9+.#].  For an ASCII text it is the lower-cased text in which
    every maximal run of characters outside [a-z0-9+.#] is replaced by one
    space, with a space put at each end, and the characters of [a-z0-9+.#]
    of the lower-cased text all survive, in their order. *)
Theorem normalize_text_shape :
  forall text : str,
    Forall (fun c => c = 32%N \/ kept c) (normalize_text text) /\
    (is_ascii text ->
     normalize_text text = u " " ++ squeeze not_kept (u " ") false (lower text) ++ u " " /\
     filter (fun c => negb (not_kept c)) (normalize_text text)
     = filter (fun c => negb (not_kept c)) (lower text)).
Proof.
  intro text. split; [apply normalize_text_chars|].
  intros _. split; [apply normalize_text_squeeze|].
  rewrite normalize_text_squeeze, !filter_app, squeeze_filter by (repeat constructor).
  cbn [filter u]. rewrite app_nil_r. reflexivity.
Qed.

Lemma normalize_text_shape_witness :
  normalize_text (u "C++, Node.JS") = u " c++ node.js ".
Proof.
  rewrite (proj1 (proj2 (normalize_text_shape (u "C++, Node.JS"))
                   (is_ascii_check (u "C++, Node.JS") eq_refl))).
  vm_compute. reflexivity.
Defined.

(** ** Bullets and whitespace of a line *)

Lemma rep_greedy_commit : forall p cs (k : mstate -> option mstate) rs lo sn,
  (forall st, k st <> None) ->
  rep_greedy p cs k lo None sn rs =
  if lo <=? length (take_while p rs)
  then k (MState (rev (take_while p rs) ++ sn) (drop_while p rs) cs)
  else None.
Proof.
  intros p cs k rs lo sn Hk. revert lo sn. induction rs as [|c t IH]; intros lo sn.
  - simpl. destruct lo; reflexivity.
  - cbn [rep_greedy take_while drop_while]. destruct (p c) eqn:Pc; cbn [andb more dec].
    + rewrite IH. cbn [length].
      destruct lo as [|lo]; cbn [pred Nat.leb].
      * cbn [rev]. rewrite <- app_assoc. cbn [app].
        destruct (k (MState (rev (take_while p t) ++ c :: sn) (drop_while p t) cs)) eqn:E;
          [reflexivity | exfalso; exact (Hk _ E)].
      * destruct (lo <=? length (take_while p t)).
        -- cbn [rev]. rewrite <- app_assoc. cbn [app].
           destruct (k (MState (rev (take_while p t) ++ c :: sn) (drop_while p t) cs)) eqn:E;
             [reflexivity | exfalso; exact (Hk _ E)].
        -- reflexivity.
    + destruct lo; reflexivity.
Qed.

Lemma bullet_later : forall sn rs, sn <> [] -> match_at BULLET_RE sn rs = None.
Proof.
  intros sn rs H. unfold match_at, BULLET_RE. cbn [seqs run at_bos seen].
  destruct sn; [contradiction | reflexivity].
Qed.

Lemma bullet_run : forall rs,
  run BULLET_RE (MState [] rs []) (fun st => Some st) =
  if 1 <=? length (take_while is_bullet rs)
  then Some (MState (rev (take_while isspace (drop_while is_bullet rs))
                       ++ rev (take_while is_bullet rs) ++ [])
                    (drop_while isspace (drop_while is_bullet rs)) [])
  else None.
Proof.
  intro rs. unfold BULLET_RE, plus, star. cbn [seqs run at_bos seen rest caps].
  rewrite rep_greedy_commit.
  - destruct (1 <=? length (take_while is_bullet rs)); [|reflexivity].
    cbn [seen rest caps]. rewrite rep_greedy_longest. reflexivity.
  - intro st. rewrite rep_greedy_longest. discriminate.
Qed.

Lemma bullet_start_none : forall rs,
  take_while is_bullet rs = [] -> match_at BULLET_RE [] rs = None.
Proof. intros rs H. unfold match_at. rewrite bullet_run, H. reflexivity. Qed.

Lemma bullet_start_some : forall rs,
  take_while is_bullet rs <> [] ->
  exists m, match_at BULLET_RE [] rs = Some m /\
    m_end m = length (take_while is_bullet rs)
              + length (take_while isspace (drop_while is_bullet rs)).
Proof.
  intros rs Hne. unfold match_at. rewrite bullet_run.
  destruct (take_while is_bullet rs) as [|c w] eqn:Et; [contradiction|].
  cbn [length Nat.leb]. eexists. split; [reflexivity|]. cbn [m_end seen].
  rewrite !length_app, !length_rev. cbn [length]. lia.
Qed.

Lemma sub_bullet_later : forall fuel repl rs sn,
  sn <> [] -> sub_from fuel BULLET_RE repl sn rs = rs.
Proof.
  induction fuel as [|f IH]; intros repl rs sn H; [reflexivity|].
  cbn [sub_from]. rewrite (bullet_later rs H).
  destruct rs as [|c t]; [reflexivity|]. rewrite IH by discriminate. reflexivity.
Qed.

Lemma firstn_skipn_runs : forall p q (s : str),
  skipn (length (take_while p s) + length (take_while q (drop_while p s))) s
  = drop_while q (drop_while p s).
Proof.
  intros p q s. rewrite <- (take_drop_while p s) at 3.
  rewrite skipn_app.
  replace (length (take_while p s) + length (take_while q (drop_while p s)) - length (take_while p s))
    with (length (take_while q (drop_while p s))) by lia.
  rewrite skipn_all2 by lia. cbn [app]. apply skipn_take_while.
Qed.

Lemma re_sub_bullet : forall line, re_sub BULLET_RE [] line = unbullet line.
Proof.
  intro line. unfold re_sub, unbullet. cbn [sub_from].
  destruct (take_while is_bullet line) as [|c w] eqn:Et.
  - rewrite (bullet_start_none _ Et). destruct line as [|x t]; [reflexivity|].
    rewrite sub_bullet_later by discriminate. reflexivity.
  - destruct (@bullet_start_some line) as [m [Em En]]; [rewrite Et; discriminate|].
    rewrite Em, Nat.sub_0_r, En.
    pose proof (firstn_skipn_runs is_bullet isspace line) as Hs.
    assert (Hl : 1 <= length line).
    { rewrite <- (take_drop_while is_bullet line), Et. simpl. lia. }
    destruct (length (take_while is_bullet line)
              + length (take_while isspace (drop_while is_bullet line))) as [|n] eqn:En'.
    + rewrite Et in En'. simpl in En'. lia.
    + rewrite Hs. cbn [app]. apply sub_bullet_later.
      rewrite app_nil_r. intro C. destruct line as [|x t]; [simpl in Hl; lia|].
      simpl in C. apply app_eq_nil in C. destruct C as [_ C]. discriminate.
Qed.

Lemma no_double_cons : forall p c d q,
  no_double p (c :: d :: q) = negb (p c && p d) && no_double p (d :: q).
Proof. reflexivity. Qed.

Lemma squeeze_no_double : forall p r s f,
  p r = true ->
  no_double p (squeeze p [r] f s) = true /\
  match squeeze p [r] true s with c :: _ => p c = false | [] => True end.
Proof.
  intros p r s f Hr. revert f. induction s as [|c t IH]; intro f; [split; [reflexivity | exact I]|].
  cbn [squeeze]. destruct (p c) eqn:E.
  - destruct (IH true) as [N1 H1]. split; [|exact H1].
    destruct f; [exact N1|]. cbn [app].
    destruct (squeeze p [r] true t) as [|d q] eqn:Es; [reflexivity|].
    rewrite no_double_cons, H1, andb_false_r. exact N1.
  - destruct (IH false) as [N1 _]. split; [|exact E].
    destruct (squeeze p [r] false t) as [|d q] eqn:Es; [reflexivity|].
    rewrite no_double_cons, E. exact N1.
Qed.

Lemma no_double_tail : forall p a b, no_double p (a ++ b) = true -> no_double p b = true.
Proof.
  intros p. induction a as [|c a IH]; intros b H; [exact H|].
  apply IH. cbn [app] in H. destruct (a ++ b) as [|d q]; [reflexivity|].
  rewrite no_double_cons in H. apply andb_true_iff in H. apply H.
Qed.

Lemma no_double_front : forall p a b, no_double p (a ++ b) = true -> no_double p a = true.
Proof.
  intros p. induction a as [|c a IH]; intros b H; [reflexivity|].
  destruct a as [|d a]; [reflexivity|].
  cbn [app] in *. rewrite no_double_cons in *. apply andb_true_iff in H. destruct H as [H1 H2].
  rewrite H1. apply (IH b). exact H2.
Qed.

Lemma no_double_spec : forall p s a c d b,
  no_double p s = true -> s = a ++ c :: d :: b -> p c = true -> p d = false.
Proof.
  intros p s a c d b H -> Hc. apply no_double_tail in H. rewrite no_double_cons in H.
  apply andb_true_iff in H. destruct H as [H _]. rewrite Hc in H.
  destruct (p d); [discriminate | reflexivity].
Qed.

Lemma lstrip_split : forall s, exists a, s = a ++ lstrip s /\ all_space a.
Proof.
  induction s as [|c t [a [E Ha]]]; [exists []; split; [reflexivity | constructor]|].
  cbn [lstrip]. destruct (isspace c) eqn:Ec.
  - exists (c :: a). split; [cbn [app]; rewrite <- E; reflexivity | constructor; assumption].
  - exists []. split; [reflexivity | constructor].
Qed.

Lemma all_space_rev : forall a, all_space a -> all_space (rev a).
Proof. intros a H. apply Forall_rev. exact H. Qed.

Lemma strip_split : forall s, exists a b, s = a ++ strip s ++ b /\ all_space a /\ all_space b.
Proof.
  intro s. destruct (lstrip_split s) as [a [Ea Ha]].
  destruct (lstrip_split (rev (lstrip s))) as [b [Eb Hb]].
  exists a, (rev b). split; [|split; [exact Ha | apply all_space_rev; exact Hb]].
  unfold strip, rstrip. rewrite <- rev_app_distr, <- Eb, rev_involutive. exact Ea.
Qed.

Lemma visible_space : forall a, all_space a -> visible a = [].
Proof.
  induction 1 as [|c a Hc _ IH]; [reflexivity|]. unfold visible in *. simpl. rewrite Hc. exact IH.
Qed.

Lemma visible_strip : forall s, visible (strip s) = visible s.
Proof.
  intro s. destruct (strip_split s) as [a [b [E [Ha Hb]]]].
  rewrite E at 2. unfold visible. rewrite !filter_app.
  fold (visible a). fold (visible b). rewrite (visible_space Ha), (visible_space Hb), app_nil_r.
  reflexivity.
Qed.

(** X4. [clean_line] returns a line without whitespace at either end, in
    which every whitespace character is a single space that is not followed
    by another one; the characters other than whitespace are those of the
    line after its leading bullets, in their order. *)
Theorem clean_line_normal_form :
  forall line : str,
    no_lead (clean_line line) /\ no_lead (rev (clean_line line)) /\
    Forall (fun c => isspace c = true -> c = 32%N) (clean_line line) /\
    single_spaced (clean_line line) /\
    visible (clean_line line) = visible (unbullet line).
Proof.
  intro line. unfold clean_line. rewrite re_sub_bullet, re_sub_plus.
  set (q := squeeze isspace (u " ") false (unbullet line)).
  destruct (strip_split q) as [a [b [E [Ha Hb]]]].
  split; [apply strip_no_lead|]. split; [apply strip_no_trail|]. split; [|split].
  - assert (F : Forall (fun c => isspace c = true -> c = 32%N) q).
    { apply squeeze_chars; [repeat constructor | intros c H C; congruence]. }
    rewrite E in F. apply Forall_app in F. destruct F as [_ F].
    apply Forall_app in F. apply F.
  - intros x c d y Ex Hc.
    destruct (@squeeze_no_double isspace 32%N (unbullet line) false eq_refl) as [N _].
    change (no_double isspace q = true) in N. rewrite E in N. apply no_double_tail in N. apply no_double_front in N.
    exact (@no_double_spec isspace _ x c d y N Ex Hc).
  - rewrite visible_strip. unfold q, visible. apply squeeze_filter. repeat constructor.
Qed.

(** ** Keywords in the normalised text *)

Lemma fold_add_In : forall (A : Type) (cond : A -> bool) (f : A -> str) l acc x,
  In x (fold_left (fun acc a => if cond a then set_add (f a) acc else acc) l acc)
  <-> In x acc \/ exists a, In a l /\ cond a = true /\ x = f a.
Proof.
  intros A cond f. induction l as [|a l IH]; intros acc x; simpl.
  - split; [auto | intros [H | [a [[] _]]]; exact H].
  - rewrite IH. destruct (cond a) eqn:E.
    + rewrite set_add_In. split.
      * intros [[-> | H] | [b [Hb [Cb ->]]]]; [right; exists a; auto | left; exact H |].
        right. exists b. auto.
      * intros [H | [b [[<- | Hb] [Cb ->]]]]; [left; right; exact H | left; left; reflexivity |].
        right. exists b. auto.
    + split.
      * intros [H | [b [Hb [Cb ->]]]]; [left; exact H | right; exists b; auto].
      * intros [H | [b [[<- | Hb] [Cb ->]]]]; [left; exact H | congruence | right; exists b; auto].
Qed.

Lemma fold_add_NoDup : forall (A : Type) (cond : A -> bool) (f : A -> str) l acc,
  NoDup acc -> NoDup (fold_left (fun acc a => if cond a then set_add (f a) acc else acc) l acc).
Proof.
  intros A cond f. induction l as [|a l IH]; intros acc H; simpl; [exact H|].
  apply IH. destruct (cond a); [apply set_add_NoDup|]; exact H.
Qed.

Lemma matches_lit : forall k s s',
  matches (lit k) s s' -> rest s = k ++ rest s' /\ seen s' = rev k ++ seen s.
Proof.
  induction k as [|c k IH]; intros s s' M; cbn [lit] in M.
  - apply matches_eps_inv in M. subst s'. split; reflexivity.
  - apply matches_seq_inv in M. destruct M as [s1 [M1 M2]].
    apply matches_cls_inv in M1. destruct M1 as [x [Hx [R1 [S1 _]]]].
    apply N.eqb_eq in Hx. subst x. apply IH in M2. destruct M2 as [R2 S2].
    rewrite R1, R2, S2, S1. cbn [rev app]. rewrite <- app_assoc. split; reflexivity.
Qed.

Lemma lit_complete : forall k sn rs cs,
  matches (lit k) (MState sn (k ++ rs) cs) (MState (rev k ++ sn) rs cs).
Proof.
  induction k as [|c k IH]; intros sn rs cs; cbn [lit app rev].
  - constructor.
  - econstructor.
    + unfold chr. constructor. apply N.eqb_refl.
    + rewrite <- app_assoc. apply IH.
Qed.

Lemma matches_wb_inv : forall s1 s2, matches Wb s1 s2 -> s2 = s1 /\ at_wb s1 = true.
Proof. intros s1 s2 M. inversion M; subst. auto. Qed.

Lemma hd_rev_snoc : forall (a : str) x, hd_error (rev (a ++ [x])) = Some x.
Proof. intros a x. rewrite rev_app_distr. reflexivity. Qed.

Lemma hd_rev_snoc_app : forall (a : str) x (b : str), hd_error (rev (a ++ [x]) ++ b) = Some x.
Proof. intros a x b. rewrite rev_app_distr. reflexivity. Qed.

Lemma last_snoc : forall (a : str) x d, last (a ++ [x]) d = x.
Proof. intros a x d. apply last_last. Qed.

Lemma word_edged_ends : forall k,
  word_edged k = true ->
  exists c k1 k0 cl, k = c :: k1 /\ k = k0 ++ [cl] /\ is_word c = true /\ is_word cl = true.
Proof.
  intros [|c k1] H; [discriminate|]. unfold word_edged in H. apply andb_true_iff in H.
  destruct H as [Hc Hl]. exists c, k1, (removelast (c :: k1)), (last (c :: k1) c).
  split; [reflexivity|]. split; [apply app_removelast_last; discriminate|]. auto.
Qed.

(** [\bk\b] finds a keyword with word characters at both ends exactly when
    the keyword stands between characters that are not word characters. *)
Lemma found_in_alone : forall k norm,
  word_edged k = true ->
  (found_in k norm = true <-> stands_alone non_word norm k).
Proof.
  intros k norm Hk. destruct (word_edged_ends k Hk) as [c [k1 [k0 [cl [Ec [El [Wc Wl]]]]]]].
  unfold found_in. split.
  - destruct (re_search (word_re k) norm) as [m|] eqn:Es; [intros _ | discriminate].
    apply search_from_sound in Es. destruct Es as [a [w [b [cs [En [M _]]]]]].
    unfold word_re in M. cbn [seqs] in M.
    apply matches_seq_inv in M. destruct M as [s1 [M1 M]].
    apply matches_wb_inv in M1. destruct M1 as [-> Hwb1].
    apply matches_seq_inv in M. destruct M as [s2 [M2 M3]].
    apply matches_wb_inv in M3. destruct M3 as [E3 Hwb2]. subst s2.
    apply matches_lit in M2. cbn [rest seen] in M2. destruct M2 as [R2 S2].
    apply app_inv_tail in R2. subst w.
    exists a, b. split; [exact En|]. clear En. split.
    + destruct a as [|x a] using rev_ind; [left; reflexivity | right].
      exists a, x. split; [reflexivity|].
      unfold at_wb in Hwb1. cbn [seen rest] in Hwb1. rewrite app_nil_r, hd_rev_snoc in Hwb1.
      rewrite Ec in Hwb1. cbn [app hd_error word_at] in Hwb1. rewrite Wc in Hwb1.
      unfold non_word. destruct (is_word x); [discriminate | reflexivity].
    + destruct b as [|x b]; [left; reflexivity | right].
      exists x, b. split; [reflexivity|].
      unfold at_wb in Hwb2. cbn [seen rest] in Hwb2. rewrite El in Hwb2 at 1.
      rewrite hd_rev_snoc_app in Hwb2.
      cbn [hd_error word_at] in Hwb2. rewrite Wl in Hwb2.
      unfold non_word. destruct (is_word x); [discriminate | reflexivity].
  - intros [pre [post [En [Hpre Hpost]]]].
    destruct (re_search (word_re k) norm) as [m|] eqn:Es; [reflexivity | exfalso].
    revert Es. unfold re_search. rewrite En. apply search_from_complete.
    apply match_at_complete with (st' := MState (rev k ++ rev pre ++ []) post []).
    unfold word_re. cbn [seqs]. econstructor; [constructor | econstructor; [apply lit_complete | constructor]].
    + unfold at_wb. cbn [seen rest]. rewrite Ec. cbn [app hd_error word_at]. rewrite Wc.
      destruct Hpre as [-> | [p [x [-> Hx]]]]; [reflexivity|].
      rewrite app_nil_r, hd_rev_snoc. cbn [word_at]. rewrite Hx. reflexivity.
    + unfold at_wb. cbn [seen rest]. rewrite El at 1. rewrite hd_rev_snoc_app.
      cbn [word_at]. rewrite Wl.
      destruct Hpost as [-> | [x [q [-> Hx]]]]; [reflexivity|].
      cbn [hd_error word_at]. rewrite Hx. reflexivity.
Qed.

Lemma squeeze_app_l : forall p repl a c t f,
  p c = false ->
  squeeze p repl f (a ++ c :: t) = squeeze p repl f a ++ c :: squeeze p repl false t.
Proof.
  intros p repl a c t f Hc. revert f. induction a as [|x a IH]; intro f; cbn [app squeeze].
  - rewrite Hc. reflexivity.
  - destruct (p x); [destruct f|]; rewrite IH; [reflexivity | rewrite <- app_assoc; reflexivity | reflexivity].
Qed.

Lemma squeeze_nil : forall p r s, squeeze p [r] false s = [] -> s = [].
Proof. intros p r [|c t] H; [reflexivity|]. simpl in H. destruct (p c); discriminate. Qed.

Lemma squeeze_extend : forall p r s rest f k0 cl,
  p r = true -> p cl = false ->
  squeeze p [r] f s = k0 ++ [cl] ->
  squeeze p [r] f (s ++ rest) = (k0 ++ [cl]) ++ squeeze p [r] false rest.
Proof.
  intros p r s rest f k0 cl Hr Hcl. revert f k0.
  induction s as [|c t IH]; intros f k0 E; cbn [squeeze app] in *.
  - destruct k0; discriminate.
  - destruct (p c) eqn:Pc.
    + destruct f; [apply IH; exact E|].
      destruct k0 as [|x k0]; cbn [app] in E.
      * inversion E; subst. congruence.
      * inversion E; subst. cbn [app]. f_equal. apply IH. assumption.
    + destruct k0 as [|x k0]; cbn [app] in E.
      * inversion E as [[Ec Es]]. apply squeeze_nil in Es. subst t. reflexivity.
      * inversion E; subst. cbn [app]. f_equal. apply IH. assumption.
Qed.

Lemma squeeze_ends : forall p r a x f,
  p x = true ->
  (f = true /\ squeeze p [r] f (a ++ [x]) = []) \/ exists o, squeeze p [r] f (a ++ [x]) = o ++ [r].
Proof.
  intros p r a x f Hx. revert f. induction a as [|c a IH]; intro f; cbn [app squeeze].
  - rewrite Hx. destruct f; [left; split; reflexivity | right; exists []; reflexivity].
  - destruct (p c) eqn:Pc.
    + destruct f; [apply IH|]. right. destruct (IH true) as [[_ E] | [o E]]; rewrite E.
      * exists []. reflexivity.
      * exists (r :: o). reflexivity.
    + right. destruct (IH false) as [[C _] | [o E]]; [discriminate|]. rewrite E.
      exists (c :: o). reflexivity.
Qed.

Lemma delimiter_lower : forall x,
  delimiter x ->
  not_kept (lower_c x) = true \/ (not_kept (lower_c x) = false /\ is_word (lower_c x) = false).
Proof.
  intros x [_ [Ha Hd]]. unfold is_alpha in Ha. apply orb_false_iff in Ha. destruct Ha as [Hu Hl].
  unfold lower_c. rewrite Hu. destruct (not_kept x) eqn:Ek; [left; reflexivity | right].
  split; [reflexivity|]. unfold is_word, is_alpha. rewrite Hu, Hl, Hd. cbn [orb].
  destruct (N.eqb_spec x 95) as [-> | _]; [discriminate Ek | reflexivity].
Qed.

Lemma lower_app : forall a b, lower (a ++ b) = lower a ++ lower b.
Proof. intros a b. apply map_app. Qed.

(** A piece of the text that stands between delimiters and normalises to a
    keyword stands alone in the normalised text. *)
Lemma normalized_alone : forall k text w,
  word_edged k = true -> stands_alone delimiter text w ->
  normalize_text w = u " " ++ k ++ u " " ->
  stands_alone non_word (normalize_text text) k.
Proof.
  intros k text w Hk [pre [post [Et [Hpre Hpost]]]] Hn.
  destruct (word_edged_ends k Hk) as [c [k1 [k0 [cl [Ec [El [Wc Wl]]]]]]].
  pose proof (normalize_text_squeeze w) as Ew.
  rewrite Ew in Hn. apply app_inv_head in Hn. apply app_inv_tail in Hn.
  assert (Kcl : not_kept cl = false).
  { assert (F : Forall (fun c => c = 32%N \/ not_kept c = false) (squeeze not_kept (u " ") false (lower w))).
    { apply squeeze_chars; [repeat constructor; left; reflexivity | auto]. }
    rewrite Hn, El in F. apply Forall_app in F. destruct F as [_ F]. inversion F as [|? ? [C | C] _]; subst.
    - discriminate Wl.
    - exact C. }
  assert (Hw : exists w1, lower w = c :: w1 /\ not_kept c = false).
  { destruct (lower w) as [|x w1]; [rewrite Ec in Hn; discriminate|].
    cbn [squeeze] in Hn. rewrite Ec in Hn. destruct (not_kept x) eqn:Ex.
    - inversion Hn; subst. discriminate Wc.
    - inversion Hn; subst. exists w1. split; [reflexivity | exact Ex]. }
  destruct Hw as [w1 [Hw Kc]].
  rewrite (normalize_text_squeeze text), Et, !lower_app.
  assert (Es : squeeze not_kept (u " ") false (lower pre ++ lower w ++ lower post)
               = squeeze not_kept (u " ") false (lower pre) ++ k
                 ++ squeeze not_kept (u " ") false (lower post)).
  { rewrite Hw at 1. cbn [app]. rewrite squeeze_app_l by exact Kc. f_equal.
    assert (H1 : c :: squeeze not_kept (u " ") false (w1 ++ lower post)
                 = squeeze not_kept (u " ") false ((c :: w1) ++ lower post))
      by (cbn [app squeeze]; rewrite Kc; reflexivity).
    rewrite H1, <- Hw, El. apply (@squeeze_extend not_kept 32%N); [reflexivity | exact Kcl |].
    rewrite <- El. exact Hn. }
  rewrite Es.
  exists (u " " ++ squeeze not_kept (u " ") false (lower pre)),
         (squeeze not_kept (u " ") false (lower post) ++ u " ").
  split; [rewrite <- !app_assoc; reflexivity|]. split; right.
  - destruct Hpre as [-> | [p [x [-> Hx]]]].
    + exists [], 32%N. split; reflexivity.
    + rewrite lower_app. cbn [lower map].
      destruct (delimiter_lower Hx) as [K | [K W]].
      * destruct (@squeeze_ends not_kept 32%N (lower p) (lower_c x) false K) as [[C _] | [o E]];
          [discriminate|].
        exists (u " " ++ o), 32%N. split; [|reflexivity].
        rewrite <- app_assoc. f_equal. exact E.
      * rewrite squeeze_app_l by exact K. cbn [squeeze].
        exists (u " " ++ squeeze not_kept (u " ") false (map lower_c p)), (lower_c x).
        split; [rewrite <- app_assoc; reflexivity | exact W].
  - destruct Hpost as [-> | [x [q [-> Hx]]]].
    + exists 32%N, []. split; reflexivity.
    + cbn [lower map squeeze].
      destruct (delimiter_lower Hx) as [K | [K W]]; rewrite K.
      * eexists 32%N, _. split; [reflexivity | reflexivity].
      * eexists (lower_c x), _. split; [reflexivity | exact W].
Qed.

Lemma found_in_occurs : forall k norm, found_in k norm = true -> occurs k norm.
Proof.
  intros k norm. unfold found_in.
  destruct (re_search (word_re k) norm) as [m|] eqn:Es; [intros _ | discriminate].
  apply search_from_sound in Es. destruct Es as [a [w [b [cs [En [M _]]]]]].
  unfold word_re in M. cbn [seqs] in M.
  apply matches_seq_inv in M. destruct M as [s1 [M1 M]].
  apply matches_wb_inv in M1. destruct M1 as [-> _].
  apply matches_seq_inv in M. destruct M as [s2 [M2 M3]].
  apply matches_wb_inv in M3. destruct M3 as [E3 _]. subst s2.
  apply matches_lit in M2. cbn [rest seen] in M2. destruct M2 as [R2 _].
  apply app_inv_tail in R2. subst w. exists a, b. exact En.
Qed.

Lemma fold_fold_add_In : forall (A B : Type) (g : B -> list A) (cond : A -> bool) (f : A -> str)
    cats acc x,
  In x (fold_left (fun acc cat =>
          fold_left (fun acc a => if cond a then set_add (f a) acc else acc) (g cat) acc) cats acc)
  <-> In x acc \/ exists a, In a (concat (map g cats)) /\ cond a = true /\ x = f a.
Proof.
  intros A B g cond f. induction cats as [|cat cats IH]; intros acc x; cbn [fold_left map concat].
  - split; [auto | intros [H | [a [[] _]]]; exact H].
  - rewrite IH, fold_add_In. split.
    + intros [[H | [a [Ha [Ca ->]]]] | [a [Ha [Ca ->]]]]; [left; exact H | |];
        right; exists a; rewrite in_app_iff; auto.
    + intros [H | [a [Ha [Ca ->]]]]; [left; left; exact H|].
      apply in_app_iff in Ha. destruct Ha as [Ha | Ha];
        [left; right; exists a; auto | right; exists a; auto].
Qed.

Lemma titles_word_edged : forall t, In t JOB_TITLES -> word_edged (lower t) = true.
Proof.
  assert (H : forallb (fun t => word_edged (lower t)) JOB_TITLES = true) by (vm_compute; reflexivity).
  rewrite forallb_forall in H. exact H.
Qed.

(** X5. The dictionary extractor of job titles reports exactly the titles of
    the curated list whose lower-case form stands in the normalised text
    between characters that are not word characters.  In terms of the
    résumé: a title is reported whenever some ASCII piece of the text,
    standing between ASCII characters other than letters and digits or at an
    end of the text, normalises to the title, whatever its letter case and
    whatever separates its words. *)
Theorem extract_job_titles_dict_finds :
  forall text : str,
    (forall t, In t (extract_job_titles_dict text)
               <-> In t JOB_TITLES /\ stands_alone non_word (normalize_text text) (lower t)) /\
    (forall t w, In t JOB_TITLES -> is_ascii w -> stands_alone delimiter text w ->
                 normalize_text w = u " " ++ lower t ++ u " " ->
                 In t (extract_job_titles_dict text)).
Proof.
  intro text.
  assert (H : forall t, In t (extract_job_titles_dict text)
               <-> In t JOB_TITLES /\ stands_alone non_word (normalize_text text) (lower t)).
  { intro t. unfold extract_job_titles_dict.
    rewrite (fold_add_In (fun title => found_in (lower title) (normalize_text text)) (fun title => title)).
    split.
    - intros [[] | [a [Ha [Ca ->]]]]. split; [exact Ha|].
      apply found_in_alone; [apply titles_word_edged; exact Ha | exact Ca].
    - intros [Ht Hs]. right. exists t. split; [exact Ht|]. split; [|reflexivity].
      apply found_in_alone; [apply titles_word_edged; exact Ht | exact Hs]. }
  split; [exact H|].
  intros t w Ht _ Hw Hn. apply H. split; [exact Ht|].
  eapply normalized_alone; [apply titles_word_edged; exact Ht | exact Hw | exact Hn].
Qed.

Lemma extract_job_titles_dict_finds_witness :
  In (u "Full Stack Developer") (extract_job_titles_dict (u "2019: FULL-STACK  developer, Acme")).
Proof.
  apply (proj2 (extract_job_titles_dict_finds (u "2019: FULL-STACK  developer, Acme"))
           (u "Full Stack Developer") (u "FULL-STACK  developer")).
  - apply mem_In. vm_compute. reflexivity.
  - apply is_ascii_check. vm_compute. reflexivity.
  - exists (u "2019: "), (u ", Acme"). split; [reflexivity|]. split; right.
    + exists (u "2019:"), 32%N. split; [reflexivity|]. unfold delimiter. split; [lia|]. split; reflexivity.
    + exists 44%N, (u " Acme"). split; [reflexivity|]. unfold delimiter. split; [lia|]. split; reflexivity.
  - vm_compute. reflexivity.
Defined.

Lemma keyword_facts : forall kw,
  In kw skill_keywords ->
  mem (lower (canonical_skill kw)) SKILL_STOPWORDS = false /\
  (canonical_skill kw = kw \/ (kw = u "GCP" /\ canonical_skill kw = u "Google Cloud")
   \/ (kw = u "scikit-learn" /\ canonical_skill kw = u "Scikit-learn")).
Proof.
  assert (H : forallb (fun kw => negb (mem (lower (canonical_skill kw)) SKILL_STOPWORDS)
                       && (str_eqb (canonical_skill kw) kw
                           || (str_eqb kw (u "GCP") && str_eqb (canonical_skill kw) (u "Google Cloud"))
                           || (str_eqb kw (u "scikit-learn")
                               && str_eqb (canonical_skill kw) (u "Scikit-learn"))))
                skill_keywords = true) by (vm_compute; reflexivity).
  rewrite forallb_forall in H. intros kw Hk. specialize (H kw Hk).
  apply andb_true_iff in H. destruct H as [H1 H2]. apply negb_true_iff in H1. split; [exact H1|].
  apply orb_true_iff in H2. destruct H2 as [H2 | H2]; [apply orb_true_iff in H2; destruct H2 as [H2 | H2]|].
  - left. apply str_eqb_eq. exact H2.
  - right. left. apply andb_true_iff in H2. destruct H2 as [H2 H3]. split; apply str_eqb_eq; assumption.
  - right. right. apply andb_true_iff in H2. destruct H2 as [H2 H3]. split; apply str_eqb_eq; assumption.
Qed.

Lemma alias_facts : forall alias canon,
  In (alias, canon) SKILL_ALIASES ->
  word_edged alias = true /\ canonical_skill canon = canon /\
  mem (lower canon) SKILL_STOPWORDS = false.
Proof.
  assert (H : forallb (fun a => word_edged (fst a) && str_eqb (canonical_skill (snd a)) (snd a)
                                && negb (mem (lower (snd a)) SKILL_STOPWORDS))
                SKILL_ALIASES = true) by (vm_compute; reflexivity).
  rewrite forallb_forall in H. intros alias canon Ha. specialize (H _ Ha). cbn [fst snd] in H.
  apply andb_true_iff in H. destruct H as [H H3]. apply andb_true_iff in H. destruct H as [H1 H2].
  split; [exact H1|]. split; [apply str_eqb_eq; exact H2 | apply negb_true_iff; exact H3].
Qed.

(** Membership in the set that [extract_skills_dict] returns. *)
Lemma extract_skills_dict_In : forall text s,
  In s (extract_skills_dict text) <->
  ((exists kw, In kw skill_keywords /\ found_in (lower kw) (normalize_text text) = true /\
               s = canonical_skill kw) \/
   (exists a, In a SKILL_ALIASES /\ found_in (fst a) (normalize_text text) = true /\
              s = canonical_skill (snd a))) /\
  mem (lower s) SKILL_STOPWORDS = false.
Proof.
  intros text s. unfold extract_skills_dict. rewrite filter_In, negb_true_iff.
  rewrite (fold_add_In (fun a => found_in (fst a) (normalize_text text))
                       (fun a => canonical_skill (snd a))).
  rewrite (fold_fold_add_In (@snd str (list str))
             (fun kw => found_in (lower kw) (normalize_text text)) canonical_skill).
  unfold skill_keywords. cbn [In]. tauto.
Qed.

(** X6. The dictionary extractor of skills.  A keyword of the taxonomy
    whose lower-case form starts and ends with a letter or a digit is
    reported, under its canonical name, whenever an ASCII piece of the text
    that stands between ASCII characters other than letters and digits (or at an
    end of the text) normalises to it; likewise an alias reports its
    canonical skill.  The canonical name of a keyword is the keyword itself,
    except that GCP is reported as Google Cloud (and that the canonical name
    of scikit-learn is Scikit-learn).  Conversely every reported skill is
    the canonical name of a keyword, or the target of an alias, that occurs
    in the normalised text. *)
Theorem extract_skills_dict_finds :
  forall text : str,
    (forall kw w, In kw skill_keywords -> word_edged (lower kw) = true -> is_ascii w ->
       stands_alone delimiter text w -> normalize_text w = u " " ++ lower kw ++ u " " ->
       In (canonical_skill kw) (extract_skills_dict text)) /\
    (forall alias canon w, In (alias, canon) SKILL_ALIASES -> is_ascii w ->
       stands_alone delimiter text w -> normalize_text w = u " " ++ alias ++ u " " ->
       In canon (extract_skills_dict text)) /\
    (forall kw, In kw skill_keywords ->
       canonical_skill kw = kw \/ (kw = u "GCP" /\ canonical_skill kw = u "Google Cloud")
       \/ (kw = u "scikit-learn" /\ canonical_skill kw = u "Scikit-learn")) /\
    (forall s, In s (extract_skills_dict text) ->
       (exists kw, In kw skill_keywords /\ s = canonical_skill kw /\
                   occurs (lower kw) (normalize_text text)) \/
       (exists alias, In (alias, s) SKILL_ALIASES /\ occurs alias (normalize_text text))).
Proof.
  intro text. split; [|split; [|split]].
  - intros kw w Hk He _ Hw Hn. apply extract_skills_dict_In. split; [|apply keyword_facts; exact Hk].
    left. exists kw. split; [exact Hk|]. split; [|reflexivity].
    apply found_in_alone; [exact He|]. eapply normalized_alone; eassumption.
  - intros alias canon w Ha _ Hw Hn. destruct (alias_facts Ha) as [He [Hc Hs]].
    apply extract_skills_dict_In. split; [|exact Hs].
    right. exists (alias, canon). split; [exact Ha|]. cbn [fst snd]. split; [|symmetry; exact Hc].
    apply found_in_alone; [exact He|]. eapply normalized_alone; eassumption.
  - intros kw Hk. apply keyword_facts. exact Hk.
  - intros s Hs. apply extract_skills_dict_In in Hs.
    destruct Hs as [[[kw [Hk [Hf ->]]] | [[alias canon] [Ha [Hf ->]]]] _].
    + left. exists kw. split; [exact Hk|]. split; [reflexivity|]. apply found_in_occurs. exact Hf.
    + right. exists alias. cbn [fst snd] in *. destruct (alias_facts Ha) as [_ [Hc _]].
      rewrite Hc. split; [exact Ha | apply found_in_occurs; exact Hf].
Qed.

Lemma extract_skills_dict_finds_witness :
  In (canonical_skill (u "Spring Boot")) (extract_skills_dict (u "Java/SPRING_boot; k8s")) /\
  In (u "Node.js") (extract_skills_dict (u "(NodeJS)")).
Proof.
  split.
  - apply (proj1 (extract_skills_dict_finds (u "Java/SPRING_boot; k8s"))
             (u "Spring Boot") (u "SPRING_boot")).
    + apply mem_In. vm_compute. reflexivity.
    + vm_compute. reflexivity.
    + apply is_ascii_check. vm_compute. reflexivity.
    + exists (u "Java/"), (u "; k8s"). split; [reflexivity|]. split; right.
      * exists (u "Java"), 47%N. split; [reflexivity|]. unfold delimiter. split; [lia|]. split; reflexivity.
      * exists 59%N, (u " k8s"). split; [reflexivity|]. unfold delimiter. split; [lia|]. split; reflexivity.
    + vm_compute. reflexivity.
  - apply (proj1 (proj2 (extract_skills_dict_finds (u "(NodeJS)")))
             (u "nodejs") (u "Node.js") (u "NodeJS")).
    + cbn [SKILL_ALIASES In]. do 3 right. left. reflexivity.
    + apply is_ascii_check. vm_compute. reflexivity.
    + exists (u "("), (u ")"). split; [reflexivity|]. split; right.
      * exists [], 40%N. split; [reflexivity|]. unfold delimiter. split; [lia|]. split; reflexivity.
      * exists 41%N, []. split; [reflexivity|]. unfold delimiter. split; [lia|]. split; reflexivity.
    + vm_compute. reflexivity.
Defined.

(** X7. The keyword scikit-learn of the taxonomy is never reported: the
    normalised text holds no hyphen. *)
Theorem extract_skills_dict_never_hyphenated :
  forall text : str,
    In (u "scikit-learn") skill_keywords /\
    ~ In (canonical_skill (u "scikit-learn")) (extract_skills_dict text).
Proof.
  intro text. split; [apply mem_In; vm_compute; reflexivity|].
  intro H. apply extract_skills_dict_In in H. destruct H as [H _].
  assert (Hno : ~ occurs (u "scikit-learn") (normalize_text text)).
  { intros [a [b E]]. pose proof (normalize_text_chars text) as F.
    rewrite E in F. apply Forall_app in F. destruct F as [_ F].
    apply Forall_app in F. destruct F as [F _].
    assert (G : Forall (fun c => c = 32%N \/ kept c) [45%N]).
    { apply (Forall_cut 6) in F. destruct F as [_ F]. apply (Forall_cut 1) in F. apply F. }
    inversion G as [|? ? [C | C] _]; [discriminate C|].
    unfold kept in C. destruct C as [C | [C | [C | [C | C]]]]; discriminate C. }
  destruct H as [[kw [Hk [Hf E]]] | [[alias canon] [Ha [Hf E]]]].
  - assert (kw = u "scikit-learn").
    { assert (A : forallb (fun kw => negb (str_eqb (canonical_skill (u "scikit-learn")) (canonical_skill kw))
                                     || str_eqb kw (u "scikit-learn")) skill_keywords = true)
        by (vm_compute; reflexivity).
      rewrite forallb_forall in A. specialize (A kw Hk). rewrite E in A.
      rewrite str_eqb_refl in A. apply str_eqb_eq. exact A. }
    subst kw. apply Hno. apply found_in_occurs. exact Hf.
  - assert (A : forallb (fun a => negb (str_eqb (canonical_skill (u "scikit-learn")) (canonical_skill (snd a))))
                  SKILL_ALIASES = true) by (vm_compute; reflexivity).
    rewrite forallb_forall in A. specialize (A _ Ha). rewrite E, str_eqb_refl in A. discriminate A.
Qed.

(** ** Matches found by [re.finditer] *)

Lemma finditer_from_sound : forall f r sn rs m,
  In m (finditer_from f r sn rs) ->
  exists a w b cs, rev sn ++ rs = a ++ w ++ b /\
    matches r (MState (rev a) (w ++ b) []) (MState (rev w ++ rev a) b cs) /\
    m = RMatch (length a) (length a + length w) w cs.
Proof.
  induction f as [|f IH]; intros r sn rs m Hin; [destruct Hin|].
  cbn [finditer_from] in Hin.
  destruct (search_from r sn rs) as [m0|] eqn:Es; [|destruct Hin].
  assert (H0 : exists a w b cs, rev sn ++ rs = a ++ w ++ b /\
                 matches r (MState (rev a) (w ++ b) []) (MState (rev w ++ rev a) b cs) /\
                 m0 = RMatch (length a) (length a + length w) w cs).
  { apply search_from_sound in Es. destruct Es as [a [w [b [cs [Er [M [Em _]]]]]]].
    exists (rev sn ++ a), w, b, cs. rewrite rev_app_distr, rev_involutive.
    split; [rewrite Er, <- app_assoc; reflexivity|]. split; [exact M|].
    rewrite Em, length_app, length_rev. reflexivity. }
  assert (Hrec : forall sn' rs', rev sn' ++ rs' = rev sn ++ rs ->
                 In m (finditer_from f r sn' rs') ->
                 exists a w b cs, rev sn ++ rs = a ++ w ++ b /\
                   matches r (MState (rev a) (w ++ b) []) (MState (rev w ++ rev a) b cs) /\
                   m = RMatch (length a) (length a + length w) w cs).
  { intros sn' rs' E Hm. rewrite <- E. apply (IH r sn' rs' m Hm). }
  set (n := m_end m0 - length sn) in *.
  assert (Hsplit : rev (rev (firstn n rs) ++ sn) ++ skipn n rs = rev sn ++ rs).
  { rewrite rev_app_distr, rev_involutive, <- app_assoc, firstn_skipn. reflexivity. }
  destruct n as [|n'].
  - cbn [firstn skipn rev app] in *. destruct rs as [|c t].
    + destruct Hin as [<- | []]. exact H0.
    + destruct Hin as [<- | Hin]; [exact H0|].
      apply (Hrec (c :: sn) t); [|exact Hin]. cbn [rev]. rewrite <- app_assoc. reflexivity.
  - destruct Hin as [<- | Hin]; [exact H0|].
    apply (Hrec _ _ Hsplit Hin).
Qed.

Lemma finditer_sound : forall r text m,
  In m (finditer r text) ->
  exists a w b cs, text = a ++ w ++ b /\
    matches r (MState (rev a) (w ++ b) []) (MState (rev w ++ rev a) b cs) /\
    m = RMatch (length a) (length a + length w) w cs.
Proof. intros r text m H. apply finditer_from_sound in H. exact H. Qed.

Lemma fold_set_add_In : forall (A : Type) (f : A -> str) l acc x,
  In x (fold_left (fun acc a => set_add (f a) acc) l acc)
  <-> In x acc \/ exists a, In a l /\ x = f a.
Proof.
  intros A f. induction l as [|a l IH]; intros acc x; simpl.
  - split; [auto | intros [H | [a [[] _]]]; exact H].
  - rewrite IH, set_add_In. split.
    + intros [[-> | H] | [b [Hb ->]]]; [right; exists a; auto | left; exact H | right; exists b; auto].
    + intros [H | [b [[<- | Hb] ->]]]; [left; right; exact H | left; left; reflexivity |].
      right. exists b. auto.
Qed.

(** ** Organisations by suffix *)

Lemma org_reading : forall s s',
  matches ORG_RE s s' ->
  exists c body ws suf,
    rest s = c :: body ++ ws ++ suf ++ rest s' /\ is_upper c = true /\ body <> [] /\
    Forall (fun c => (is_alpha c || is_digit c || one_of (u "&.,- ") c) = true) body /\
    ws <> [] /\ all_space ws /\ In suf ORG_SUFFIXES.
Proof.
  intros s s' M. unfold ORG_RE, plus in M. cbn [seqs] in M.
  remember (alts (map lit ORG_SUFFIXES)) as R eqn:ER.
  apply matches_seq_inv in M. destruct M as [s1 [M1 M]].
  apply matches_wb_inv in M1. destruct M1 as [-> _].
  apply matches_seq_inv in M. destruct M as [s2 [M2 M]].
  apply matches_cls_inv in M2. destruct M2 as [c [Hc [R2 _]]].
  apply matches_seq_inv in M. destruct M as [s3 [M3 M]].
  apply matches_rep_inv in M3. destruct M3 as [body [Fb [Lb [_ [R3 _]]]]].
  apply matches_seq_inv in M. destruct M as [s4 [M4 M]].
  apply matches_rep_inv in M4. destruct M4 as [ws [Fw [Lw [_ [R4 _]]]]].
  apply matches_seq_inv in M. destruct M as [s5 [M5 M6]].
  apply matches_wb_inv in M6. destruct M6 as [E6 _]. subst s5.
  rewrite ER in M5. apply matches_alts in M5. destruct M5 as [r [Hr M5]].
  apply in_map_iff in Hr. destruct Hr as [suf [<- Hsuf]].
  apply matches_lit in M5. destruct M5 as [R5 _].
  exists c, body, ws, suf. rewrite R2, R3, R4, R5.
  split; [reflexivity|]. split; [exact Hc|].
  split; [intro C; subst body; simpl in Lb; lia|]. split; [exact Fb|].
  split; [intro C; subst ws; simpl in Lw; lia|]. split; [exact Fw | exact Hsuf].
Qed.

Lemma org_suffix_end : forall suf,
  In suf ORG_SUFFIXES -> exists x t, rev suf = x :: t /\ isspace x = false.
Proof.
  assert (H : forallb (fun suf => match rev suf with x :: _ => negb (isspace x) | [] => false end)
                ORG_SUFFIXES = true) by (vm_compute; reflexivity).
  rewrite forallb_forall in H. intros suf Hs. specialize (H suf Hs).
  destruct (rev suf) as [|x t]; [discriminate|]. exists x, t. split; [reflexivity|].
  apply negb_true_iff. exact H.
Qed.

Lemma is_upper_not_space : forall c, is_upper c = true -> isspace c = false.
Proof.
  intros c H. apply isspace_capital. unfold is_upper, in_range in H.
  apply andb_true_iff in H. destruct H as [H1 H2].
  apply N.leb_le in H1. apply N.leb_le in H2. lia.
Qed.

(** X8. Every organisation that [extract_orgs_dict] reports is a piece of
    the text that starts with an ASCII capital letter, goes on with one or
    more letters, digits, spaces or characters of [&.,-], then whitespace,
    and ends with one of the known suffixes; it has no whitespace at either
    end.  A text without ASCII capital letter has no organisation. *)
Theorem extract_orgs_dict_sound :
  forall text : str,
    (forall o, In o (extract_orgs_dict text) ->
       exists c body ws suf,
         o = c :: body ++ ws ++ suf /\ is_upper c = true /\ body <> [] /\
         Forall (fun c => (is_alpha c || is_digit c || one_of (u "&.,- ") c) = true) body /\
         ws <> [] /\ all_space ws /\ In suf ORG_SUFFIXES /\
         occurs o text /\ strip o = o) /\
    (Forall (fun c => is_upper c = false) text -> extract_orgs_dict text = []).
Proof.
  intro text.
  assert (H : forall o, In o (extract_orgs_dict text) ->
       exists c body ws suf,
         o = c :: body ++ ws ++ suf /\ is_upper c = true /\ body <> [] /\
         Forall (fun c => (is_alpha c || is_digit c || one_of (u "&.,- ") c) = true) body /\
         ws <> [] /\ all_space ws /\ In suf ORG_SUFFIXES /\
         occurs o text /\ strip o = o).
  { intros o Ho. unfold extract_orgs_dict in Ho. apply fold_set_add_In in Ho.
    destruct Ho as [[] | [m [Hm ->]]].
    apply finditer_sound in Hm. destruct Hm as [a [w [b [cs [Et [M ->]]]]]]. cbn [m_text].
    apply org_reading in M. cbn [rest] in M.
    destruct M as [c [body [ws [suf [Ew [Hc [Hb [Fb [Hw [Fw Hs]]]]]]]]]].
    assert (E : w = c :: body ++ ws ++ suf).
    { apply (app_inv_tail b). rewrite Ew. cbn [app]. rewrite <- !app_assoc. reflexivity. }
    assert (St : strip w = w).
    { rewrite E. apply strip_fixed.
      - cbn [no_lead]. apply is_upper_not_space. exact Hc.
      - destruct (org_suffix_end Hs) as [x [t [Er Hx]]].
        change (c :: body ++ ws ++ suf) with ([c] ++ body ++ ws ++ suf).
        rewrite !rev_app_distr, Er. cbn [app no_lead]. exact Hx. }
    rewrite St. exists c, body, ws, suf. split; [exact E|].
    repeat (split; [assumption|]). split; [exists a, b; exact Et | exact St]. }
  split; [exact H|].
  intro Hno. destruct (extract_orgs_dict text) as [|o l] eqn:E; [reflexivity | exfalso].
  destruct (H o (or_introl eq_refl)) as [c [body [ws [suf [Eo [Hc [_ [_ [_ [_ [_ [[a [b Et]] _]]]]]]]]]]]].
  rewrite Et, Eo in Hno. apply Forall_app in Hno. destruct Hno as [_ Hno].
  inversion Hno; subst. congruence.
Qed.

Lemma extract_orgs_dict_sound_witness :
  extract_orgs_dict (u "worked at acme labs, inc") = [].
Proof.
  apply (proj2 (extract_orgs_dict_sound (u "worked at acme labs, inc"))).
  apply Forall_forall. intros c Hc.
  assert (A : forallb (fun c => negb (is_upper c)) (u "worked at acme labs, inc") = true)
    by (vm_compute; reflexivity).
  rewrite forallb_forall in A. apply negb_true_iff. apply A. exact Hc.
Defined.

(** ** E-mail addresses *)

(** X9. The address that [extract_email_regex] returns is either empty or a
    piece of the text made of a non-empty local part over
    [A-Za-z0-9._%+-], the character [@], a non-empty domain over
    [A-Za-z0-9.-], a dot and at least two ASCII letters.  A text without
    [@] gives the empty string. *)
Theorem extract_email_regex_shape :
  forall text : str,
    (extract_email_regex text = [] \/
     exists loc dom tld,
       extract_email_regex text = loc ++ 64%N :: dom ++ 46%N :: tld /\
       loc <> [] /\
       Forall (fun c => (is_alpha c || is_digit c || one_of (u "._%+-") c) = true) loc /\
       dom <> [] /\
       Forall (fun c => (is_alpha c || is_digit c || one_of (u ".-") c) = true) dom /\
       2 <= length tld /\ Forall (fun c => is_alpha c = true) tld /\
       occurs (extract_email_regex text) text) /\
    (~ In 64%N text -> extract_email_regex text = []).
Proof.
  intro text.
  assert (H : extract_email_regex text = [] \/
     exists loc dom tld,
       extract_email_regex text = loc ++ 64%N :: dom ++ 46%N :: tld /\
       loc <> [] /\
       Forall (fun c => (is_alpha c || is_digit c || one_of (u "._%+-") c) = true) loc /\
       dom <> [] /\
       Forall (fun c => (is_alpha c || is_digit c || one_of (u ".-") c) = true) dom /\
       2 <= length tld /\ Forall (fun c => is_alpha c = true) tld /\
       occurs (extract_email_regex text) text).
  { unfold extract_email_regex.
    destruct (re_search EMAIL_RE text) as [m|] eqn:Es; [right | left; reflexivity].
    apply search_from_sound in Es. destruct Es as [a [w [b [cs [Et [M [-> _]]]]]]]. cbn [m_text].
    unfold EMAIL_RE, plus, chr in M. cbn [seqs] in M.
    apply matches_seq_inv in M. destruct M as [s1 [M1 M]].
    apply matches_rep_inv in M1. destruct M1 as [loc [Fl [Ll [_ [R1 _]]]]].
    apply matches_seq_inv in M. destruct M as [s2 [M2 M]].
    apply matches_cls_inv in M2. destruct M2 as [c2 [H2 [R2 _]]].
    apply N.eqb_eq in H2. subst c2.
    apply matches_seq_inv in M. destruct M as [s3 [M3 M]].
    apply matches_rep_inv in M3. destruct M3 as [dom [Fd [Ld [_ [R3 _]]]]].
    apply matches_seq_inv in M. destruct M as [s4 [M4 M5]].
    apply matches_cls_inv in M4. destruct M4 as [c4 [H4 [R4 _]]].
    apply N.eqb_eq in H4. subst c4.
    apply matches_rep_inv in M5. destruct M5 as [tld [Ft [Lt [_ [R5 _]]]]].
    cbn [rest] in *.
    assert (E : w = loc ++ 64%N :: dom ++ 46%N :: tld).
    { apply (app_inv_tail b). rewrite R1, R2, R3, R4, R5, <- !app_assoc. cbn [app].
      rewrite <- !app_assoc. reflexivity. }
    exists loc, dom, tld. split; [exact E|].
    split; [intro C; subst loc; simpl in Ll; lia|]. split; [exact Fl|].
    split; [intro C; subst dom; simpl in Ld; lia|]. split; [exact Fd|].
    split; [exact Lt|]. split; [exact Ft|]. exists a, b. exact Et. }
  split; [exact H|].
  intro Hno. destruct H as [H | [loc [dom [tld [E [_ [_ [_ [_ [_ [_ [a [b Et]]]]]]]]]]]]]; [exact H|].
  exfalso. apply Hno. rewrite Et, E, !in_app_iff. right. left. right. left. reflexivity.
Qed.

Lemma extract_email_regex_shape_witness :
  extract_email_regex (u "jane.doe at example.com") = [].
Proof.
  apply (proj2 (extract_email_regex_shape (u "jane.doe at example.com"))).
  intro H. vm_compute in H. repeat (destruct H as [H | H]; [discriminate H|]). exact H.
Defined.

(** ** Dictionaries *)

Lemma dict_set_In : forall (V : Type) key (val : V) d k v,
  In (k, v) (dict_set key val d) -> (k = key /\ v = val) \/ In (k, v) d.
Proof.
  intros V key val. induction d as [|[k0 v0] d IH]; intros k v H; cbn [dict_set] in H.
  - destruct H as [H | []]. inversion H. left. split; reflexivity.
  - destruct (str_eqb key k0) eqn:E.
    + apply str_eqb_eq in E. subst k0. destruct H as [H | H].
      * inversion H. left. split; reflexivity.
      * right. right. exact H.
    + destruct H as [H | H]; [right; left; exact H|].
      apply IH in H. destruct H as [H | H]; [left; exact H | right; right; exact H].
Qed.

Lemma dict_set_keys : forall (V : Type) key (val : V) d,
  map fst (dict_set key val d) = if mem key (map fst d) then map fst d else map fst d ++ [key].
Proof.
  intros V key val. induction d as [|[k0 v0] d IH]; cbn [dict_set map fst mem]; [reflexivity|].
  destruct (str_eqb key k0) eqn:E; cbn [orb map fst]; [reflexivity|].
  rewrite IH. destruct (mem key (map fst d)); reflexivity.
Qed.

Lemma dict_set_NoDup : forall (V : Type) key (val : V) d,
  NoDup (map fst d) -> NoDup (map fst (dict_set key val d)).
Proof.
  intros V key val d H. rewrite dict_set_keys.
  change (NoDup (set_add key (map fst d))). apply set_add_NoDup. exact H.
Qed.

Lemma dict_get_In : forall (V : Type) key d (v : V),
  dict_get key d = Some v -> In (key, v) d.
Proof.
  intros V key. induction d as [|[k0 v0] d IH]; intros v H; cbn [dict_get] in H; [discriminate|].
  destruct (str_eqb key k0) eqn:E.
  - apply str_eqb_eq in E. subst k0. inversion H. left. reflexivity.
  - right. apply IH. exact H.
Qed.

(** ** Section keys and contents *)

Lemma strip_keeps : forall c t x, isspace c = false -> strip ((c :: t) ++ x) <> [].
Proof.
  intros c t x Hc. unfold strip. cbn [app lstrip]. rewrite Hc. unfold rstrip.
  cbn [rev]. destruct (@lstrip_snoc (rev (t ++ x)) c Hc) as [l' E]. rewrite E, rev_app_distr.
  discriminate.
Qed.

Lemma collect_sections_inv : forall (K : str -> Prop) text ms sections,
  Forall (fun m => K (canon_of m)) ms ->
  NoDup (map fst sections) ->
  (forall k v, In (k, v) sections -> K k /\ strip v = v /\ v <> []) ->
  NoDup (map fst (collect_sections text ms sections)) /\
  (forall k v, In (k, v) (collect_sections text ms sections) -> K k /\ strip v = v /\ v <> []).
Proof.
  intros K text. induction ms as [|m ms IH]; intros sections Hm Hnd Hs; [split; assumption|].
  inversion Hm as [|? ? Hk Hm']; subst. cbn [collect_sections]. fold (canon_of m).
  set (content := strip (slice text (m_end m)
                    match ms with m' :: _ => m_start m' | [] => length text end)).
  destruct (truthy content) eqn:Ec; [|apply IH; assumption].
  assert (Hc : content <> []) by (intro C; rewrite C in Ec; discriminate).
  apply IH; [exact Hm' | apply dict_set_NoDup; exact Hnd |].
  intros k v Hin. apply dict_set_In in Hin. destruct Hin as [[-> ->] | Hin]; [|apply Hs; exact Hin].
  split; [exact Hk|].
  destruct (dict_get (canon_of m) sections) as [prev|] eqn:Eg.
  - destruct (truthy prev) eqn:Ep.
    + split; [apply strip_idem|]. apply dict_get_In in Eg. apply Hs in Eg.
      destruct Eg as [_ [Sp Np]]. destruct prev as [|c t]; [contradiction|].
      apply strip_keeps. pose proof (strip_no_lead (c :: t)) as Hl. rewrite Sp in Hl. exact Hl.
    + split; [apply strip_idem | exact Hc].
  - cbn [truthy]. split; [apply strip_idem | exact Hc].
Qed.

Lemma groupless_heading_words : groupless (alts (map lit_i HEADING_WORDS)) = true.
Proof.
  apply groupless_alts. apply Forall_forall. intros r Hr.
  apply in_map_iff in Hr. destruct Hr as [s [<- _]]. apply groupless_lit_i.
Qed.

(** What the group [head] of a heading match holds. *)
Lemma heading_group : forall sn rs s',
  matches HEADING_PATTERN (MState sn rs []) s' ->
  exists h syn, group g_head (caps s') = h /\ In syn HEADING_WORDS /\ same_fold h syn /\
                occurs h rs.
Proof.
  intros sn rs s' M. unfold HEADING_PATTERN, seqs, opt, star, chr in M.
  remember (alts (map lit_i HEADING_WORDS)) as R eqn:ER.
  apply matches_seq_inv in M. destruct M as [s1 [M1 M]].
  apply matches_bol_inv in M1. destruct M1 as [-> _].
  apply matches_seq_inv in M. destruct M as [s2 [M2 M]].
  apply matches_rep_inv in M2. destruct M2 as [w1 [_ [_ [_ [R1 [_ C1]]]]]].
  apply matches_seq_inv in M. destruct M as [s3 [M3 M]].
  assert (Hg : groupless R = true) by (rewrite ER; apply groupless_heading_words).
  destruct (matches_group M3 Hg) as [w [Rw [_ Cw]]].
  apply matches_grp_inv in M3. destruct M3 as [s3' [Mg [Rg _]]].
  rewrite ER in Mg. apply matches_alts in Mg. destruct Mg as [r [Hr Mg]].
  apply in_map_iff in Hr. destruct Hr as [syn [<- Hsyn]].
  apply matches_lit_i in Mg. destruct Mg as [h [Rh [_ Fh]]].
  assert (Ew : w = h).
  { apply (app_inv_tail (rest s3)). rewrite <- Rw, Rg. exact Rh. }
  subst w.
  apply matches_groupless in M; [|reflexivity]. destruct M as [w' [Rt [_ Ct]]].
  cbn [rest caps] in *. exists h, syn.
  split; [rewrite Ct, Cw, C1; cbn [group g_head Nat.eqb]; reflexivity|].
  split; [exact Hsyn|]. split; [exact Fh|].
  exists w1, (rest s3). rewrite R1, Rw. reflexivity.
Qed.

Lemma fold_c_ascii : forall c, (c < 128)%N -> fold_c c = lower_c c.
Proof.
  intros c H. unfold fold_c, long_s.
  destruct (N.eqb_spec c 304); [lia|]. destruct (N.eqb_spec c 305); [lia|].
  destruct (N.eqb_spec c 383); [lia|]. destruct (N.eqb_spec c 8490); [lia|]. reflexivity.
Qed.

Lemma isspace_lower_c : forall c, isspace (lower_c c) = isspace c.
Proof.
  intro c. unfold lower_c. destruct (is_upper c) eqn:E; [|reflexivity].
  rewrite (is_upper_not_space _ E). unfold is_upper, in_range in E.
  apply andb_true_iff in E. destruct E as [E1 E2]. apply N.leb_le in E1. apply N.leb_le in E2.
  unfold isspace, in_range. cmp_cases; reflexivity.
Qed.

Lemma lower_lstrip : forall s, lower (lstrip s) = lstrip (lower s).
Proof.
  induction s as [|c t IH]; [reflexivity|]. cbn [lstrip lower map].
  rewrite isspace_lower_c. destruct (isspace c); [exact IH | reflexivity].
Qed.

Lemma lower_strip : forall s, lower (strip s) = strip (lower s).
Proof.
  intro s. unfold strip, rstrip. unfold lower at 1. rewrite map_rev. fold (lower (lstrip (rev (lstrip s)))).
  rewrite lower_lstrip. unfold lower at 1. rewrite map_rev. fold (lower (lstrip s)).
  rewrite lower_lstrip. reflexivity.
Qed.

Lemma heading_word_facts : forall syn,
  In syn HEADING_WORDS ->
  map fold_c syn = syn /\ strip syn = syn /\
  exists c, dict_get syn CANONICAL_BY_SYNONYM = Some c /\ In c section_names.
Proof.
  assert (H : forallb (fun syn => str_eqb (map fold_c syn) syn && str_eqb (strip syn) syn
                         && match dict_get syn CANONICAL_BY_SYNONYM with
                            | Some c => mem c section_names
                            | None => false
                            end) HEADING_WORDS = true) by (vm_compute; reflexivity).
  rewrite forallb_forall in H. intros syn Hs. specialize (H syn Hs).
  apply andb_true_iff in H. destruct H as [H H3]. apply andb_true_iff in H. destruct H as [H1 H2].
  split; [apply str_eqb_eq; exact H1|]. split; [apply str_eqb_eq; exact H2|].
  destruct (dict_get syn CANONICAL_BY_SYNONYM) as [c|]; [|discriminate].
  exists c. split; [reflexivity | apply mem_In; exact H3].
Qed.

Lemma is_ascii_piece : forall a w b, is_ascii (a ++ w ++ b) -> is_ascii w.
Proof.
  intros a w b H. unfold is_ascii in *. apply Forall_app in H. destruct H as [_ H].
  apply Forall_app in H. apply H.
Qed.

(** In an ASCII text every heading match is filed under a canonical name. *)
Lemma heading_canon : forall text m,
  is_ascii text -> In m (finditer HEADING_PATTERN text) -> In (canon_of m) section_names.
Proof.
  intros text m Ha Hm. apply finditer_sound in Hm.
  destruct Hm as [a [w [b [cs [Et [M ->]]]]]].
  apply heading_group in M. cbn [caps] in M. destruct M as [h [syn [Eg [Hs [Fh [x [y Eh]]]]]]].
  destruct (heading_word_facts Hs) as [F1 [F2 [c [Ec Hc]]]].
  assert (Ah : is_ascii h).
  { rewrite Et in Ha. unfold is_ascii in Ha. apply Forall_app in Ha. destruct Ha as [_ Ha].
    rewrite Eh in Ha. apply is_ascii_piece in Ha. exact Ha. }
  assert (El : lower h = syn).
  { unfold same_fold in Fh. rewrite F1 in Fh. rewrite <- Fh. unfold lower.
    apply map_ext_in. intros c0 Hc0. symmetry. apply fold_c_ascii.
    unfold is_ascii in Ah. rewrite Forall_forall in Ah. apply Ah. exact Hc0. }
  unfold canon_of. cbn [m_caps]. rewrite Eg, lower_strip, El, F2, Ec. exact Hc.
Qed.

(** X10. The sections that [split_resume_sections] returns have distinct
    keys and contents without whitespace at either end; a content is empty
    only when the whole text is whitespace.  When the text is ASCII every
    key is one of the canonical section names experience, education,
    projects, skills, certifications and summary. *)
Theorem split_resume_sections_canonical :
  forall text : str,
    NoDup (map fst (split_resume_sections text)) /\
    (forall k v, In (k, v) (split_resume_sections text) ->
       strip v = v /\ (strip text <> [] -> v <> [])) /\
    (is_ascii text ->
     forall k v, In (k, v) (split_resume_sections text) -> In k section_names).
Proof.
  intro text. unfold split_resume_sections.
  destruct (truthy text) eqn:Et; cbn [negb];
    [|split; [constructor | split; [intros k v [] | intros _ k v []]]].
  destruct (finditer HEADING_PATTERN text) as [|m ms] eqn:Ef.
  - split; [repeat constructor; intros []|]. split.
    + intros k v [H | []]. inversion H; subst. split; [apply strip_idem | auto].
    + intros _ k v [H | []]. inversion H; subst. apply mem_In. vm_compute. reflexivity.
  - split; [|split].
    + apply (@collect_sections_inv (fun _ => True)); [apply Forall_forall; auto | constructor |].
      intros k v [].
    + intros k v H.
      destruct (@collect_sections_inv (fun _ => True) text (m :: ms) []) as [_ Hv];
        [apply Forall_forall; auto | constructor | intros ? ? [] |].
      destruct (Hv k v H) as [_ [Hs Hn]]. split; [exact Hs | intros _; exact Hn].
    + intros Ha k v H.
      destruct (@collect_sections_inv (fun k => In k section_names) text (m :: ms) []) as [_ Hv];
        [| constructor | intros ? ? [] |].
      * apply Forall_forall. intros m' Hm'. apply (@heading_canon text m' Ha). rewrite Ef. exact Hm'.
      * apply (Hv k v H).
Qed.

Lemma split_resume_sections_canonical_witness :
  Forall (fun kv => In (fst kv) section_names)
    (split_resume_sections (u "WORK HISTORY:" ++ [10%N] ++ u "Acme" ++ [10%N]
                            ++ u "Employment" ++ [10%N] ++ u "Initech")).
Proof.
  apply Forall_forall. intros [k v] H.
  revert k v H. apply (proj2 (proj2 (split_resume_sections_canonical _))).
  apply is_ascii_check. vm_compute. reflexivity.
Defined.

(** ** The response of the request handler *)

Section ResponseFacts.
Variable nlp : str -> Doc.
Variable matcher : Doc -> list (nat * nat * nat).
Variable set_iter : list str -> list str.
Variables use_ml ml_available ruler : bool.

(** The response to a text that passed validation, field by field. *)
Lemma extract_response : forall text,
  snd (extract nlp matcher set_iter use_ml ml_available ruler text) =
  Parsed (MkResult
    (or_str (if use_ml && ml_available then extract_name_ml (ents (nlp text)) else [])
            (extract_name_fallback text))
    (or_str (extract_email_spacy (tokens (nlp text))) (extract_email_regex text))
    (extract_phone_number text)
    (merge_sets set_iter
       [ if use_ml && ml_available then fst (fst (extract_entities_ml (ents (nlp text)))) else [];
         extract_skills_dict text;
         if ruler then ruler_skills_of (ents (nlp text)) else [] ])
    (merge_sets set_iter
       [ if use_ml && ml_available then snd (fst (extract_entities_ml (ents (nlp text)))) else [];
         extract_job_titles_dict text ])
    (merge_sets set_iter
       [ extract_orgs_dict text;
         if use_ml && ml_available then snd (extract_entities_ml (ents (nlp text))) else [] ])
    (extract_experience nlp matcher set_iter
       match dict_get (u "experience") (split_resume_sections text) with
       | Some v => v
       | None => []
       end)
    []).
Proof.
  intro text. unfold extract, bind, call, ret.
  destruct (use_ml && ml_available); destruct ruler;
    try (destruct (extract_entities_ml (ents (nlp text))) as [[a b] c]); reflexivity.
Qed.

Lemma extract_trace : forall text,
  fst (extract nlp matcher set_iter use_ml ml_available ruler text) =
  [Pipeline; Segmenter; ExperienceMatcher]
  ++ (if use_ml && ml_available then [ModelExtractor; ModelExtractor] else [])
  ++ (if ruler then [RulerExtractor] else [])
  ++ [NameFallback; EmailRegex; PhoneRegex; SkillsDict; TitlesDict; OrgsDict; Merger; Merger; Merger].
Proof.
  intro text. unfold extract, bind, call, ret.
  destruct (use_ml && ml_available); destruct ruler;
    try (destruct (extract_entities_ml (ents (nlp text))) as [[a b] c]); reflexivity.
Qed.
End ResponseFacts.

(** ** Entities of the learned model *)

Lemma extract_entities_ml_from : forall es acc,
  let res := fold_left (fun acc ent =>
    let '(skills, titles, orgs) := acc in
    if str_eqb (label_ ent) (u "SKILL") then
      let s := canonical_skill (ent_text ent) in
      if negb (mem (lower s) SKILL_STOPWORDS) then (set_add s skills, titles, orgs) else acc
    else if str_eqb (label_ ent) (u "JOB_TITLE") then (skills, set_add (ent_text ent) titles, orgs)
    else if is_org_label (label_ ent) then (skills, titles, set_add (ent_text ent) orgs)
    else acc) es acc in
  (forall s, In s (fst (fst res)) <->
     In s (fst (fst acc)) \/
     exists e, In e es /\ label_ e = u "SKILL" /\ s = canonical_skill (ent_text e) /\
               ~ In (lower s) SKILL_STOPWORDS) /\
  (forall t, In t (snd (fst res)) <->
     In t (snd (fst acc)) \/ exists e, In e es /\ label_ e = u "JOB_TITLE" /\ t = ent_text e) /\
  (forall o, In o (snd res) <->
     In o (snd acc) \/
     exists e, In e es /\ (label_ e = u "ORG" \/ label_ e = u "ORGANIZATION") /\ o = ent_text e).
Proof.
  induction es as [|e es IH]; intros acc; cbn [fold_left].
  - cbn zeta. repeat split; auto; intros [H | [e [[] _]]]; exact H.
  - cbn zeta in *. destruct acc as [[S T] O].
    destruct (str_eqb (label_ e) (u "SKILL")) eqn:E1.
    { apply str_eqb_eq in E1.
      destruct (mem (lower (canonical_skill (ent_text e))) SKILL_STOPWORDS) eqn:Em; cbn [negb].
      - destruct (IH (S, T, O)) as [H1 [H2 H3]]. cbn [fst snd] in *. split; [|split].
        + intro s. rewrite H1. split.
          * intros [H | [x [Hx R]]]; [left; exact H | right; exists x; split; [right; exact Hx | exact R]].
          * intros [H | [x [[<- | Hx] [L [-> N]]]]]; [left; exact H | | right; exists x; auto].
            exfalso. apply N. apply mem_In. exact Em.
        + intro t. rewrite H2. split.
          * intros [H | [x [Hx R]]]; [left; exact H | right; exists x; split; [right; exact Hx | exact R]].
          * intros [H | [x [[<- | Hx] [L ->]]]]; [left; exact H | | right; exists x; auto].
            rewrite E1 in L. discriminate L.
        + intro o. rewrite H3. split.
          * intros [H | [x [Hx R]]]; [left; exact H | right; exists x; split; [right; exact Hx | exact R]].
          * intros [H | [x [[<- | Hx] [L ->]]]]; [left; exact H | | right; exists x; auto].
            rewrite E1 in L. destruct L as [L | L]; discriminate L.
      - destruct (IH (set_add (canonical_skill (ent_text e)) S, T, O)) as [H1 [H2 H3]].
        cbn [fst snd] in *. split; [|split].
        + intro s. rewrite H1, set_add_In. split.
          * intros [[-> | H] | [x [Hx R]]]; [right; exists e | left; exact H | right; exists x; split; [right; exact Hx | exact R]].
            split; [left; reflexivity|]. split; [exact E1|]. split; [reflexivity|].
            intro C. apply mem_In in C. congruence.
          * intros [H | [x [[<- | Hx] [L [-> N]]]]]; [left; right; exact H | left; left; reflexivity |].
            right. exists x. auto.
        + intro t. rewrite H2. split.
          * intros [H | [x [Hx R]]]; [left; exact H | right; exists x; split; [right; exact Hx | exact R]].
          * intros [H | [x [[<- | Hx] [L ->]]]]; [left; exact H | | right; exists x; auto].
            rewrite E1 in L. discriminate L.
        + intro o. rewrite H3. split.
          * intros [H | [x [Hx R]]]; [left; exact H | right; exists x; split; [right; exact Hx | exact R]].
          * intros [H | [x [[<- | Hx] [L ->]]]]; [left; exact H | | right; exists x; auto].
            rewrite E1 in L. destruct L as [L | L]; discriminate L. }
    assert (N1 : label_ e <> u "SKILL").
    { intro C. rewrite C in E1. discriminate E1. }
    destruct (str_eqb (label_ e) (u "JOB_TITLE")) eqn:E2.
    { apply str_eqb_eq in E2.
      destruct (IH (S, set_add (ent_text e) T, O)) as [H1 [H2 H3]].
      cbn [fst snd] in *. split; [|split].
      - intro s. rewrite H1. split.
        + intros [H | [x [Hx R]]]; [left; exact H | right; exists x; split; [right; exact Hx | exact R]].
        + intros [H | [x [[<- | Hx] [L R]]]]; [left; exact H | contradiction | right; exists x; auto].
      - intro t. rewrite H2, set_add_In. split.
        + intros [[-> | H] | [x [Hx R]]]; [right; exists e; auto | left; exact H |].
          * split; [left; reflexivity | split; [exact E2 | reflexivity]].
          * right. exists x. split; [right; exact Hx | exact R].
        + intros [H | [x [[<- | Hx] [L ->]]]]; [left; right; exact H | left; left; reflexivity |].
          right. exists x. auto.
      - intro o. rewrite H3. split.
        + intros [H | [x [Hx R]]]; [left; exact H | right; exists x; split; [right; exact Hx | exact R]].
        + intros [H | [x [[<- | Hx] [L ->]]]]; [left; exact H | | right; exists x; auto].
          rewrite E2 in L. destruct L as [L | L]; discriminate L. }
    assert (N2 : label_ e <> u "JOB_TITLE").
    { intro C. rewrite C in E2. discriminate E2. }
    destruct (is_org_label (label_ e)) eqn:E3.
    { assert (L3 : label_ e = u "ORG" \/ label_ e = u "ORGANIZATION").
      { unfold is_org_label in E3. apply mem_In in E3. destruct E3 as [E3 | [E3 | []]]; auto. }
      destruct (IH (S, T, set_add (ent_text e) O)) as [H1 [H2 H3]].
      cbn [fst snd] in *. split; [|split].
      - intro s. rewrite H1. split.
        + intros [H | [x [Hx R]]]; [left; exact H | right; exists x; split; [right; exact Hx | exact R]].
        + intros [H | [x [[<- | Hx] [L R]]]]; [left; exact H | contradiction | right; exists x; auto].
      - intro t. rewrite H2. split.
        + intros [H | [x [Hx R]]]; [left; exact H | right; exists x; split; [right; exact Hx | exact R]].
        + intros [H | [x [[<- | Hx] [L R]]]]; [left; exact H | contradiction | right; exists x; auto].
      - intro o. rewrite H3, set_add_In. split.
        + intros [[-> | H] | [x [Hx R]]]; [right; exists e | left; exact H |].
          * split; [left; reflexivity | split; [exact L3 | reflexivity]].
          * right. exists x. split; [right; exact Hx | exact R].
        + intros [H | [x [[<- | Hx] [L ->]]]]; [left; right; exact H | left; left; reflexivity |].
          right. exists x. auto. }
    assert (N3 : ~ (label_ e = u "ORG" \/ label_ e = u "ORGANIZATION")).
    { intro C. unfold is_org_label in E3. assert (M : mem (label_ e) [u "ORG"; u "ORGANIZATION"] = true).
      { apply mem_In. destruct C as [C | C]; [left | right; left]; symmetry; exact C. }
      congruence. }
    destruct (IH (S, T, O)) as [H1 [H2 H3]]. cbn [fst snd] in *. split; [|split].
    + intro s. rewrite H1. split.
      * intros [H | [x [Hx R]]]; [left; exact H | right; exists x; split; [right; exact Hx | exact R]].
      * intros [H | [x [[<- | Hx] [L R]]]]; [left; exact H | contradiction | right; exists x; auto].
    + intro t. rewrite H2. split.
      * intros [H | [x [Hx R]]]; [left; exact H | right; exists x; split; [right; exact Hx | exact R]].
      * intros [H | [x [[<- | Hx] [L R]]]]; [left; exact H | contradiction | right; exists x; auto].
    + intro o. rewrite H3. split.
      * intros [H | [x [Hx R]]]; [left; exact H | right; exists x; split; [right; exact Hx | exact R]].
      * intros [H | [x [[<- | Hx] [L R]]]]; [left; exact H | contradiction | right; exists x; auto].
Qed.

(** X15. [extract_entities_ml] files the entities by label: the skills are
    the canonical names of the SKILL entities that are not stop words, the
    titles are the texts of the JOB_TITLE entities and the organisations
    the texts of the ORG and ORGANIZATION entities; entities with another
    label contribute nothing. *)
Theorem extract_entities_ml_by_label :
  forall es : list Ent,
    (forall s, In s (fst (fst (extract_entities_ml es))) <->
       exists e, In e es /\ label_ e = u "SKILL" /\ s = canonical_skill (ent_text e) /\
                 ~ In (lower s) SKILL_STOPWORDS) /\
    (forall t, In t (snd (fst (extract_entities_ml es))) <->
       exists e, In e es /\ label_ e = u "JOB_TITLE" /\ t = ent_text e) /\
    (forall o, In o (snd (extract_entities_ml es)) <->
       exists e, In e es /\ (label_ e = u "ORG" \/ label_ e = u "ORGANIZATION") /\ o = ent_text e).
Proof.
  intro es. destruct (extract_entities_ml_from es ([], [], [])) as [H1 [H2 H3]].
  fold (extract_entities_ml es) in H1, H2, H3. cbn [fst snd] in *.
  split; [|split].
  - intro s. rewrite H1. split; [intros [[] | H]; exact H | auto].
  - intro t. rewrite H2. split; [intros [[] | H]; exact H | auto].
  - intro o. rewrite H3. split; [intros [[] | H]; exact H | auto].
Qed.

(** ** The canonical name of a skill *)

Lemma alias_value_facts : forall key v,
  dict_get key SKILL_ALIASES = Some v -> strip v = v /\ v <> [].
Proof.
  intros key v H. apply dict_get_In in H.
  assert (A : forallb (fun a => str_eqb (strip (snd a)) (snd a) && truthy (snd a)) SKILL_ALIASES = true)
    by (vm_compute; reflexivity).
  rewrite forallb_forall in A. specialize (A _ H). cbn [snd] in A.
  apply andb_true_iff in A. destruct A as [A1 A2].
  split; [apply str_eqb_eq; exact A1 | intro C; rewrite C in A2; discriminate].
Qed.

Lemma upper_is_aws : forall t, ~ In long_s t -> upper t = u "AWS" -> lower t = u "aws".
Proof.
  intros t Hn H. destruct t as [|c1 [|c2 [|c3 [|c4 t]]]]; try discriminate.
  unfold upper, lower in *. simpl in *. inversion H as [[H1 H2 H3]]. clear H.
  assert (L : forall c v, c <> long_s -> upper_c c = v -> (v = 65 \/ v = 87 \/ v = 83)%N ->
                lower_c c = (v + 32)%N).
  { intros c v Hl Hc Hv. char_cases. }
  rewrite (L c1 _ (fun C => Hn (or_introl C)) H1),
          (L c2 _ (fun C => Hn (or_intror (or_introl C))) H2),
          (L c3 _ (fun C => Hn (or_intror (or_intror (or_introl C)))) H3);
    [reflexivity| | |]; lia.
Qed.

Lemma is_ascii_no_long_s : forall s, is_ascii s -> ~ In long_s s.
Proof.
  intros s H C. unfold is_ascii in H. rewrite Forall_forall in H. apply H in C.
  unfold long_s in C. lia.
Qed.

Lemma is_ascii_strip : forall s, is_ascii s -> is_ascii (strip s).
Proof.
  intros s H. destruct (strip_split s) as [a [b [E _]]]. rewrite E in H.
  apply is_ascii_piece in H. exact H.
Qed.

(** The branches of [canonical_skill] that can be taken. *)
Lemma canonical_skill_branches : forall x,
  (exists v, dict_get (lower (strip x)) SKILL_ALIASES = Some v /\ canonical_skill x = v) \/
  (dict_get (lower (strip x)) SKILL_ALIASES = None /\
   ((upper (strip x) = u "AWS" /\ canonical_skill x = u "AWS") \/
    (mem (lower (strip x)) [u "c++"; u "c#"; u ".net"] = true /\ canonical_skill x = strip x) \/
    (mem (lower (strip x)) [u "c++"; u "c#"; u ".net"] = false /\
     canonical_skill x = capitalize (strip x)))).
Proof.
  intro x. unfold canonical_skill, capitalize. set (t := strip x).
  destruct (dict_get (lower t) SKILL_ALIASES) as [v|] eqn:Ea; [left; exists v; auto | right].
  split; [reflexivity|].
  destruct (mem (lower t) [u "node"; u "nodejs"]) eqn:E1.
  { apply mem_In in E1. destruct E1 as [E1 | [E1 | []]]; rewrite <- E1 in Ea;
      vm_compute in Ea; discriminate. }
  destruct (mem (lower t) [u "reactjs"; u "react.js"]) eqn:E2.
  { apply mem_In in E2. destruct E2 as [E2 | [E2 | []]]; rewrite <- E2 in Ea;
      vm_compute in Ea; discriminate. }
  destruct (str_eqb (lower t) (u "postgres")) eqn:E3.
  { apply str_eqb_eq in E3. rewrite E3 in Ea. vm_compute in Ea. discriminate. }
  destruct (mem (upper t) [u "AWS"; u "GCP"]) eqn:Eu.
  { apply mem_In in Eu. destruct Eu as [Eu | [Eu | []]].
    - left. split; symmetry; exact Eu.
    - exfalso. symmetry in Eu. apply upper_is_gcp in Eu. rewrite Eu in Ea.
      vm_compute in Ea. discriminate. }
  right. destruct (mem (lower t) [u "c++"; u "c#"; u ".net"]); [left | right]; split; reflexivity.
Qed.

Lemma canonical_skill_stripped : forall x, strip (canonical_skill x) = canonical_skill x.
Proof.
  intro x.
  destruct (canonical_skill_branches x) as [[v [Ea ->]] | [_ [[_ ->] | [[_ ->] | [_ ->]]]]].
  - apply (alias_value_facts _ Ea).
  - vm_compute. reflexivity.
  - apply strip_idem.
  - unfold capitalize. destruct (strip x) as [|c t'] eqn:Et; [reflexivity|].
    change (upper (firstn 1 (c :: t')) ++ skipn 1 (c :: t')) with (upper_c c :: t').
    apply capitalized_stripped; rewrite <- Et; [apply strip_no_lead | apply strip_no_trail].
Qed.

(** X14. The canonical name of a skill has no whitespace at either end and
    is empty only for a blank token.  For an ASCII token it is the alias
    value when the stripped, lower-cased token is an alias; otherwise the
    stripped token itself when that is c++, c# or .net in any letter case,
    and else the stripped token with its first character in upper case. *)
Theorem canonical_skill_result :
  forall x : str,
    strip (canonical_skill x) = canonical_skill x /\
    (strip x <> [] -> canonical_skill x <> []) /\
    (is_ascii x ->
     canonical_skill x =
     match dict_get (lower (strip x)) SKILL_ALIASES with
     | Some v => v
     | None => if mem (lower (strip x)) [u "c++"; u "c#"; u ".net"] then strip x
               else capitalize (strip x)
     end).
Proof.
  intro x. split; [apply canonical_skill_stripped|].
  destruct (canonical_skill_branches x) as [[v [Ea E]] | [Ea [[Eu E] | [[El E] | [El E]]]]];
    rewrite E, Ea.
  - split; [intros _; apply (alias_value_facts _ Ea) | reflexivity].
  - split; [intros _; discriminate|]. intro Hx. exfalso. apply upper_is_aws in Eu.
    + rewrite Eu in Ea. vm_compute in Ea. discriminate.
    + apply is_ascii_no_long_s. apply is_ascii_strip. exact Hx.
  - rewrite El. split; [auto | reflexivity].
  - rewrite El. split; [|reflexivity]. unfold capitalize.
    destruct (strip x) as [|c t']; [contradiction | discriminate].
Qed.

Lemma canonical_skill_result_witness :
  strip (u " c#  ") <> [] /\ canonical_skill (u " c#  ") = u "c#" /\
  canonical_skill (u "kubernetes") = u "Kubernetes".
Proof.
  split; [vm_compute; discriminate|]. split.
  - rewrite (proj2 (proj2 (canonical_skill_result (u " c#  ")))); [vm_compute; reflexivity|].
    apply is_ascii_check. vm_compute. reflexivity.
  - rewrite (proj2 (proj2 (canonical_skill_result (u "kubernetes")))); [vm_compute; reflexivity|].
    apply is_ascii_check. vm_compute. reflexivity.
Defined.

(** ** Requests and responses *)

Lemma ruler_skills_from : forall es acc,
  Forall (fun s => strip s = s /\ ~ In (lower s) SKILL_STOPWORDS) acc ->
  Forall (fun s => strip s = s /\ ~ In (lower s) SKILL_STOPWORDS)
    (fold_left (fun acc ent =>
       if str_eqb (label_ ent) (u "SKILL") then
         let s := canonical_skill (ent_text ent) in
         if negb (mem (lower s) SKILL_STOPWORDS) then set_add s acc else acc
       else acc) es acc).
Proof.
  induction es as [|e es IH]; intros acc H; cbn [fold_left]; [exact H|].
  apply IH. destruct (str_eqb (label_ e) (u "SKILL")); [|exact H]. cbn zeta.
  destruct (mem (lower (canonical_skill (ent_text e))) SKILL_STOPWORDS) eqn:Em; cbn [negb]; [exact H|].
  apply Forall_forall. intros s Hs. apply set_add_In in Hs. destruct Hs as [-> | Hs].
  - split; [apply canonical_skill_stripped|]. intro C. apply mem_In in C. congruence.
  - rewrite Forall_forall in H. apply H. exact Hs.
Qed.

Lemma merge_sets_tidy : forall (set_iter : list str -> list str) sets,
  (forall s, Permutation (set_iter s) s) -> tidy (merge_sets set_iter sets).
Proof.
  intros set_iter sets Hp. split; [|split].
  - apply (Permutation_NoDup (Permutation_sym (@merge_sets_perm set_iter Hp sets))).
    unfold merged_set. apply merged_from_NoDup. constructor.
  - intros _. unfold merge_sets.
    apply (@sorted_sorted str lower_key_le); [apply lower_key_total | apply lower_key_trans].
  - apply Forall_forall. intros x Hx.
    apply (Permutation_in x (@merge_sets_perm set_iter Hp sets)) in Hx.
    apply (@merged_set_In set_iter Hp) in Hx. destruct Hx as [s [item [_ [_ ->]]]]. apply strip_idem.
Qed.

Lemma merge_sets_In : forall (set_iter : list str -> list str) sets x,
  (forall s, Permutation (set_iter s) s) ->
  (In x (merge_sets set_iter sets) <-> exists s item, In s sets /\ In item s /\ x = strip item).
Proof.
  intros set_iter sets x Hp. rewrite <- (@merged_set_In set_iter Hp sets x). split; intro H.
  - apply (Permutation_in x (@merge_sets_perm set_iter Hp sets)). exact H.
  - apply (Permutation_in x (Permutation_sym (@merge_sets_perm set_iter Hp sets))). exact H.
Qed.

Section Handler.
Variable nlp : str -> Doc.
Variable matcher : Doc -> list (nat * nat * nat).
Variable set_iter : list str -> list str.
Variables use_ml ml_available ruler : bool.

Lemma parse_resume_accepts : forall d text,
  dict_get (u "text") d = Some (JStr text) -> strip text <> [] ->
  parse_resume nlp matcher set_iter use_ml ml_available ruler (Some (JObj d))
  = extract nlp matcher set_iter use_ml ml_available ruler text.
Proof.
  intros d text Hd Hs. unfold parse_resume.
  destruct d as [|kv d']; [discriminate Hd|]. cbn [json_truthy length Nat.eqb negb].
  rewrite Hd. destruct (strip text) as [|c t] eqn:E; [contradiction | reflexivity].
Qed.

Lemma parse_resume_parsed : forall d text r,
  dict_get (u "text") d = Some (JStr text) ->
  snd (parse_resume nlp matcher set_iter use_ml ml_available ruler (Some (JObj d))) = Parsed r ->
  snd (extract nlp matcher set_iter use_ml ml_available ruler text) = Parsed r.
Proof.
  intros d text r Hd Hr. destruct (strip text) as [|c t] eqn:E.
  - exfalso. unfold parse_resume in Hr.
    destruct d as [|kv d']; [discriminate Hd|]. cbn [json_truthy length Nat.eqb negb] in Hr.
    rewrite Hd, E in Hr. discriminate Hr.
  - rewrite <- (@parse_resume_accepts d text Hd); [exact Hr | rewrite E; discriminate].
Qed.
End Handler.

(** X11. How [parse_resume] answers a request body.  A body that is absent
    or falsy (null, false, 0, an empty string, array or object) is refused
    as invalid before any component runs.  A body that is truthy but not an
    object (true, a number, a string, an array) ends in the parsing error
    of the handler, not in the validation error.  An object whose text is
    a string with a character other than whitespace is parsed, starting
    with the pipeline. *)
Theorem parse_resume_status :
  forall (nlp : str -> Doc) (matcher : Doc -> list (nat * nat * nat))
         (set_iter : list str -> list str) (use_ml ml_available ruler : bool),
    (forall body, body = None \/ (exists j, body = Some j /\ json_truthy j = false) ->
       parse_resume nlp matcher set_iter use_ml ml_available ruler body = ([], Invalid)) /\
    (forall j, json_truthy j = true -> (forall d, j <> JObj d) ->
       parse_resume nlp matcher set_iter use_ml ml_available ruler (Some j) = ([], ParsingError)) /\
    (forall d text, dict_get (u "text") d = Some (JStr text) -> strip text <> [] ->
       exists tr r, parse_resume nlp matcher set_iter use_ml ml_available ruler (Some (JObj d))
                    = (Pipeline :: tr, Parsed r)).
Proof.
  intros nlp matcher set_iter use_ml ml_available ruler. split; [|split].
  - intros body [-> | [j [-> Hj]]]; unfold parse_resume; [reflexivity|]. rewrite Hj. reflexivity.
  - intros j Hj Hn. unfold parse_resume. rewrite Hj.
    destruct j as [| b | n | s | l | d]; try reflexivity. exfalso. apply (Hn d). reflexivity.
  - intros d text Hd Hs. rewrite (@parse_resume_accepts nlp matcher set_iter use_ml ml_available ruler d text Hd Hs).
    pose proof (extract_response nlp matcher set_iter use_ml ml_available ruler text) as Hr.
    pose proof (extract_trace nlp matcher set_iter use_ml ml_available ruler text) as Ht.
    destruct (extract nlp matcher set_iter use_ml ml_available ruler text) as [tr resp].
    cbn [fst snd] in *. subst tr resp. eexists _, _. reflexivity.
Qed.

Lemma parse_resume_status_witness :
  parse_resume blank_nlp no_matches insertion_order true true true (Some (JArr [JNum 1]))
  = ([], ParsingError) /\
  parse_resume blank_nlp no_matches insertion_order true true true (Some (JNum 0))
  = ([], Invalid) /\
  exists tr r,
    parse_resume blank_nlp no_matches insertion_order true true true
      (Some (JObj [(u "id", JNum 7); (u "text", JStr (u " Jane Doe "))]))
    = (Pipeline :: tr, Parsed r).
Proof.
  destruct (parse_resume_status blank_nlp no_matches insertion_order true true true) as [H1 [H2 H3]].
  split; [|split].
  - apply H2; [reflexivity | discriminate].
  - apply H1. right. exists (JNum 0). split; reflexivity.
  - apply (H3 _ (u " Jane Doe ")); [reflexivity | vm_compute; discriminate].
Defined.

(** ** Headings and the sections they open *)

(** Where a reading of the heading pattern lies: the whitespace lines before
    the heading line, the line itself, and what is read beyond the line. *)
Lemma heading_match_position : forall a w b cs,
  matches HEADING_PATTERN (MState (rev a ++ []) (w ++ b) []) (MState (rev w ++ rev a ++ []) b cs) ->
  exists wa wb h ta tb syn,
    w = wa ++ wb ++ h ++ ta ++ tb /\
    ends_lines (a ++ wa) /\ starts_line (tb ++ b) /\ starts_line b /\
    no_newline (wb ++ h ++ ta) /\ all_space wa /\ all_space wb /\ heading_trailer ta /\
    Forall (fun c => isspace c = true \/ c = 58%N) tb /\
    In syn HEADING_WORDS /\ same_fold h syn /\ group g_head cs = h.
Proof.
  intros a w b cs M. unfold HEADING_PATTERN, seqs, opt, star, chr in M.
  remember (alts (map lit_i HEADING_WORDS)) as R eqn:ER.
  apply matches_seq_inv in M. destruct M as [s1 [M1 M]].
  apply matches_bol_inv in M1. destruct M1 as [-> Hbol].
  apply matches_seq_inv in M. destruct M as [s2 [M2 M]].
  apply matches_rep_inv in M2. destruct M2 as [w1 [F1 [_ [_ [R1 [S1 C1]]]]]].
  apply matches_seq_inv in M. destruct M as [s3 [M3 M]].
  assert (Hg : groupless R = true) by (rewrite ER; apply groupless_heading_words).
  destruct (matches_group M3 Hg) as [h0 [Rw [_ Cw]]].
  apply matches_grp_inv in M3. destruct M3 as [s3' [Mg [Rg Sg]]].
  rewrite ER in Mg. apply matches_alts in Mg. destruct Mg as [r [Hr Mg]].
  apply in_map_iff in Hr. destruct Hr as [syn [<- Hsyn]].
  apply matches_lit_i in Mg. destruct Mg as [h [Rh [Sh Fh]]].
  assert (Eh : h0 = h).
  { apply (app_inv_tail (rest s3)). rewrite <- Rw, Rg. exact Rh. }
  subst h0.
  assert (Ct : cs = caps s3).
  { apply matches_groupless in M; [|reflexivity]. destruct M as [w' [_ [_ Ct]]]. exact Ct. }
  apply matches_seq_inv in M. destruct M as [s4 [M4 M]].
  apply matches_rep_inv in M4. destruct M4 as [w2 [F2 [_ [_ [R2 [S2 _]]]]]].
  apply matches_seq_inv in M. destruct M as [s5 [M5 M]].
  apply matches_seq_inv in M. destruct M as [s6 [M6 M7]].
  apply matches_rep_inv in M6. destruct M6 as [w3 [F3 [_ [_ [R3 [S3 _]]]]]].
  apply matches_eol_inv in M7. destruct M7 as [E6 Heol].
  assert (Hcol : exists colon, rest s4 = colon ++ rest s5 /\ (colon = [] \/ colon = [58%N])).
  { apply matches_alt_inv in M5. destruct M5 as [M5 | M5].
    - apply matches_cls_inv in M5. destruct M5 as [c [Hc [Rc _]]].
      apply N.eqb_eq in Hc. subst c. exists [58%N]. split; [exact Rc | right; reflexivity].
    - apply matches_eps_inv in M5. subst s5. exists []. split; [reflexivity | left; reflexivity]. }
  destruct Hcol as [colon [Rc Hc]]. subst s6. cbn [rest seen caps] in *.
  assert (Ew : w ++ b = w1 ++ h ++ (w2 ++ colon ++ w3) ++ b).
  { rewrite R1, Rh, <- Rg, R2, Rc, R3, <- !app_assoc. reflexivity. }
  destruct (split_last_line w1) as [wa [wb [E1 [Nb Ha]]]].
  destruct (split_first_line (w2 ++ colon ++ w3)) as [ta [tb [Et [Na Hb]]]].
  assert (Htr : heading_trailer ta).
  { apply heading_trailer_prefix with (tb := tb). rewrite <- Et.
    exists w2, colon, w3. repeat split; auto. }
  assert (Hsp : all_space wa /\ all_space wb).
  { unfold all_space. rewrite E1 in F1. apply Forall_app in F1. exact F1. }
  assert (Htb : Forall (fun c => isspace c = true \/ c = 58%N) tb).
  { assert (F : Forall (fun c => isspace c = true \/ c = 58%N) (w2 ++ colon ++ w3)).
    { apply Forall_app. split; [eapply Forall_impl; [|exact F2]; auto|].
      apply Forall_app. split; [|eapply Forall_impl; [|exact F3]; auto].
      destruct Hc as [-> | ->]; [constructor | constructor; [right; reflexivity | constructor]]. }
    rewrite Et in F. apply Forall_app in F. apply F. }
  exists wa, wb, h, ta, tb, syn. unfold ends_lines, starts_line.
  split. { apply (app_inv_tail b). rewrite Ew, E1, Et, <- !app_assoc. reflexivity. }
  split. { destruct Ha as [-> | [wa' ->]].
           - rewrite app_nil_r. eapply at_bol_start. exact Hbol.
           - right. exists (a ++ wa'). rewrite app_assoc. reflexivity. }
  split. { destruct Hb as [-> | [tb' ->]].
           - simpl. eapply at_eol_end. exact Heol.
           - right. exists (tb' ++ b). reflexivity. }
  split. { eapply at_eol_end. exact Heol. }
  split. { apply Forall_app. split; [exact Nb|]. apply Forall_app. split; [|exact Na].
           eapply heading_no_newline; eassumption. }
  split; [apply Hsp|]. split; [apply Hsp|]. split; [exact Htr|]. split; [exact Htb|].
  split; [exact Hsyn|]. split; [exact Fh|].
  rewrite Ct, Cw, C1. cbn [group g_head Nat.eqb]. reflexivity.
Qed.

(** A reading of the heading pattern: the line it lies on and its group. *)
Lemma heading_match_detail : forall a w b cs,
  matches HEADING_PATTERN (MState (rev a ++ []) (w ++ b) []) (MState (rev w ++ rev a ++ []) b cs) ->
  exists wb h ta syn,
    In (wb ++ h ++ ta) (text_lines (a ++ w ++ b)) /\ all_space wb /\ heading_trailer ta /\
    In syn HEADING_WORDS /\ same_fold h syn /\ group g_head cs = h.
Proof.
  intros a w b cs M.
  destruct (@heading_match_position a w b cs M)
    as [wa [wb [h [ta [tb [syn [Ew [Ha [Hb [_ [Hn [_ [Hwb [Hta [_ [Hs [Fh Eg]]]]]]]]]]]]]]]]].
  exists wb, h, ta, syn. split; [|auto].
  rewrite Ew.
  replace (a ++ (wa ++ wb ++ h ++ ta ++ tb) ++ b) with ((a ++ wa) ++ (wb ++ h ++ ta) ++ (tb ++ b))
    by (rewrite <- !app_assoc; reflexivity).
  apply line_in_text; assumption.
Qed.

Lemma heading_word_section : forall syn c,
  In syn HEADING_WORDS -> dict_get syn CANONICAL_BY_SYNONYM = Some c ->
  exists syns, In (c, syns) SECTION_SYNONYMS /\ In syn syns.
Proof.
  intros syn c Hs Hd.
  assert (A : forallb (fun syn =>
                match dict_get syn CANONICAL_BY_SYNONYM with
                | Some c => existsb (fun e => str_eqb (fst e) c && mem syn (snd e)) SECTION_SYNONYMS
                | None => false
                end) HEADING_WORDS = true) by (vm_compute; reflexivity).
  rewrite forallb_forall in A. specialize (A syn Hs). rewrite Hd in A.
  apply existsb_exists in A. destruct A as [[c' syns] [Hin A]]. cbn [fst snd] in A.
  apply andb_true_iff in A. destruct A as [A1 A2]. apply str_eqb_eq in A1. subst c'.
  exists syns. split; [exact Hin | apply mem_In; exact A2].
Qed.

Lemma lines_from_chars : forall (P : char -> Prop) s cur l,
  Forall P cur -> Forall P s -> In l (lines_from cur s) -> Forall P l.
Proof.
  intros P. induction s as [|c t IH]; intros cur l Hc Hs Hl; cbn [lines_from] in Hl.
  - destruct Hl as [<- | []]. apply Forall_rev. exact Hc.
  - inversion Hs; subst. destruct (N.eqb c 10).
    + destruct Hl as [<- | Hl]; [apply Forall_rev; exact Hc|].
      apply (IH [] l); [constructor | assumption | exact Hl].
    + apply (IH (c :: cur) l); [constructor; assumption | assumption | exact Hl].
Qed.

Lemma ascii_lines : forall text l, is_ascii text -> In l (text_lines text) -> is_ascii l.
Proof. intros text l Ha Hl. apply (@lines_from_chars _ text [] l); [constructor | exact Ha | exact Hl]. Qed.

(** In an ASCII text the key of a heading match names a section for which
    some line of the text is a heading. *)
Lemma heading_canon_line : forall text m,
  is_ascii text -> In m (finditer HEADING_PATTERN text) ->
  exists l, In l (text_lines text) /\ heading_for (canon_of m) l.
Proof.
  intros text m Ha Hm. apply finditer_sound in Hm.
  destruct Hm as [a [w [b [cs [Et [M ->]]]]]].
  assert (M' : matches HEADING_PATTERN (MState (rev a ++ []) (w ++ b) [])
                 (MState (rev w ++ rev a ++ []) b cs)) by (rewrite !app_nil_r; exact M).
  apply heading_match_detail in M'.
  destruct M' as [wb [h [ta [syn [Hl [Hwb [Hta [Hs [Fh Eg]]]]]]]]].
  destruct (heading_word_facts Hs) as [F1 [F2 [c [Ec Hc]]]].
  assert (Ah : is_ascii h).
  { assert (Al : is_ascii (wb ++ h ++ ta)).
    { clear - Ha Hl Et. rewrite <- Et in Hl. revert Hl. generalize (wb ++ h ++ ta). intros l Hl.
      apply (@ascii_lines text l Ha Hl). }
    apply is_ascii_piece in Al. exact Al. }
  assert (El : lower h = syn).
  { unfold same_fold in Fh. rewrite F1 in Fh. rewrite <- Fh. unfold lower.
    apply map_ext_in. intros c0 Hc0. symmetry. apply fold_c_ascii.
    unfold is_ascii in Ah. rewrite Forall_forall in Ah. apply Ah. exact Hc0. }
  exists (wb ++ h ++ ta). split; [rewrite Et; exact Hl|].
  unfold canon_of. cbn [m_caps]. rewrite Eg, lower_strip, El, F2, Ec.
  destruct (heading_word_section Hs Ec) as [syns [H1 H2]].
  exists wb, h, ta, syn, syns. repeat split; assumption.
Qed.

Lemma collected_key_heading : forall text k v,
  is_ascii text ->
  In (k, v) (collect_sections text (finditer HEADING_PATTERN text) []) ->
  exists l, In l (text_lines text) /\ heading_for k l.
Proof.
  intros text k v Ha H.
  destruct (@collect_sections_inv (fun k => exists l, In l (text_lines text) /\ heading_for k l)
              text (finditer HEADING_PATTERN text) []) as [_ Hv];
    [| constructor | intros ? ? [] |].
  - apply Forall_forall. intros m Hm. apply (@heading_canon_line text m Ha Hm).
  - apply (Hv k v H).
Qed.

(** X16. In an ASCII text a section is returned only for a heading that the
    text has: for every key of the result some line of the text is a
    heading for that section, unless the result is the summary that holds
    the whole text. *)
Theorem split_resume_sections_key_heading :
  forall text : str,
    is_ascii text ->
    forall k v, In (k, v) (split_resume_sections text) ->
      (exists l, In l (text_lines text) /\ heading_for k l) \/
      (split_resume_sections text = [(u "summary", strip text)]).
Proof.
  intros text Ha k v H. unfold split_resume_sections in *.
  destruct (truthy text); cbn [negb] in *; [|destruct H].
  destruct (finditer HEADING_PATTERN text) as [|m ms] eqn:Ef; [right; reflexivity | left].
  rewrite <- Ef in H. apply (@collected_key_heading text k v Ha H).
Qed.

Lemma split_resume_sections_key_heading_witness :
  (exists l, In l (text_lines (u "Jane" ++ [10%N] ++ u " SKILLS & TOOLS: " ++ [10%N] ++ u "Git"))
             /\ heading_for (u "skills") l) \/
  split_resume_sections (u "Jane" ++ [10%N] ++ u " SKILLS & TOOLS: " ++ [10%N] ++ u "Git")
  = [(u "summary", strip (u "Jane" ++ [10%N] ++ u " SKILLS & TOOLS: " ++ [10%N] ++ u "Git"))].
Proof.
  apply split_resume_sections_key_heading with (v := u "Git").
  - apply is_ascii_check. vm_compute. reflexivity.
  - vm_compute. left. reflexivity.
Defined.

Lemma extract_entities_ml_skill : forall es s,
  In s (fst (fst (extract_entities_ml es))) ->
  strip s = s /\ ~ In (lower s) SKILL_STOPWORDS.
Proof.
  intros es s H. destruct (extract_entities_ml_from es ([], [], [])) as [H1 _].
  fold (extract_entities_ml es) in H1. apply H1 in H. cbn [fst] in H.
  destruct H as [[] | [e [_ [_ [-> N]]]]]. split; [apply canonical_skill_stripped | exact N].
Qed.

Section HandlerFacts.
Variable nlp : str -> Doc.
Variable matcher : Doc -> list (nat * nat * nat).
Variable set_iter : list str -> list str.
Variables use_ml ml_available ruler : bool.

(** X13. A résumé in ASCII without a heading line for the experience section
    has no structured experience in the response, whatever else it
    holds. *)
Theorem parse_resume_no_experience_heading :
  forall (d : list (str * json)) (text : str) (r : Result),
    dict_get (u "text") d = Some (JStr text) ->
    is_ascii text ->
    (forall l, In l (text_lines text) -> ~ heading_for (u "experience") l) ->
    snd (parse_resume nlp matcher set_iter use_ml ml_available ruler (Some (JObj d))) = Parsed r ->
    experiences r = [].
Proof.
  intros d text r Hd Ha Hno Hr. apply (@parse_resume_parsed _ _ _ _ _ _ d text r Hd) in Hr.
  rewrite extract_response in Hr. inversion Hr as [Er]. cbn [experiences]. clear Hr Er.
  destruct (dict_get (u "experience") (split_resume_sections text)) as [v|] eqn:Eg; [|reflexivity].
  exfalso. apply dict_get_In in Eg. unfold split_resume_sections in Eg.
  destruct (truthy text); cbn [negb] in Eg; [|destruct Eg].
  destruct (finditer HEADING_PATTERN text) as [|m ms] eqn:Ef.
  - destruct Eg as [Eg | []]. inversion Eg.
  - rewrite <- Ef in Eg. apply (@collected_key_heading text _ v Ha) in Eg.
    destruct Eg as [l [Hl Hh]]. exact (Hno l Hl Hh).
Qed.

(** X12. With the learned model switched off or not available, the model
    extractor does not run, and the name, the job titles and the
    organisations of the response (without entity ruler also the skills) are
    those of the rule-based extractors alone, whatever the pipeline
    returns. *)
Theorem parse_resume_switch_off :
  forall (d : list (str * json)) (text : str) (r : Result),
    use_ml && ml_available = false ->
    dict_get (u "text") d = Some (JStr text) ->
    snd (parse_resume nlp matcher set_iter use_ml ml_available ruler (Some (JObj d))) = Parsed r ->
    fullName r = extract_name_fallback text /\
    jobTitles r = merge_sets set_iter [[]; extract_job_titles_dict text] /\
    organizations r = merge_sets set_iter [extract_orgs_dict text; []] /\
    (ruler = false -> skills r = merge_sets set_iter [[]; extract_skills_dict text; []]) /\
    ~ In ModelExtractor
         (fst (parse_resume nlp matcher set_iter use_ml ml_available ruler (Some (JObj d)))).
Proof.
  intros d text r Hoff Hd Hr.
  assert (Hs : strip text <> []).
  { intro C. unfold parse_resume in Hr. destruct d as [|kv d']; [discriminate Hd|].
    cbn [json_truthy length Nat.eqb negb] in Hr. rewrite Hd, C in Hr. discriminate Hr. }
  rewrite (@parse_resume_accepts nlp matcher set_iter use_ml ml_available ruler d text Hd Hs) in *.
  rewrite extract_response, Hoff in Hr. inversion Hr as [Er]. cbn [fullName jobTitles organizations skills].
  split; [reflexivity|]. split; [reflexivity|]. split; [reflexivity|].
  split; [intros ->; reflexivity|].
  rewrite extract_trace, Hoff. destruct ruler; cbn [app In]; intro C;
    repeat (destruct C as [C | C]; [discriminate C|]); exact C.
Qed.

(** X2. In every response the lists of skills, job titles and organisations
    are without duplicates and hold no element with whitespace at either
    end, and a list whose elements are ASCII strings is in non-decreasing
    order of the lower-case forms; no skill is a stop word, whether it came
    from the learned model, the entity ruler or the dictionaries; and the
    list of projects is empty. *)
Theorem parse_resume_lists :
  forall (d : list (str * json)) (text : str) (r : Result),
    (forall s, Permutation (set_iter s) s) ->
    dict_get (u "text") d = Some (JStr text) ->
    snd (parse_resume nlp matcher set_iter use_ml ml_available ruler (Some (JObj d))) = Parsed r ->
    tidy (skills r) /\ tidy (jobTitles r) /\ tidy (organizations r) /\
    (forall s, In s (skills r) -> ~ In (lower s) SKILL_STOPWORDS) /\
    projects r = [].
Proof.
  intros d text r Hp Hd Hr. apply (@parse_resume_parsed _ _ _ _ _ _ d text r Hd) in Hr.
  rewrite extract_response in Hr. inversion Hr as [Er]. cbn [skills jobTitles organizations projects].
  clear Hr Er.
  split; [apply merge_sets_tidy; exact Hp|]. split; [apply merge_sets_tidy; exact Hp|].
  split; [apply merge_sets_tidy; exact Hp|]. split; [|reflexivity].
  intros s Hs. apply (@merge_sets_In set_iter _ s Hp) in Hs. destruct Hs as [set [item [Hset [Hitem ->]]]].
  assert (Hgood : strip item = item /\ ~ In (lower item) SKILL_STOPWORDS).
  { destruct Hset as [<- | [<- | [<- | []]]].
    - destruct (use_ml && ml_available); [|destruct Hitem].
      apply extract_entities_ml_skill in Hitem. exact Hitem.
    - apply extract_skills_dict_In in Hitem. destruct Hitem as [Hk Hm]. split.
      + destruct Hk as [[kw [_ [_ ->]]] | [a [_ [_ ->]]]]; apply canonical_skill_stripped.
      + intro C. apply mem_In in C. congruence.
    - destruct ruler; [|destruct Hitem]. unfold ruler_skills_of in Hitem.
      pose proof (@ruler_skills_from (ents (nlp text)) [] (Forall_nil _)) as F.
      rewrite Forall_forall in F. apply F. exact Hitem. }
  destruct Hgood as [G1 G2]. rewrite G1. exact G2.
Qed.
End HandlerFacts.

Lemma heading_for_line : forall c l, heading_for c l -> heading_line l.
Proof.
  intros c l [w1 [h [t [syn [syns [E [H1 [H2 [H3 [H4 H5]]]]]]]]]].
  exists w1, h, t, syn. repeat split; try assumption.
  unfold known_synonym. apply in_concat. exists syns. split; [|exact H4].
  apply in_map_iff. exists (c, syns). split; [reflexivity | exact H3].
Qed.

Lemma parse_resume_no_experience_heading_witness :
  match snd (parse_resume blank_nlp no_matches insertion_order true true false
          (Some (JObj [(u "text", JStr (u "Jane Doe" ++ [10%N] ++ u "I have work experience in Python"))])))
  with
  | Parsed r => experiences r = []
  | _ => True
  end.
Proof.
  destruct (snd (parse_resume blank_nlp no_matches insertion_order true true false
          (Some (JObj [(u "text", JStr (u "Jane Doe" ++ [10%N] ++ u "I have work experience in Python"))]))))
    as [| |r] eqn:E; try exact I.
  eapply parse_resume_no_experience_heading; [| | |exact E].
  - reflexivity.
  - apply is_ascii_check. vm_compute. reflexivity.
  - intros l Hl Hh. apply heading_for_line in Hh. revert Hh. apply not_heading_line.
    vm_compute in Hl. destruct Hl as [<- | [<- | []]]; vm_compute; reflexivity.
Defined.

Lemma parse_resume_switch_off_witness :
  match snd (parse_resume blank_nlp no_matches insertion_order false true false
          (Some (JObj [(u "text", JStr (u "Jane Doe, Backend Developer"))])))
  with
  | Parsed r => fullName r = u "Jane Doe" /\ jobTitles r = [u "Backend Developer"]
  | _ => True
  end.
Proof.
  destruct (snd (parse_resume blank_nlp no_matches insertion_order false true false
          (Some (JObj [(u "text", JStr (u "Jane Doe, Backend Developer"))]))))
    as [| |r] eqn:E; try exact I.
  destruct (@parse_resume_switch_off blank_nlp no_matches insertion_order false true false
              [(u "text", JStr (u "Jane Doe, Backend Developer"))]
              (u "Jane Doe, Backend Developer") r eq_refl eq_refl E) as [H1 [H2 _]].
  rewrite H1, H2. split; vm_compute; reflexivity.
Defined.

Lemma parse_resume_lists_witness :
  match snd (parse_resume blank_nlp no_matches descending_order true true true
          (Some (JObj [(u "text", JStr (u "Senior lead: python, AWS and Java"))])))
  with
  | Parsed r => tidy (skills r) /\ projects r = []
  | _ => True
  end.
Proof.
  destruct (snd (parse_resume blank_nlp no_matches descending_order true true true
          (Some (JObj [(u "text", JStr (u "Senior lead: python, AWS and Java"))]))))
    as [| |r] eqn:E; try exact I.
  destruct (@parse_resume_lists blank_nlp no_matches descending_order true true true
              [(u "text", JStr (u "Senior lead: python, AWS and Java"))]
              (u "Senior lead: python, AWS and Java") r (fun s => sorted_perm _ s) eq_refl E)
    as [H1 [_ [_ [_ H5]]]].
  split; assumption.
Defined.

(** ** The final loop of the experience extractor *)

Lemma no_repeat_tail : forall a l, no_repeat (a :: l) -> no_repeat l.
Proof. intros a l H pre x y post E. apply (H (a :: pre) x y post). rewrite E. reflexivity. Qed.

Lemma dedup_unchanged : forall results prev deduped,
  last_is prev deduped -> Forall has_field results -> no_repeat (deduped ++ results) ->
  dedup results prev deduped = deduped ++ results.
Proof.
  induction results as [|item t IH]; intros prev deduped Hl Hf Hn; cbn [dedup].
  - rewrite app_nil_r. reflexivity.
  - inversion Hf as [|? ? Hi Hf']; subst. apply any_field_has in Hi. rewrite Hi. cbn [negb].
    assert (Hstep : dedup t (Some item) (deduped ++ [item]) = deduped ++ item :: t).
    { rewrite IH; [rewrite <- app_assoc; reflexivity | exists deduped; reflexivity | exact Hf' |].
      rewrite <- app_assoc. exact Hn. }
    destruct prev as [pv|]; [|exact Hstep].
    destruct (same_entry pv item) eqn:Es; [exfalso | exact Hstep].
    destruct Hl as [d ->]. apply same_entry_ci in Es.
    apply (Hn d pv item t); [rewrite <- app_assoc; reflexivity | exact Es].
Qed.

Lemma dedup_In : forall results prev deduped e,
  In e (dedup results prev deduped) -> In e deduped \/ In e results.
Proof.
  induction results as [|item t IH]; intros prev deduped e H; cbn [dedup] in H; [left; exact H|].
  assert (Hstep : In e (dedup t (Some item) (deduped ++ [item])) -> In e deduped \/ In e (item :: t)).
  { intro H'. apply IH in H'. rewrite in_app_iff in H'. cbn [In] in *. tauto. }
  assert (Hskip : In e (dedup t prev deduped) -> In e deduped \/ In e (item :: t)).
  { intro H'. apply IH in H'. cbn [In]. tauto. }
  destruct (any_field item); cbn [negb] in H; [|apply Hskip; exact H].
  destruct prev as [pv|]; [|apply Hstep; exact H].
  destruct (same_entry pv item); [apply Hskip | apply Hstep]; exact H.
Qed.

(** X17. The final loop of [extract_experience] changes nothing in a list
    of entries with ASCII fields that all have a field and in which no entry
    repeats the one before it; it returns only entries it was given; and
    running it on its own result changes nothing. *)
Theorem dedup_settles :
  forall results : list Entry,
    (Forall ascii_entry results -> Forall has_field results -> no_repeat results ->
     dedup results None [] = results) /\
    (forall e, In e (dedup results None []) -> In e results) /\
    dedup (dedup results None []) None [] = dedup results None [].
Proof.
  intro results.
  assert (H : forall l, Forall has_field l -> no_repeat l -> dedup l None [] = l).
  { intros l Hf Hn. apply (@dedup_unchanged l None []); [reflexivity | exact Hf | exact Hn]. }
  split; [intros _; apply H|]. split.
  - intros e He. apply dedup_In in He. destruct He as [[] | He]. exact He.
  - destruct (@dedup_keeps results None []) as [Hf Hn];
      [constructor | intros pre a b post E; destruct pre; discriminate | reflexivity |].
    apply H; assumption.
Qed.

Lemma dedup_settles_witness :
  dedup [MkEntry (u "SRE") [] []; MkEntry [] (u "Acme Labs") []; MkEntry (u "sre") [] []] None []
  = [MkEntry (u "SRE") [] []; MkEntry [] (u "Acme Labs") []; MkEntry (u "sre") [] []].
Proof.
  apply (proj1 (dedup_settles _)).
  - apply ascii_entries_check. vm_compute. reflexivity.
  - constructor; [left; discriminate|]. constructor; [right; left; discriminate|].
    constructor; [left; discriminate | constructor].
  - intros pre a b post E C.
    destruct pre as [|x1 [|x2 [|x3 pre]]]; inversion E; subst;
      try (destruct pre; discriminate);
      destruct C as [C1 [C2 C3]]; vm_compute in C1, C2; discriminate.
Defined.

(** ** The longest span *)

Lemma max_by_len_first : forall l best,
  (max_by_len best l = best /\
   forall e, In e l -> length (ent_text e) <= length (ent_text best)) \/
  (exists pre post, l = pre ++ max_by_len best l :: post /\
     length (ent_text best) < length (ent_text (max_by_len best l)) /\
     (forall e, In e pre -> length (ent_text e) < length (ent_text (max_by_len best l))) /\
     (forall e, In e post -> length (ent_text e) <= length (ent_text (max_by_len best l)))).
Proof.
  induction l as [|x l IH]; intro best; cbn [max_by_len].
  - left. split; [reflexivity | intros e []].
  - destruct (length (ent_text best) <? length (ent_text x)) eqn:E.
    + apply Nat.ltb_lt in E. right. destruct (IH x) as [[Em Hle] | [pre [post [El [Hlt [Hpre Hpost]]]]]].
      * exists [], l. rewrite Em. split; [reflexivity|]. split; [exact E|]. split; [intros e []|exact Hle].
      * exists (x :: pre), post. split; [cbn [app]; rewrite <- El; reflexivity|].
        split; [lia|]. split; [|exact Hpost].
        intros e [<- | He]; [exact Hlt | apply Hpre; exact He].
    + apply Nat.ltb_ge in E. destruct (IH best) as [[Em Hle] | [pre [post [El [Hlt [Hpre Hpost]]]]]].
      * left. split; [exact Em|]. intros e [<- | He]; [exact E | apply Hle; exact He].
      * right. exists (x :: pre), post. split; [cbn [app]; rewrite <- El; reflexivity|].
        split; [exact Hlt|]. split; [|exact Hpost].
        intros e [<- | He]; [lia | apply Hpre; exact He].
Qed.

(** X18. [pick_longest] returns nothing exactly for an empty list; otherwise
    it returns the stripped text of the first span whose text, measured
    before stripping, is as long as any: the spans before it are strictly
    shorter, the spans after it are not longer. *)
Theorem pick_longest_first_longest :
  forall spans : list Ent,
    (pick_longest spans = None <-> spans = []) /\
    (forall s, pick_longest spans = Some s ->
       exists pre e post,
         spans = pre ++ e :: post /\ s = strip (ent_text e) /\
         (forall e', In e' pre -> length (ent_text e') < length (ent_text e)) /\
         (forall e', In e' post -> length (ent_text e') <= length (ent_text e))).
Proof.
  intro spans. split.
  - destruct spans; cbn [pick_longest]; split; intro H; try reflexivity; discriminate.
  - intros s H. destruct spans as [|x l]; [discriminate|]. cbn [pick_longest] in H.
    inversion H as [Es]. clear H.
    destruct (max_by_len_first l x) as [[Em Hle] | [pre [post [El [Hlt [Hpre Hpost]]]]]].
    + rewrite Em. exists [], x, l. split; [reflexivity|]. split; [reflexivity|].
      split; [intros e' [] | exact Hle].
    + exists (x :: pre), (max_by_len x l), post. split; [cbn [app]; rewrite <- El; reflexivity|].
      split; [reflexivity|]. split; [|exact Hpost].
      intros e' [<- | He]; [exact Hlt | apply Hpre; exact He].
Qed.

Lemma pick_longest_first_longest_witness :
  exists pre e post,
    [MkEnt (u "QA") (u "JOB_TITLE") 0 1; MkEnt (u "  SRE ") (u "JOB_TITLE") 2 3;
     MkEnt (u "DevOps") (u "JOB_TITLE") 4 5; MkEnt (u "Intern") (u "JOB_TITLE") 6 7]
    = pre ++ e :: post /\ u "SRE" = strip (ent_text e) /\
    (forall e', In e' pre -> length (ent_text e') < length (ent_text e)) /\
    (forall e', In e' post -> length (ent_text e') <= length (ent_text e)).
Proof.
  apply (proj2 (pick_longest_first_longest _)). vm_compute. reflexivity.
Defined.

(** ** Experience entries without tagged entities *)

Lemma longer_first_total : forall x y : str, longer_first x y = false -> longer_first y x = true.
Proof.
  intros x y H. unfold longer_first in *. apply Nat.leb_gt in H. apply Nat.leb_le. lia.
Qed.

Lemma longer_first_trans : forall x y z : str,
  longer_first x y = true -> longer_first y z = true -> longer_first x z = true.
Proof.
  intros x y z H1 H2. unfold longer_first in *.
  apply Nat.leb_le in H1. apply Nat.leb_le in H2. apply Nat.leb_le. lia.
Qed.

Section ExperienceFacts.
Variable nlp : str -> Doc.
Variable matcher : Doc -> list (nat * nat * nat).
Variable set_iter : list str -> list str.
Hypothesis iter_enumerates : forall s, Permutation (set_iter s) s.

Lemma longest_of_longest : forall s,
  s <> [] ->
  exists x, longest_of set_iter s = Some x /\ In x s /\
            forall t, In t s -> length t <= length x.
Proof.
  intros s Hs. unfold longest_of.
  pose proof (@sorted_sorted str longer_first longer_first_total longer_first_trans (set_iter s)) as Hsorted.
  assert (Hperm : Permutation (sorted longer_first (set_iter s)) s).
  { eapply Permutation_trans; [apply sorted_perm | apply iter_enumerates]. }
  destruct (sorted longer_first (set_iter s)) as [|x l] eqn:E.
  - exfalso. apply Hs. apply Permutation_nil in Hperm. exact Hperm.
  - exists x. split; [reflexivity|]. split; [apply (Permutation_in x Hperm); left; reflexivity|].
    intros t Ht. apply (Permutation_in t (Permutation_sym Hperm)) in Ht.
    destruct Ht as [<- | Ht]; [lia|].
    inversion Hsorted as [|? ? _ Hall]; subst. rewrite Forall_forall in Hall.
    specialize (Hall t Ht). unfold longer_first in Hall. apply Nat.leb_le in Hall. exact Hall.
Qed.

Lemma scan_matches_no_ents : forall doc ms,
  ents doc = [] -> scan_matches doc ms None None = (None, None).
Proof.
  intros doc ms H. induction ms as [|[[i a] b] ms IH]; [reflexivity|].
  cbn [scan_matches]. unfold span_ents. rewrite H. cbn [filter pick_longest otruthy andb].
  exact IH.
Qed.

Lemma process_block_no_ents : forall block,
  ents (nlp block) = [] ->
  process_block nlp matcher set_iter block =
  let title := match extract_job_titles_dict block with
               | [] => None
               | _ => longest_of set_iter (extract_job_titles_dict block)
               end in
  let org := match extract_orgs_dict block with
             | [] => None
             | _ => longest_of set_iter (extract_orgs_dict block)
             end in
  if otruthy title || otruthy org || truthy (detect_date_range block (nlp block))
  then Some (MkEntry (or_empty title) (or_empty org) (detect_date_range block (nlp block)))
  else None.
Proof.
  intros block H. unfold process_block. rewrite scan_matches_no_ents by exact H.
  rewrite H. cbn [filter pick_longest otruthy negb].
  destruct (extract_job_titles_dict block); destruct (extract_orgs_dict block); reflexivity.
Qed.

Lemma process_blocks_In : forall blocks results e,
  In e (process_blocks nlp matcher set_iter blocks results) ->
  In e results \/
  exists block, In block blocks /\ 5 <= length block /\
                process_block nlp matcher set_iter block = Some e.
Proof.
  induction blocks as [|b blocks IH]; intros results e H; cbn [process_blocks] in H; [left; exact H|].
  assert (Hskip : In e (process_blocks nlp matcher set_iter blocks results) ->
                  In e results \/
                  exists block, In block (b :: blocks) /\ 5 <= length block /\
                                process_block nlp matcher set_iter block = Some e).
  { intro H'. apply IH in H'. destruct H' as [H' | [block [Hb R]]]; [left; exact H'|].
    right. exists block. split; [right; exact Hb | exact R]. }
  destruct (negb (truthy b) || (length b <? 5)) eqn:Eb; [apply Hskip; exact H|].
  apply orb_false_iff in Eb. destruct Eb as [_ Eb]. apply Nat.ltb_ge in Eb.
  destruct (process_block nlp matcher set_iter b) as [e0|] eqn:Ep; [|apply Hskip; exact H].
  apply IH in H. destruct H as [H | [block [Hb R]]].
  - apply in_app_iff in H. destruct H as [H | [<- | []]]; [left; exact H|].
    right. exists b. split; [left; reflexivity|]. split; [exact Eb | exact Ep].
  - right. exists block. split; [right; exact Hb | exact R].
Qed.

(** X19. When the pipeline tags no entity, every experience entry comes
    from one block of the section, of at least five characters, by the
    rules alone: its job title is a longest of the titles that the
    dictionary finds in the block (empty when it finds none), its company
    name a longest of the organisations found by suffix (empty when there is
    none), and its date range the one detected in the block. *)
Theorem extract_experience_without_entities :
  forall (text : str) (e : Entry),
    (forall b, ents (nlp b) = []) ->
    In e (extract_experience nlp matcher set_iter text) ->
    exists block,
      In block (split_blocks (splitlines text) [] []) /\ 5 <= length block /\
      ((extract_job_titles_dict block = [] /\ job_title e = []) \/
       (In (job_title e) (extract_job_titles_dict block) /\
        forall t, In t (extract_job_titles_dict block) -> length t <= length (job_title e))) /\
      ((extract_orgs_dict block = [] /\ company_name e = []) \/
       (In (company_name e) (extract_orgs_dict block) /\
        forall o, In o (extract_orgs_dict block) -> length o <= length (company_name e))) /\
      date_range e = detect_date_range block (nlp block).
Proof.
  intros text e Hno He. unfold extract_experience in He.
  destruct (negb (truthy text)); [destruct He|].
  apply dedup_In in He. destruct He as [[] | He].
  apply process_blocks_In in He. destruct He as [[] | [block [Hb [Hlen Hp]]]].
  exists block. split; [exact Hb|]. split; [exact Hlen|].
  rewrite (process_block_no_ents block (Hno block)) in Hp. cbn zeta in Hp.
  destruct (otruthy _ || otruthy _ || truthy _) in Hp; [|discriminate Hp].
  inversion Hp as [He]. cbn [job_title company_name date_range]. clear Hp He.
  split; [|split; [|reflexivity]].
  - destruct (extract_job_titles_dict block) as [|t0 ts] eqn:Et; [left; split; reflexivity | right].
    destruct (@longest_of_longest (t0 :: ts)) as [x [Ex [Hin Hmax]]]; [discriminate|].
    rewrite Ex. cbn [or_empty]. split; assumption.
  - destruct (extract_orgs_dict block) as [|o0 os] eqn:Eo; [left; split; reflexivity | right].
    destruct (@longest_of_longest (o0 :: os)) as [x [Ex [Hin Hmax]]]; [discriminate|].
    rewrite Ex. cbn [or_empty]. split; assumption.
Qed.
End ExperienceFacts.

Lemma extract_experience_without_entities_witness :
  Forall (fun e => job_title e = u "Senior Software Engineer" /\ date_range e = u "2019 - present")
    (extract_experience blank_nlp no_matches descending_order
       (u "- Senior Software Engineer, 2019 - present" ++ [10%N] ++ u "  built things")).
Proof.
  apply Forall_forall. intros e He.
  destruct (@extract_experience_without_entities blank_nlp no_matches descending_order
              (fun s => sorted_perm _ s) _ e (fun b => eq_refl) He)
    as [block [Hb [_ [Ht [_ Hd]]]]].
  vm_compute in Hb. destruct Hb as [<- | []].
  split; [|rewrite Hd; vm_compute; reflexivity].
  destruct Ht as [[Ht _] | [Ht Hmax]]; [vm_compute in Ht; discriminate Ht|].
  remember (job_title e) as jt eqn:Ej. clear Ej Hd He.
  assert (Hm := Hmax (u "Senior Software Engineer")).
  vm_compute in Ht. destruct Ht as [Ht | [Ht | []]]; [|symmetry; exact Ht].
  exfalso. rewrite <- Ht in Hm. assert (C : 24 <= 17); [|lia].
  apply Hm. vm_compute. right. left. reflexivity.
Defined.

(** ** The digits of a phone number *)

Lemma kept_digits : forall l,
  Forall (fun c => is_digit c = true) l ->
  filter (fun c => negb (not_digit_or_plus c)) l = l.
Proof.
  induction 1 as [|c l Hc _ IH]; [reflexivity|]. cbn [filter]. unfold not_digit_or_plus at 1.
  rewrite Hc. cbn [orb negb]. rewrite IH. reflexivity.
Qed.

Lemma dropped_separators : forall l,
  Forall (fun c => is_digit c = false /\ char_eqb c 43 = false) l ->
  filter (fun c => negb (not_digit_or_plus c)) l = [].
Proof.
  induction 1 as [|c l [H1 H2] _ IH]; [reflexivity|]. cbn [filter]. unfold not_digit_or_plus at 1.
  rewrite H1, H2. cbn [orb negb]. exact IH.
Qed.

Lemma space_or_dash_dropped : forall c,
  space_or_dash c = true -> is_digit c = false /\ char_eqb c 43 = false.
Proof.
  intros c H. unfold space_or_dash, isspace, is_digit, char_eqb, in_range in *.
  cmp_cases; try discriminate; split; reflexivity.
Qed.

Lemma separators_dropped : forall l,
  Forall (fun c => space_or_dash c = true) l ->
  Forall (fun c => is_digit c = false /\ char_eqb c 43 = false) l.
Proof. intros l H. eapply Forall_impl; [|exact H]. apply space_or_dash_dropped. Qed.

(** An optional single character. *)
Lemma matches_opt_chr : forall x s s',
  matches (opt (chr x)) s s' -> exists p, rest s = p ++ rest s' /\ (p = [] \/ p = [x]).
Proof.
  intros x s s' M. unfold opt, chr in M. apply matches_alt_inv in M. destruct M as [M | M].
  - apply matches_cls_inv in M. destruct M as [c [Hc [R _]]]. apply N.eqb_eq in Hc. subst c.
    exists [x]. split; [exact R | right; reflexivity].
  - apply matches_eps_inv in M. subst s'. exists []. split; [reflexivity | left; reflexivity].
Qed.

(** What a reading of the phone pattern leaves after cleaning. *)
Lemma phone_digits : forall s s',
  matches PHONE_RE s s' ->
  exists w sign ds,
    rest s = w ++ rest s' /\
    filter (fun c => negb (not_digit_or_plus c)) w = sign ++ ds /\
    (sign = [] \/ sign = [43%N]) /\ Forall (fun c => is_digit c = true) ds /\
    7 <= length ds <= 13.
Proof.
  intros s s' M. unfold PHONE_RE, times in M. cbn [seqs] in M.
  apply matches_seq_inv in M. destruct M as [s1 [MA M]].
  apply matches_seq_inv in M. destruct M as [s2 [MB M]].
  apply matches_seq_inv in M. destruct M as [s3 [M3 M]].
  apply matches_seq_inv in M. destruct M as [s4 [M4 M5]].
  apply matches_rep_inv in M3. destruct M3 as [d3 [F3 [L3 [U3 [R3 _]]]]].
  apply matches_rep_inv in M4. destruct M4 as [j3 [Fj3 [_ [_ [R4 _]]]]].
  apply matches_rep_inv in M5. destruct M5 as [d4 [F4 [L4 [U4 [R5 _]]]]].
  cbn [within] in U3, U4.
  assert (HA : exists sign dA jA, rest s = sign ++ dA ++ jA ++ rest s1 /\
                 (sign = [] \/ sign = [43%N]) /\ Forall (fun c => is_digit c = true) dA /\
                 length dA <= 3 /\ Forall (fun c => space_or_dash c = true) jA).
  { unfold opt at 1 in MA. apply matches_alt_inv in MA. destruct MA as [MA | MA].
    - apply matches_seq_inv in MA. destruct MA as [t1 [N1 MA]].
      apply matches_seq_inv in MA. destruct MA as [t2 [N2 N3]].
      apply matches_opt_chr in N1. destruct N1 as [sign [Rs Hs]].
      apply matches_rep_inv in N2. destruct N2 as [dA [FA [_ [UA [RA _]]]]].
      apply matches_rep_inv in N3. destruct N3 as [jA [FjA [_ [_ [RjA _]]]]].
      exists sign, dA, jA. rewrite Rs, RA, RjA. cbn [within] in UA. auto.
    - apply matches_eps_inv in MA. subst s1. exists [], [], []. repeat split; auto. }
  assert (HB : exists j1 dB j2, rest s1 = j1 ++ dB ++ j2 ++ rest s2 /\
                 Forall (fun c => is_digit c = false /\ char_eqb c 43 = false) j1 /\
                 Forall (fun c => is_digit c = true) dB /\ length dB <= 3 /\
                 Forall (fun c => is_digit c = false /\ char_eqb c 43 = false) j2).
  { unfold opt at 1 in MB. apply matches_alt_inv in MB. destruct MB as [MB | MB].
    - apply matches_seq_inv in MB. destruct MB as [t1 [N1 MB]].
      apply matches_seq_inv in MB. destruct MB as [t2 [N2 MB]].
      apply matches_seq_inv in MB. destruct MB as [t3 [N3 N4]].
      apply matches_opt_chr in N1. destruct N1 as [p1 [Rp1 Hp1]].
      apply matches_rep_inv in N2. destruct N2 as [dB [FB [_ [UB [RB _]]]]].
      apply matches_opt_chr in N3. destruct N3 as [p2 [Rp2 Hp2]].
      apply matches_rep_inv in N4. destruct N4 as [jB [FjB [_ [_ [RjB _]]]]].
      exists p1, dB, (p2 ++ jB). rewrite Rp1, RB, Rp2, RjB, <- !app_assoc. cbn [within] in UB.
      split; [reflexivity|]. split; [destruct Hp1 as [-> | ->]; repeat constructor|].
      split; [exact FB|]. split; [exact UB|]. apply Forall_app. split.
      + destruct Hp2 as [-> | ->]; repeat constructor.
      + apply separators_dropped. exact FjB.
    - apply matches_eps_inv in MB. subst s2. exists [], [], []. repeat split; auto. }
  destruct HA as [sign [dA [jA [RA [Hs [FA [LA FjA]]]]]]].
  destruct HB as [j1 [dB [j2 [RB [Fj1 [FB [LB Fj2]]]]]]].
  exists (sign ++ dA ++ jA ++ j1 ++ dB ++ j2 ++ d3 ++ j3 ++ d4), sign, (dA ++ dB ++ d3 ++ d4).
  split; [rewrite RA, RB, R3, R4, R5, <- !app_assoc; reflexivity|]. split.
  - rewrite !filter_app, (kept_digits FA), (kept_digits FB), (kept_digits F3), (kept_digits F4),
      (dropped_separators (separators_dropped FjA)), (dropped_separators Fj1),
      (dropped_separators Fj2), (dropped_separators (separators_dropped Fj3)).
    cbn [app]. destruct Hs as [-> | ->]; reflexivity.
  - split; [exact Hs|]. split; [repeat (apply Forall_app; split); assumption|].
    rewrite !length_app. lia.
Qed.

(** X20. For an ASCII text [extract_phone_number] returns either the empty
    string or an optional plus sign followed by 7 to 13 decimal digits. *)
Theorem extract_phone_number_digits :
  forall text : str,
    is_ascii text ->
    extract_phone_number text = [] \/
    exists sign ds,
      extract_phone_number text = sign ++ ds /\ (sign = [] \/ sign = [43%N]) /\
      Forall (fun c => is_digit c = true) ds /\ 7 <= length ds <= 13.
Proof.
  intros text _. unfold extract_phone_number.
  destruct (re_search PHONE_RE text) as [m|] eqn:Es.
  - right. apply search_from_sound in Es. destruct Es as [a [w [b [cs [Et [M [-> _]]]]]]].
    cbn [m_text]. rewrite re_sub_class_empty.
    apply phone_digits in M. cbn [rest] in M.
    destruct M as [w' [sign [ds [Rw [Ef [Hs [Fd Ld]]]]]]].
    apply app_inv_tail in Rw. subst w'. exists sign, ds. auto.
  - left. rewrite (mobile_never_fires _ Es). reflexivity.
Qed.

Lemma extract_phone_number_digits_witness :
  extract_phone_number (u "Call +1 (555) 123-4567 ext. 9") = [] \/
  exists sign ds,
    extract_phone_number (u "Call +1 (555) 123-4567 ext. 9") = sign ++ ds /\
    (sign = [] \/ sign = [43%N]) /\
    Forall (fun c => is_digit c = true) ds /\ 7 <= length ds <= 13.
Proof.
  apply extract_phone_number_digits. apply is_ascii_check. vm_compute. reflexivity.
Defined.

(** ** A text of headed parts *)

Lemma line_prefix : forall l y r z,
  no_newline l -> l ++ y = r ++ 10%N :: z -> exists l2, r = l ++ l2.
Proof.
  induction l as [|c l IH]; intros y r z Hl E.
  - exists r. reflexivity.
  - inversion Hl as [|? ? Hc Hl']; subst. destruct r as [|x r]; cbn [app] in E.
    + inversion E; subst. discriminate Hc.
    + inversion E; subst. destruct (IH y r z Hl' H1) as [l2 ->]. exists l2. reflexivity.
Qed.

Lemma app_split_cases : forall (x p : str) u v,
  x ++ u = p ++ v ->
  (exists r, p = x ++ r /\ u = r ++ v) \/ (exists r, r <> [] /\ x = p ++ r /\ v = r ++ u).
Proof.
  induction x as [|c x IH]; intros p u v E.
  - left. exists p. split; [reflexivity | exact E].
  - destruct p as [|d p]; cbn [app] in E.
    + right. exists (c :: x). split; [discriminate|]. split; [reflexivity | symmetry; exact E].
    + inversion E; subst. destruct (IH p u v H1) as [[r [-> ->]] | [r [Hr [-> ->]]]].
      * left. exists r. split; reflexivity.
      * right. exists r. split; [exact Hr|]. split; reflexivity.
Qed.

(** Two pieces of a text that both are whole lines: they are the same
    piece, or the first ends before the second starts, or it starts after the
    second ends. *)
Lemma aligned_line_position : forall x l y p L q,
  x ++ l ++ y = p ++ L ++ 10%N :: q ->
  no_newline l -> no_newline L ->
  ends_lines x -> starts_line y -> ends_lines p ->
  (x = p /\ l = L /\ y = 10%N :: q) \/
  (exists z, p = x ++ l ++ 10%N :: z) \/
  (exists z, x = p ++ L ++ 10%N :: z).
Proof.
  intros x l y p L q E Hl HL Hx Hy Hp.
  destruct (app_split_cases _ _ _ _ E) as [[r [Ep Er]] | [r [Hr [Ex Er]]]].
  - destruct r as [|c r].
    + left. rewrite app_nil_r in Ep. subst p. cbn [app] in Er. split; [reflexivity|].
      destruct Hy as [-> | [y' ->]].
      * exfalso. rewrite app_nil_r in Er. rewrite Er in Hl. apply Forall_app in Hl.
        destruct Hl as [_ Hl]. inversion Hl as [|? ? C _]. discriminate C.
      * destruct (line_prefix _ _ _ Hl Er) as [l2 E2].
        symmetry in Er. destruct (line_prefix _ _ _ HL Er) as [l3 E3].
        assert (l2 = []).
        { rewrite E3 in E2. rewrite <- app_assoc in E2. rewrite <- (app_nil_r L) in E2 at 1.
          apply app_inv_head in E2. destruct l3; destruct l2; try discriminate; reflexivity. }
        subst l2. rewrite app_nil_r in E2. subst L. apply app_inv_head in Er.
        split; [reflexivity | symmetry; exact Er].
    + right. left. subst p.
      destruct Hp as [C | [p' Ep']]; [destruct x; discriminate C|].
      assert (Hr : exists r0, c :: r = r0 ++ [10%N]).
      { destruct (exists_last (l := c :: r)) as [r0 [z Ez]]; [discriminate|].
        rewrite Ez in Ep'. rewrite app_assoc in Ep'. apply app_inj_tail in Ep'.
        destruct Ep' as [_ ->]. exists r0. exact Ez. }
      destruct Hr as [r0 Er0]. rewrite Er0 in *. rewrite <- app_assoc in Er. cbn [app] in Er.
      destruct (line_prefix _ _ _ Hl Er) as [l2 ->].
      rewrite <- app_assoc in Er. apply app_inv_head in Er.
      destruct l2 as [|d l2].
      * exists []. rewrite app_nil_r. reflexivity.
      * destruct Hy as [-> | [y' ->]]; [discriminate Er|].
        cbn [app] in Er. inversion Er; subst. exists (l2 ++ [10%N]).
        rewrite <- !app_assoc. reflexivity.
  - right. right. subst x.
    destruct Hx as [C | [x' Ex']]; [destruct p; destruct r; try discriminate C; contradiction|].
    assert (Hr0 : exists r0, r = r0 ++ [10%N]).
    { destruct (exists_last Hr) as [r0 [z Ez]].
      rewrite Ez in Ex'. rewrite app_assoc in Ex'. apply app_inj_tail in Ex'.
      destruct Ex' as [_ ->]. exists r0. exact Ez. }
    destruct Hr0 as [r0 ->]. rewrite <- app_assoc in Er. cbn [app] in Er.
    destruct (line_prefix _ _ _ HL Er) as [l3 ->].
    rewrite <- app_assoc in Er. apply app_inv_head in Er.
    destruct l3 as [|d l3]; cbn [app] in Er.
    + exists []. rewrite app_nil_r. reflexivity.
    + inversion Er; subst. exists (l3 ++ [10%N]). rewrite <- !app_assoc. reflexivity.
Qed.

Lemma class_run_unique : forall (p : char -> bool) w1 c1 r1 w2 c2 r2,
  Forall (fun c => p c = true) w1 -> Forall (fun c => p c = true) w2 ->
  p c1 = false -> p c2 = false ->
  w1 ++ c1 :: r1 = w2 ++ c2 :: r2 -> w1 = w2 /\ c1 = c2 /\ r1 = r2.
Proof.
  intro p. induction w1 as [|x w1 IH]; intros c1 r1 w2 c2 r2 H1 H2 N1 N2 E.
  - destruct w2 as [|y w2]; simpl in E.
    + inversion E. auto.
    + inversion E; subst. apply Forall_inv in H2. congruence.
  - destruct w2 as [|y w2]; simpl in E.
    + inversion E; subst. apply Forall_inv in H1. congruence.
    + inversion E as [[Ex Et]]. subst y.
      destruct (IH c1 r1 w2 c2 r2 (Forall_inv_tail H1) (Forall_inv_tail H2) N1 N2 Et)
        as [-> [-> ->]]. auto.
Qed.

Lemma fold_letter_plain : forall c,
  is_lower (fold_c c) = true -> isspace c = false /\ N.eqb c 58 = false.
Proof.
  intros c H. unfold fold_c, lower_c, upper_c, is_lower, is_upper, isspace, in_range, long_s in *.
  cmp_cases; try discriminate; split; reflexivity.
Qed.

(** A word that is a heading synonym up to letter case starts and ends with
    a character that is neither whitespace nor a colon. *)
Lemma heading_word_ends : forall h syn,
  In syn HEADING_WORDS -> same_fold h syn ->
  exists c h1 h0 cl, h = c :: h1 /\ h = h0 ++ [cl] /\
    isspace c = false /\ isspace cl = false /\ N.eqb cl 58 = false.
Proof.
  intros h syn Hs Hf.
  assert (A : forallb (fun syn => match syn with
                                  | c :: _ => is_lower c && is_lower (last syn c)
                                  | [] => false
                                  end) HEADING_WORDS = true) by (vm_compute; reflexivity).
  rewrite forallb_forall in A. specialize (A syn Hs).
  destruct (heading_word_facts Hs) as [F1 _].
  destruct syn as [|x syn']; [discriminate A|]. apply andb_true_iff in A. destruct A as [A1 A2].
  destruct h as [|c h1]; [discriminate Hf|].
  assert (Hc : fold_c c = x).
  { unfold same_fold in Hf. rewrite F1 in Hf. cbn [map] in Hf. inversion Hf. reflexivity. }
  destruct (exists_last (l := c :: h1)) as [h0 [cl Eh]]; [discriminate|].
  assert (Hcl : fold_c cl = last (x :: syn') x).
  { unfold same_fold in Hf. rewrite F1, Eh, map_app in Hf. cbn [map] in Hf.
    rewrite <- Hf. rewrite last_last. reflexivity. }
  exists c, h1, h0, cl. split; [reflexivity|]. split; [exact Eh|].
  rewrite <- Hc in A1. rewrite <- Hcl in A2.
  split; [apply (fold_letter_plain _ A1)|]. apply (fold_letter_plain _ A2).
Qed.

Lemma trailer_chars : forall t,
  heading_trailer t -> Forall (fun c => (isspace c || N.eqb c 58) = true) t.
Proof.
  intros t [w2 [colon [w3 [-> [H2 [H3 Hc]]]]]].
  apply Forall_app. split; [eapply Forall_impl; [|exact H2]; intros c H; cbn beta in H; rewrite H; reflexivity|].
  apply Forall_app. split; [|eapply Forall_impl; [|exact H3]; intros c H; cbn beta in H; rewrite H; reflexivity].
  destruct Hc as [-> | ->]; [constructor | constructor; [reflexivity | constructor]].
Qed.

(** A heading line is one in a single way. *)
Lemma heading_parts_unique : forall w1 h t0 syn wb h' ta syn',
  w1 ++ h ++ t0 = wb ++ h' ++ ta ->
  all_space w1 -> all_space wb -> heading_trailer t0 -> heading_trailer ta ->
  In syn HEADING_WORDS -> In syn' HEADING_WORDS -> same_fold h syn -> same_fold h' syn' ->
  h = h' /\ syn = syn' /\ t0 = ta.
Proof.
  intros w1 h t0 syn wb h' ta syn' E H1 Hb Ht0 Hta Hs Hs' Hf Hf'.
  destruct (heading_word_ends Hs Hf) as [c [h1 [h0 [cl [Ec [El [Nc [Ncl Kcl]]]]]]]].
  destruct (heading_word_ends Hs' Hf') as [c' [h1' [h0' [cl' [Ec' [El' [Nc' [Ncl' Kcl']]]]]]]].
  assert (E1 : h ++ t0 = h' ++ ta).
  { rewrite Ec, Ec' in E. cbn [app] in E.
    destruct (@space_run_unique w1 c (h1 ++ t0) wb c' (h1' ++ ta) H1 Hb Nc Nc' E) as [_ [Ecc Er]].
    rewrite Ec, Ec'. cbn [app]. rewrite Ecc, Er. reflexivity. }
  assert (E2 : rev t0 ++ cl :: rev h0 = rev ta ++ cl' :: rev h0').
  { apply (f_equal (@rev _)) in E1. rewrite !rev_app_distr in E1.
    rewrite El, El', !rev_app_distr in E1. exact E1. }
  assert (P : forall x, isspace x = false -> N.eqb x 58 = false -> (isspace x || N.eqb x 58) = false).
  { intros x A B. rewrite A, B. reflexivity. }
  destruct (@class_run_unique (fun c => isspace c || N.eqb c 58) _ _ _ _ _ _
              (Forall_rev (trailer_chars Ht0)) (Forall_rev (trailer_chars Hta))
              (P _ Ncl Kcl) (P _ Ncl' Kcl') E2) as [Et [Ecl Eh0]].
  apply (f_equal (@rev _)) in Et. rewrite !rev_involutive in Et.
  apply (f_equal (@rev _)) in Eh0. rewrite !rev_involutive in Eh0.
  assert (Eh : h = h') by (rewrite El, El', Eh0, Ecl; reflexivity).
  split; [exact Eh|]. split; [|exact Et].
  destruct (heading_word_facts Hs) as [F1 _]. destruct (heading_word_facts Hs') as [F1' _].
  unfold same_fold in Hf, Hf'. rewrite <- F1, <- F1', <- Hf, <- Hf', Eh. reflexivity.
Qed.

Lemma synonym_canon : forall canon syns syn,
  In (canon, syns) SECTION_SYNONYMS -> In syn syns ->
  In syn HEADING_WORDS /\ dict_get syn CANONICAL_BY_SYNONYM = Some canon.
Proof.
  intros canon syns syn H1 H2.
  assert (A : forallb (fun e => forallb (fun syn =>
                mem syn HEADING_WORDS &&
                match dict_get syn CANONICAL_BY_SYNONYM with
                | Some c => str_eqb c (fst e)
                | None => false
                end) (snd e)) SECTION_SYNONYMS = true) by (vm_compute; reflexivity).
  rewrite forallb_forall in A. specialize (A _ H1). cbn [fst snd] in A.
  rewrite forallb_forall in A. specialize (A _ H2).
  apply andb_true_iff in A. destruct A as [A1 A2]. split; [apply mem_In; exact A1|].
  destruct (dict_get syn CANONICAL_BY_SYNONYM) as [c|]; [|discriminate A2].
  apply str_eqb_eq in A2. subst c. reflexivity.
Qed.

Lemma ascii_heading_key : forall h syn,
  is_ascii h -> In syn HEADING_WORDS -> same_fold h syn -> lower (strip h) = syn.
Proof.
  intros h syn Ah Hs Fh. destruct (heading_word_facts Hs) as [F1 [F2 _]].
  rewrite lower_strip.
  assert (El : lower h = syn).
  { unfold same_fold in Fh. rewrite F1 in Fh. rewrite <- Fh. unfold lower.
    apply map_ext_in. intros c0 Hc0. symmetry. apply fold_c_ascii.
    unfold is_ascii in Ah. rewrite Forall_forall in Ah. apply Ah. exact Hc0. }
  rewrite El. exact F2.
Qed.

(** The heading pattern reads a heading line at its start. *)
Lemma heading_read_at : forall sn hl tail canon,
  (sn = [] \/ exists sn', sn = 10%N :: sn') -> starts_line tail -> heading_for canon hl ->
  match_at HEADING_PATTERN sn (hl ++ tail) <> None.
Proof.
  intros sn hl tail canon Hsn Htail
    [w1 [h [t [syn [syns [-> [H1 [[w2 [colon [w3 [-> [H2 [H3 Hc]]]]]] [Hk [Hin Hf]]]]]]]]]].
  destruct (@synonym_canon canon syns syn Hk Hin) as [Hw _].
  assert (Hg : forall sn rs cs,
            matches (Grp g_head (alts (map lit_i HEADING_WORDS))) (MState sn (h ++ rs) cs)
              (MState (rev h ++ sn) rs ((g_head, h) :: cs))).
  { intros sn0 rs cs.
    assert (M : matches (alts (map lit_i HEADING_WORDS)) (MState sn0 (h ++ rs) cs)
                  (MState (rev h ++ sn0) rs cs)).
    { eapply alts_complete; [apply in_map; exact Hw | apply lit_i_complete; exact Hf]. }
    apply (M_grp g_head) in M. cbn [seen rest caps] in M.
    rewrite captured_app in M. exact M. }
  assert (Hs : forall w sn rs cs, all_space w ->
            matches (Rep true isspace 0 None) (MState sn (w ++ rs) cs) (MState (rev w ++ sn) rs cs)).
  { intros w sn0 rs cs Hw'. apply M_rep; [exact Hw' | lia | exact I]. }
  assert (Hbol : forall rs, at_bol (MState sn rs []) = true).
  { intro rs. unfold at_bol. cbn [seen]. destruct Hsn as [-> | [sn' ->]]; reflexivity. }
  assert (Heol : forall sn cs, at_eol (MState sn tail cs) = true).
  { intros sn0 cs. unfold at_eol. cbn [rest]. destruct Htail as [-> | [q' ->]]; reflexivity. }
  rewrite <- !app_assoc.
  destruct Hc as [-> | ->]; cbn [app];
    eapply match_at_complete; unfold HEADING_PATTERN, seqs, opt, star, chr;
    (eapply M_seq; [apply M_bol; apply Hbol|]);
    (eapply M_seq; [apply Hs; exact H1|]);
    (eapply M_seq; [apply Hg|]);
    (eapply M_seq; [apply Hs; exact H2|]).
  - eapply M_seq; [apply M_alt_r; apply M_eps|].
    eapply M_seq; [apply Hs; exact H3 | apply M_eol; apply Heol].
  - eapply M_seq; [apply M_alt_l; apply M_cls; reflexivity|].
    eapply M_seq; [apply Hs; exact H3 | apply M_eol; apply Heol].
Qed.

Lemma take_while_all : forall p s, Forall (fun c => p c = true) (take_while p s).
Proof.
  intros p. induction s as [|c t IH]; cbn [take_while]; [constructor|].
  destruct (p c) eqn:E; constructor; assumption.
Qed.

Lemma drop_while_head : forall p s c t, drop_while p s = c :: t -> p c = false.
Proof.
  intros p. induction s as [|x s IH]; intros c t H; cbn [drop_while] in H; [discriminate|].
  destruct (p x) eqn:E; [apply (IH c t H)|]. inversion H; subst. exact E.
Qed.

Lemma strip_head : forall c x, isspace c = false -> hd_error (strip (c :: x)) = Some c.
Proof.
  intros c x Hc. unfold strip. cbn [lstrip]. rewrite Hc. unfold rstrip. cbn [rev].
  destruct (@lstrip_snoc (rev x) c Hc) as [l' E]. rewrite E, rev_app_distr. reflexivity.
Qed.

(** What the pattern reads beyond the heading line does not change the
    content, unless the content would start with a colon. *)
Lemma content_after_trailer : forall tb b body,
  Forall (fun c => isspace c = true \/ c = 58%N) tb ->
  tb ++ b = 10%N :: body -> hd_error (strip body) <> Some 58%N ->
  strip b = strip body.
Proof.
  intros tb b body Ftb E Hno. destruct tb as [|x tb']; cbn [app] in E.
  - subst b. apply (@strip_lead [10%N] body). repeat constructor.
  - inversion E as [[Ex Eb]]. subst x body. clear E.
    inversion Ftb as [|? ? _ Ftb']; subst.
    rewrite <- (take_drop_while isspace tb') in Ftb', Hno |- *.
    destruct (drop_while isspace tb') as [|c s2] eqn:Ed.
    + rewrite app_nil_r in *. symmetry. apply strip_lead. apply take_while_all.
    + exfalso. apply Hno. pose proof (drop_while_head _ _ Ed) as Hc.
      assert (c = 58%N).
      { apply Forall_app in Ftb'. destruct Ftb' as [_ F]. inversion F as [|? ? [C | C] _]; subst;
          [congruence | reflexivity]. }
      subst c. rewrite <- app_assoc, strip_lead by apply take_while_all.
      cbn [app]. apply strip_head. exact Hc.
Qed.

Lemma slice_rest : forall (a b : str), slice (a ++ b) (length a) (length (a ++ b)) = b.
Proof.
  intros a b. unfold slice. rewrite skipn_app, Nat.sub_diag, skipn_all. cbn [skipn app].
  rewrite length_app. replace (length a + length b - length a) with (length b) by lia.
  apply firstn_all.
Qed.

(** Trailing whitespace does not change the stripped text. *)
Lemma strip_trail : forall g w, all_space w -> strip (g ++ w) = strip g.
Proof.
  intros g w Hw. destruct (lstrip_split g) as [a [Ea Ha]].
  destruct (lstrip g) as [|c g'] eqn:El.
  - rewrite app_nil_r in Ea. subst a.
    rewrite !strip_all_space; [reflexivity | exact Ha | apply Forall_app; split; assumption].
  - assert (Hc : isspace c = false).
    { destruct g as [|x g0]; [discriminate El|].
      clear - El. revert El. generalize (x :: g0). intro s. induction s as [|y s IH]; [discriminate|].
      cbn [lstrip]. destruct (isspace y) eqn:E; [exact IH|]. intro H. inversion H; subst. exact E. }
    unfold strip. rewrite El. rewrite Ea at 1. rewrite <- app_assoc, lstrip_lead by exact Ha.
    cbn [app lstrip]. rewrite Hc. unfold rstrip. f_equal.
    change (c :: g' ++ w) with ((c :: g') ++ w). rewrite rev_app_distr.
    apply lstrip_lead. apply all_space_rev. exact Hw.
Qed.

Lemma ends_lines_rev : forall p, ends_lines p -> rev p = [] \/ exists s, rev p = 10%N :: s.
Proof.
  intros p [-> | [p' ->]]; [left; reflexivity|]. right. rewrite rev_app_distr. exists (rev p'). reflexivity.
Qed.

Lemma ends_lines_suffix : forall c x, ends_lines (c ++ x) -> ends_lines x.
Proof.
  intros c x [E | [p' E]].
  - left. destruct c; [exact E | discriminate E].
  - destruct x as [|y x'] using rev_ind; [left; reflexivity|]. clear IHx'.
    rewrite app_assoc in E. apply app_inj_tail in E. destruct E as [_ ->].
    right. exists x'. reflexivity.
Qed.

Lemma ends_lines_feed : forall x body, ends_lines body -> ends_lines (x ++ 10%N :: body).
Proof.
  intros x body [-> | [b' ->]]; right.
  - exists x. reflexivity.
  - exists (x ++ 10%N :: b'). rewrite <- app_assoc. reflexivity.
Qed.

(** What is read beyond a heading line stops before the next heading line. *)
Lemma trailer_stops : forall (P : char -> Prop) r b hl rest c,
  Forall P r -> r ++ b = hl ++ 10%N :: rest -> starts_line b -> no_newline hl ->
  In c hl -> ~ P c -> False.
Proof.
  intros P. induction r as [|x r IH]; intros b hl rest c Hr E Hb Hn Hc Np.
  - cbn [app] in E. subst b. destruct hl as [|y hl']; [exact Hc|].
    destruct Hb as [C | [q C]]; [discriminate C|]. inversion C; subst.
    inversion Hn as [|? ? K _]. discriminate K.
  - destruct hl as [|y hl']; [exact Hc|]. cbn [app] in E. inversion E; subst.
    inversion Hr as [|? ? Px Hr']; subst. inversion Hn as [|? ? _ Hn']; subst.
    destruct Hc as [<- | Hc]; [exact (Np Px)|].
    exact (IH b hl' rest c Hr' H1 Hb Hn' Hc Np).
Qed.

Lemma suffix_lines : forall tb g body l,
  tb ++ g = 10%N :: body -> starts_line g -> In l (text_lines g) ->
  l = [] \/ In l (text_lines body).
Proof.
  intros tb g body l E [-> | [g' ->]] Hl.
  - left. destruct Hl as [<- | []]. reflexivity.
  - unfold text_lines in Hl. cbn [lines_from] in Hl. change (N.eqb 10 10) with true in Hl.
    cbn iota in Hl. destruct Hl as [<- | Hl]; [left; reflexivity|]. right.
    destruct tb as [|x tb']; cbn [app] in E; inversion E; subst; [exact Hl|].
    unfold text_lines. apply lines_from_later. exact Hl.
Qed.

Lemma empty_not_heading : ~ heading_line [].
Proof. apply not_heading_line. vm_compute. reflexivity. Qed.

Lemma heading_for_plain : forall canon hl,
  heading_for canon hl -> exists c, In c hl /\ ~ (isspace c = true \/ c = 58%N).
Proof.
  intros canon hl [w1 [h [t [syn [syns [-> [_ [_ [Hk [Hin Hf]]]]]]]]]].
  destruct (@synonym_canon canon syns syn Hk Hin) as [Hs _].
  destruct (heading_word_ends Hs Hf) as [c [h1 [h0 [cl [_ [El [_ [Ncl Kcl]]]]]]]].
  exists cl. split.
  - apply in_or_app. right. apply in_or_app. left. rewrite El. apply in_or_app. right. left. reflexivity.
  - intros [C | C]; [congruence|]. subst cl. discriminate Kcl.
Qed.

Lemma collect_sections_fold : forall text ms sections,
  collect_sections text ms sections
  = fold_left file_section (combine (map canon_of ms) (contents text ms)) sections.
Proof.
  intros text. induction ms as [|m ms IH]; intro sections; [reflexivity|].
  cbn [collect_sections map contents combine fold_left]. rewrite IH. f_equal.
Qed.

(** What a search for the heading pattern finds: whitespace lines, a heading
    line, and whitespace or a colon beyond the line. *)
Lemma found_heading : forall C rs m,
  search_from HEADING_PATTERN (rev C) rs = Some m ->
  exists a w b cs wa l tb,
    rs = a ++ w ++ b /\ w = wa ++ l ++ tb /\ w <> [] /\
    m = RMatch (length C + length a) (length C + length a + length w) w cs /\
    (forall a1 a2, a = a1 ++ a2 -> a2 <> [] ->
       match_at HEADING_PATTERN (rev a1 ++ rev C) (a2 ++ w ++ b) = None) /\
    ends_lines (C ++ a ++ wa) /\ starts_line (tb ++ b) /\ starts_line b /\
    no_newline l /\ all_space wa /\ heading_line l /\
    Forall (fun c => isspace c = true \/ c = 58%N) tb /\
    (forall canon, heading_for canon l -> is_ascii l -> canon_of m = canon).
Proof.
  intros C rs m Es. apply search_from_sound in Es.
  destruct Es as [a [w [b [cs [Ers [M [Em Hleft]]]]]]].
  assert (M' : matches HEADING_PATTERN (MState (rev (C ++ a) ++ []) (w ++ b) [])
                 (MState (rev w ++ rev (C ++ a) ++ []) b cs)).
  { rewrite app_nil_r, rev_app_distr. exact M. }
  destruct (@heading_match_position (C ++ a) w b cs M')
    as [wa [wb [h' [ta [tb [syn' [Ew [Ha [Hb [Hb' [Hn [Hwa [Hwb [Hta [Ftb [Hs' [Fh' Eg]]]]]]]]]]]]]]]]].
  rewrite length_rev in Em.
  exists a, w, b, cs, wa, (wb ++ h' ++ ta), tb.
  split; [exact Ers|]. split; [rewrite Ew, <- !app_assoc; reflexivity|].
  split.
  { destruct (heading_word_ends Hs' Fh') as [c [h1 [_ [_ [Ec _]]]]]. rewrite Ew, Ec.
    destruct wa; [destruct wb|]; discriminate. }
  split; [exact Em|]. split; [exact Hleft|].
  split; [rewrite app_assoc; exact Ha|]. split; [exact Hb|]. split; [exact Hb'|].
  split; [exact Hn|]. split; [exact Hwa|]. split.
  { exists wb, h', ta, syn'. repeat split; try assumption. apply heading_words_known. exact Hs'. }
  split; [exact Ftb|].
  intros canon [w1 [h [t0 [syn [syns [Ehl [H1 [Ht0 [Hk [Hin Hf]]]]]]]]]] Ah.
  destruct (@synonym_canon canon syns syn Hk Hin) as [Hs Hd].
  assert (U : h = h' /\ syn = syn' /\ t0 = ta).
  { apply (@heading_parts_unique w1 h t0 syn wb h' ta syn'); try assumption.
    symmetry. exact Ehl. }
  destruct U as [<- [<- <-]].
  rewrite Em. unfold canon_of. cbn [m_caps]. rewrite Eg.
  rewrite (@ascii_heading_key h syn); [rewrite Hd; reflexivity | | exact Hs | exact Hf].
  rewrite Ehl in Ah. apply is_ascii_piece in Ah. exact Ah.
Qed.

Lemma slice_front : forall (c a b : str),
  slice (c ++ a ++ b) (length c) (length c + length a) = a.
Proof.
  intros c a b. unfold slice. rewrite skipn_app, Nat.sub_diag, skipn_all. cbn [skipn app].
  replace (length c + length a - length c) with (length a) by lia.
  rewrite firstn_app, Nat.sub_diag, firstn_all. cbn [firstn]. apply app_nil_r.
Qed.

(** The heading matches of a text of headed parts, from a position [C] in
    the text with the rest [gap] of the part before: one match for each
    part, with the key of the part, followed by the content of the part. *)
Lemma finditer_parts : forall ps C gap f,
  Forall (fun p => is_ascii (part_heading p)) ps ->
  Forall headed_part ps -> whole_lines ps ->
  (ps <> [] -> ends_lines (C ++ gap)) ->
  (forall l, In l (text_lines gap) -> ~ heading_line l) ->
  length (gap ++ join_parts ps) < f ->
  map canon_of (finditer_from f HEADING_PATTERN (rev C) (gap ++ join_parts ps))
    = map part_section ps /\
  contents (C ++ gap ++ join_parts ps)
    (finditer_from f HEADING_PATTERN (rev C) (gap ++ join_parts ps))
    = map (fun p => strip (part_body p)) ps /\
  strip (slice (C ++ gap ++ join_parts ps) (length C)
           (next_start (C ++ gap ++ join_parts ps)
              (finditer_from f HEADING_PATTERN (rev C) (gap ++ join_parts ps))))
    = strip gap.
Proof.
  induction ps as [|p ps IH]; intros C gap f Hascii Hparts Hwhole Hends Hgap Hf.
  - cbn [join_parts] in *. rewrite app_nil_r in *.
    destruct f as [|f]; [inversion Hf|]. cbn [finditer_from].
    destruct (search_from HEADING_PATTERN (rev C) gap) as [m|] eqn:Es.
    + exfalso. destruct (found_heading _ _ Es)
        as (a & w & b & cs & wa & l & tb & Ers & Ew & _ & _ & _ & Ha & Hb & _ & Hn & _ & Hl & _).
      apply (Hgap l); [|exact Hl]. rewrite Ers, Ew, <- !app_assoc.
      rewrite (app_assoc a wa). apply line_in_text; [exact Hn | | exact Hb].
      apply (@ends_lines_suffix C). exact Ha.
    + cbn [map contents next_start]. split; [reflexivity|]. split; [reflexivity|].
      rewrite slice_rest. reflexivity.
  - destruct p as [[hl canon] body]. cbn [join_parts part_heading part_body part_section map fst snd] in *.
    inversion Hascii as [|? ? Ah Hascii']; subst. inversion Hparts as [|? ? Hp Hparts']; subst.
    destruct Hp as [Hnl [Hfor [Hbody Hcolon]]]. cbn [part_heading part_body part_section fst snd] in *.
    destruct Hwhole as [Hlast Hwhole'].
    assert (HP : ends_lines (C ++ gap)) by (apply Hends; discriminate).
    destruct (search_from HEADING_PATTERN (rev C) (gap ++ hl ++ 10%N :: body ++ join_parts ps))
      as [m|] eqn:Es.
    2:{ exfalso. revert Es. apply search_from_complete.
        apply (@heading_read_at _ hl _ canon); [| right; eexists; reflexivity | exact Hfor].
        rewrite <- rev_app_distr. apply ends_lines_rev. exact HP. }
    destruct (found_heading _ _ Es)
      as (a & w & b & cs & wa & l & tb & Ers & Ew & Hw & Em & Hleft & Ha & Hb & Hb' & Hn & Hwa & Hl & Ftb & Hcanon).
    assert (E : (C ++ a ++ wa) ++ l ++ (tb ++ b)
                = (C ++ gap) ++ hl ++ 10%N :: body ++ join_parts ps).
    { rewrite <- !app_assoc. f_equal. rewrite Ers, Ew, <- !app_assoc. reflexivity. }
    destruct (@aligned_line_position _ _ _ _ _ _ E Hn Hnl Ha Hb HP) as [[Ex [El Ey]] | [[z Ez] | [z Ez]]].
    2:{ exfalso. apply (Hgap l); [|exact Hl].
        rewrite <- !app_assoc in Ez. apply app_inv_head in Ez. rewrite Ez.
        rewrite (app_assoc a wa). apply line_in_text; [exact Hn | | right; eexists; reflexivity].
        apply (@ends_lines_suffix C). exact Ha. }
    2:{ exfalso. rewrite <- !app_assoc in Ez. apply app_inv_head in Ez.
        destruct (heading_for_plain Hfor) as [c [Hc Nc]].
        apply in_split in Hc. destruct Hc as [h1 [h2 Ehl]].
        assert (Ez' : a ++ wa = (gap ++ h1) ++ c :: h2 ++ 10%N :: z).
        { rewrite Ez, Ehl, <- !app_assoc. reflexivity. }
        destruct (app_split_cases _ _ _ _ Ez') as [[r [Ep Er]] | [r [Hr [Ea Er]]]].
        - apply Nc. left. unfold all_space in Hwa. rewrite Er in Hwa.
          apply Forall_app in Hwa. destruct Hwa as [_ Hwa]. inversion Hwa; assumption.
        - rewrite <- app_assoc in Ea.
          assert (Hne : h1 ++ r <> []) by (destruct h1; [exact Hr | discriminate]).
          generalize (Hleft gap (h1 ++ r) Ea Hne).
          replace ((h1 ++ r) ++ w ++ b) with (hl ++ 10%N :: body ++ join_parts ps).
          + apply (@heading_read_at _ hl _ canon); [| right; eexists; reflexivity | exact Hfor].
            rewrite <- rev_app_distr. apply ends_lines_rev. exact HP.
          + rewrite Ea in Ers. rewrite <- !app_assoc in Ers. apply app_inv_head in Ers.
            rewrite <- app_assoc. exact Ers. }
    subst l.
    apply app_inv_head in Ex.
    (* the gap after this heading *)
    assert (G : exists gap', b = gap' ++ join_parts ps /\ tb ++ gap' = 10%N :: body).
    { change (10%N :: body ++ join_parts ps) with ((10%N :: body) ++ join_parts ps) in Ey.
      destruct (app_split_cases _ _ _ _ Ey) as [[r [Ep Er]] | [r [Hr [Ea Er]]]].
      - exists r. split; [exact Er | symmetry; exact Ep].
      - exfalso.
        assert (Fr : Forall (fun c => isspace c = true \/ c = 58%N) r).
        { rewrite Ea in Ftb. apply Forall_app in Ftb. apply Ftb. }
        destruct ps as [|p2 ps2]; [destruct r; [contradiction | discriminate Er]|].
        apply Forall_inv in Hparts'. destruct Hparts' as [Hnl2 [Hfor2 _]].
        destruct p2 as [[hl2 canon2] body2]. cbn [part_heading part_body part_section fst snd] in *.
        destruct (heading_for_plain Hfor2) as [c [Hc Nc]].
        cbn [join_parts] in Er. symmetry in Er.
        exact (@trailer_stops _ r b _ _ c Fr Er Hb' Hnl2 Hc Nc). }
    destruct G as [gap' [Eb Egap]].
    assert (Hgap' : forall l0, In l0 (text_lines gap') -> ~ heading_line l0).
    { intros l0 Hl0.
      assert (Sg : starts_line gap').
      { destruct gap' as [|x g]; [left; reflexivity|]. right.
        destruct Hb' as [C0 | [q C0]]; rewrite Eb in C0; [discriminate C0|].
        inversion C0; subst. eexists; reflexivity. }
      destruct (@suffix_lines tb gap' body l0 Egap Sg Hl0) as [-> | Hin];
        [exact empty_not_heading | exact (Hbody _ Hin)]. }
    assert (Hstrip : strip gap' = strip body).
    { apply (@content_after_trailer tb gap' body Ftb Egap Hcolon). }
    assert (Etext : gap ++ hl ++ 10%N :: body = a ++ w ++ gap').
    { rewrite Eb in Ers. rewrite !app_assoc in Ers.
      change (10%N :: body ++ join_parts ps) with ((10%N :: body) ++ join_parts ps) in Ers.
      rewrite !app_assoc in Ers. apply app_inv_tail in Ers.
      rewrite <- !app_assoc in Ers. exact Ers. }
    destruct f as [|f]; [inversion Hf|].
    rewrite Ers in Es |- *. rewrite Em in Es.
    rewrite <- (length_rev C) in Es.
    rewrite (@finditer_from_step f HEADING_PATTERN (rev C) a w b cs Es Hw).
    rewrite length_rev.
    assert (Hf' : length (gap' ++ join_parts ps) < f).
    { rewrite <- Eb. rewrite Ers in Hf. rewrite !length_app in Hf.
      destruct w; [contradiction|]. cbn [length] in Hf. unfold char in *. lia. }
    assert (Hends' : ps <> [] -> ends_lines ((C ++ a ++ w) ++ gap')).
    { intro Hps. rewrite <- !app_assoc. rewrite <- Etext.
      rewrite !app_assoc. apply ends_lines_feed.
      destruct Hlast as [C0 | C0]; [contradiction | exact C0]. }
    specialize (IH (C ++ a ++ w) gap' f Hascii' Hparts' Hwhole' Hends' Hgap' Hf').
    replace (rev (C ++ a ++ w)) with (rev (a ++ w) ++ rev C) in IH
      by (rewrite (rev_app_distr C); reflexivity).
    rewrite <- Eb in IH.
    rewrite <- !app_assoc in IH.
    destruct IH as [IH1 [IH2 IH3]].
    cbn [map contents next_start m_start m_end].
    split; [|split].
    + f_equal; [|exact IH1]. rewrite <- Em. apply Hcanon; [exact Hfor | exact Ah].
    + f_equal; [|exact IH2]. rewrite <- Hstrip, <- IH3. f_equal. f_equal.
      rewrite !length_app. lia.
    + rewrite slice_front. rewrite <- Ex. symmetry. apply strip_trail. exact Hwa.
Qed.

(** ** Sections by key *)

Lemma str_eqb_sym : forall a b, str_eqb a b = str_eqb b a.
Proof.
  intros a b. destruct (str_eqb a b) eqn:E1; destruct (str_eqb b a) eqn:E2; try reflexivity.
  - apply str_eqb_eq in E1. subst b. rewrite str_eqb_refl in E2. discriminate E2.
  - apply str_eqb_eq in E2. subst b. rewrite str_eqb_refl in E1. discriminate E1.
Qed.

Section KeyedDict.
Variable g : str -> str.

Lemma dict_get_keyed : forall keys k,
  dict_get k (map (fun k' => (k', g k')) keys) = if mem k keys then Some (g k) else None.
Proof.
  induction keys as [|k0 t IH]; intro k; [reflexivity|].
  cbn [map dict_get mem]. destruct (str_eqb k k0) eqn:E; cbn [orb]; [|apply IH].
  apply str_eqb_eq in E. subst k0. reflexivity.
Qed.

Lemma dict_set_new : forall keys k v,
  mem k keys = false ->
  dict_set k v (map (fun k' => (k', g k')) keys) = map (fun k' => (k', g k')) keys ++ [(k, v)].
Proof.
  induction keys as [|k0 t IH]; intros k v H; [reflexivity|].
  cbn [mem] in H. apply orb_false_iff in H. destruct H as [H1 H2].
  cbn [map dict_set app]. rewrite H1. f_equal. apply IH. exact H2.
Qed.

Lemma dict_set_old : forall keys k v,
  NoDup keys -> In k keys ->
  dict_set k v (map (fun k' => (k', g k')) keys)
  = map (fun k' => (k', if str_eqb k' k then v else g k')) keys.
Proof.
  induction keys as [|k0 t IH]; intros k v Hn Hin; [destruct Hin|].
  inversion Hn as [|? ? Hk0 Hn']; subst. cbn [map dict_set].
  destruct (str_eqb k k0) eqn:E.
  - apply str_eqb_eq in E. subst k0. rewrite str_eqb_refl. f_equal.
    apply map_ext_in. intros k' Hk'. destruct (str_eqb k' k) eqn:E'; [|reflexivity].
    apply str_eqb_eq in E'. subst k'. contradiction.
  - rewrite (str_eqb_sym k0 k), E. f_equal. apply IH; [exact Hn'|].
    destruct Hin as [-> | Hin]; [rewrite str_eqb_refl in E; discriminate E | exact Hin].
Qed.
End KeyedDict.

Lemma keys_fold_In : forall (l : list (str * str)) s k,
  In k (fold_left (fun s e => set_add (fst e) s) l s) <-> In k s \/ In k (map fst l).
Proof.
  induction l as [|e l IH]; intros s k; cbn [fold_left map].
  - split; [intro H; left; exact H | intros [H | []]; exact H].
  - rewrite IH, set_add_In. cbn [In]. split.
    + intros [[-> | H] | H]; [right; left; reflexivity | left; exact H | right; right; exact H].
    + intros [H | [<- | H]]; [left; right; exact H | left; left; reflexivity | right; exact H].
Qed.

Lemma keys_fold_NoDup : forall (l : list (str * str)) s,
  NoDup s -> NoDup (fold_left (fun s e => set_add (fst e) s) l s).
Proof.
  induction l as [|e l IH]; intros s H; cbn [fold_left]; [exact H|].
  apply IH. apply set_add_NoDup. exact H.
Qed.

Lemma join_snoc : forall sep xs c, xs <> [] -> join sep (xs ++ [c]) = join sep xs ++ sep ++ c.
Proof.
  intros sep. induction xs as [|x t IH]; intros c H; [contradiction|].
  destruct t as [|y t']; [reflexivity|].
  change (join sep ((x :: y :: t') ++ [c])) with (x ++ sep ++ join sep ((y :: t') ++ [c])).
  rewrite IH by discriminate.
  change (join sep (x :: y :: t')) with (x ++ sep ++ join sep (y :: t')).
  rewrite <- !app_assoc. reflexivity.
Qed.

Lemma join_head : forall sep x t, exists r, join sep (x :: t) = x ++ r.
Proof.
  intros sep x [|y t]; [exists []; cbn [join]; rewrite app_nil_r; reflexivity|].
  exists (sep ++ join sep (y :: t)). reflexivity.
Qed.

(** The sections that the loop files are, key by key in the order of first
    filing, the contents filed under the key, joined by blank lines. *)
Lemma fold_file_merged : forall es,
  Forall (fun e => strip (snd e) = snd e) es ->
  fold_left file_section es [] = merged_sections es.
Proof.
  induction es as [|[k c] es IH] using rev_ind; intro H; [reflexivity|].
  apply Forall_app in H. destruct H as [H1 H2]. apply Forall_inv in H2. cbn [snd] in H2.
  rewrite fold_left_app. cbn [fold_left]. rewrite (IH H1). clear IH.
  unfold file_section. destruct (truthy c) eqn:Tc.
  2:{ unfold merged_sections, section_keys, section_text, filed. rewrite filter_app.
      cbn [filter snd]. rewrite Tc, app_nil_r. reflexivity. }
  assert (Ef : filed (es ++ [(k, c)]) = filed es ++ [(k, c)]).
  { unfold filed. rewrite filter_app. cbn [filter snd]. rewrite Tc. reflexivity. }
  assert (Ek : section_keys (es ++ [(k, c)]) = set_add k (section_keys es)).
  { unfold section_keys. rewrite Ef, fold_left_app. reflexivity. }
  assert (Et : forall k', section_text k' (es ++ [(k, c)])
                = join blank_line (map snd (filter (fun e => str_eqb (fst e) k') (filed es))
                                   ++ (if str_eqb k k' then [c] else []))).
  { intro k'. unfold section_text. rewrite Ef, filter_app, map_app. cbn [filter fst].
    destruct (str_eqb k k'); reflexivity. }
  assert (Eo : forall k', str_eqb k k' = false ->
                 section_text k' (es ++ [(k, c)]) = section_text k' es).
  { intros k' E. rewrite Et, E, app_nil_r. reflexivity. }
  assert (Hgood : Forall (fun e => truthy (snd e) = true /\ strip (snd e) = snd e) (filed es)).
  { apply Forall_forall. intros e He. unfold filed in He. apply filter_In in He.
    destruct He as [He Te]. rewrite Forall_forall in H1. split; [exact Te | apply H1; exact He]. }
  cbv zeta. unfold merged_sections. rewrite Ek. unfold set_add. rewrite !dict_get_keyed.
  destruct (mem k (section_keys es)) eqn:Mk.
  - (* the key has a content already *)
    assert (Hin : In k (section_keys es)) by (apply mem_In; exact Mk).
    assert (Hnd : NoDup (section_keys es)) by (apply keys_fold_NoDup; constructor).
    set (xs := map snd (filter (fun e => str_eqb (fst e) k) (filed es))).
    assert (Hxs : exists x t, xs = x :: t /\ truthy x = true /\ strip x = x).
    { unfold section_keys in Hin. apply keys_fold_In in Hin. destruct Hin as [[] | Hin].
      apply in_map_iff in Hin. destruct Hin as [[k0 c0] [E0 Hin]]. cbn [fst] in E0. subst k0.
      assert (Hf : In (k, c0) (filter (fun e => str_eqb (fst e) k) (filed es))).
      { apply filter_In. split; [exact Hin | apply str_eqb_refl]. }
      unfold xs. destruct (filter (fun e => str_eqb (fst e) k) (filed es)) as [|e0 t0] eqn:Ex;
        [destruct Hf|].
      exists (snd e0), (map snd t0). split; [reflexivity|].
      assert (He0 : In e0 (filed es)).
      { assert (In e0 (e0 :: t0)) as K by (left; reflexivity). rewrite <- Ex in K.
        apply filter_In in K. apply K. }
      rewrite Forall_forall in Hgood. apply (Hgood _ He0). }
    destruct Hxs as [x [t [Exs [Nx Sx]]]].
    assert (Eprev : section_text k es = join blank_line xs) by reflexivity.
    destruct (join_head blank_line x t) as [r Er].
    assert (Tp : truthy (section_text k es) = true).
    { rewrite Eprev, Exs, Er. destruct x; [discriminate Nx | reflexivity]. }
    rewrite Tp. rewrite dict_set_old by assumption.
    apply map_ext_in. intros k' Hk'. f_equal.
    destruct (str_eqb k' k) eqn:E.
    + apply str_eqb_eq in E. subst k'. rewrite Et, str_eqb_refl. fold xs.
      rewrite join_snoc by (rewrite Exs; discriminate). rewrite <- Eprev.
      apply strip_fixed.
      * rewrite Eprev, Exs, Er. destruct x as [|x0 x']; [discriminate Nx|].
        pose proof (strip_no_lead (x0 :: x')) as K. rewrite Sx in K. exact K.
      * rewrite !rev_app_distr. destruct c as [|c0 c']; [discriminate Tc|].
        pose proof (strip_no_trail (c0 :: c')) as K. rewrite H2 in K.
        destruct (rev (c0 :: c')) eqn:Er'; [|exact K].
        apply (f_equal (@length _)) in Er'. rewrite length_rev in Er'. discriminate Er'.
    + symmetry. apply Eo. rewrite str_eqb_sym. exact E.
  - (* a new key *)
    cbn [truthy]. rewrite dict_set_new by exact Mk. rewrite map_app. cbn [map]. f_equal.
    + apply map_ext_in. intros k' Hk'. f_equal. symmetry. apply Eo.
      destruct (str_eqb k k') eqn:E; [|reflexivity].
      apply str_eqb_eq in E. subst k'. apply mem_In in Hk'. congruence.
    + f_equal. f_equal. rewrite Et, str_eqb_refl.
      replace (filter (fun e => str_eqb (fst e) k) (filed es)) with (@nil (str * str)); [reflexivity|].
      destruct (filter (fun e => str_eqb (fst e) k) (filed es)) as [|e0 t0] eqn:Ex; [reflexivity|].
      exfalso. assert (In e0 (e0 :: t0)) as K by (left; reflexivity). rewrite <- Ex in K.
      apply filter_In in K. destruct K as [K1 K2]. cbn beta in K2. apply str_eqb_eq in K2.
      assert (Hin : In k (section_keys es)).
      { unfold section_keys. apply keys_fold_In. right. rewrite <- K2. apply in_map. exact K1. }
      apply mem_In in Hin. congruence.
Qed.

Lemma combine_maps : forall (A B D : Type) (f : A -> B) (g : A -> D) l,
  combine (map f l) (map g l) = map (fun x => (f x, g x)) l.
Proof. intros A B D f g. induction l as [|x l IH]; [reflexivity|]. cbn [map combine]. rewrite IH. reflexivity. Qed.

Lemma join_parts_ascii : forall ps,
  is_ascii (join_parts ps) -> Forall (fun p => is_ascii (part_heading p)) ps.
Proof.
  induction ps as [|p ps IH]; intro H; [constructor|]. cbn [join_parts] in H.
  unfold is_ascii in *. apply Forall_app in H. destruct H as [H1 H2].
  constructor; [exact H1|]. apply IH. apply Forall_inv_tail in H2.
  apply Forall_app in H2. apply H2.
Qed.

(** X21. A text of headed parts.  Let the ASCII text consist of some lines
    [pre] without heading line, followed by one or more parts, each a
    heading line for a section, a line feed and a body, where no line of a
    body is a heading line, no body starts (whitespace aside) with a colon,
    and every body but the last is empty or ends with a line feed.  Then
    [split_resume_sections] returns, for each section that has a part with
    a non-blank body, in the order of first appearance, the stripped bodies
    of its parts joined by blank lines.  The lines before the first heading
    and the parts with a blank body are in no section. *)
Theorem split_resume_sections_headed_parts :
  forall (pre : str) (p : part) (ps : list part),
    is_ascii (pre ++ join_parts (p :: ps)) ->
    ends_lines pre ->
    (forall l, In l (text_lines pre) -> ~ heading_line l) ->
    Forall headed_part (p :: ps) -> whole_lines (p :: ps) ->
    split_resume_sections (pre ++ join_parts (p :: ps))
    = merged_sections (map (fun q => (part_section q, strip (part_body q))) (p :: ps)).
Proof.
  intros pre p ps Atext Hpre Hno Hparts Hwhole.
  assert (Ah : Forall (fun q => is_ascii (part_heading q)) (p :: ps)).
  { apply join_parts_ascii. unfold is_ascii in *. apply Forall_app in Atext. apply Atext. }
  unfold split_resume_sections.
  assert (Hne : truthy (pre ++ join_parts (p :: ps)) = true).
  { cbn [join_parts]. destruct pre; [destruct (part_heading p)|]; reflexivity. }
  rewrite Hne. cbn [negb]. unfold finditer.
  destruct (@finditer_parts (p :: ps) [] pre (S (length (pre ++ join_parts (p :: ps))))
              Ah Hparts Hwhole (fun _ => Hpre) Hno (Nat.lt_succ_diag_r _)) as [H1 [H2 _]].
  cbn [rev app] in H1, H2.
  destruct (finditer_from (S (length (pre ++ join_parts (p :: ps)))) HEADING_PATTERN []
              (pre ++ join_parts (p :: ps))) as [|m ms] eqn:Ems; [discriminate H1|].
  rewrite collect_sections_fold, H1, H2, combine_maps.
  apply fold_file_merged. apply Forall_forall. intros e He.
  apply in_map_iff in He. destruct He as [q [<- _]]. cbn [snd]. apply strip_idem.
Qed.

Lemma split_resume_sections_headed_parts_witness :
  split_resume_sections
    (u "Jane Doe" ++ [10%N] ++ u "SKILLS:" ++ [10%N] ++ u "Python, Go" ++ [10%N; 10%N] ++
     u " Work Experience " ++ [10%N] ++ u "Acme Labs" ++ [10%N] ++
     u "Technical Skills" ++ [10%N] ++ u "Docker" ++ [10%N])
  = [(u "skills", u "Python, Go" ++ [10%N; 10%N] ++ u "Docker"); (u "experience", u "Acme Labs")].
Proof.
  apply (@split_resume_sections_headed_parts (u "Jane Doe" ++ [10%N])
           (u "SKILLS:", u "skills", u "Python, Go" ++ [10%N; 10%N])
           [(u " Work Experience ", u "experience", u "Acme Labs" ++ [10%N]);
            (u "Technical Skills", u "skills", u "Docker" ++ [10%N])]).
  - apply is_ascii_check. vm_compute. reflexivity.
  - right. exists (u "Jane Doe"). reflexivity.
  - intros l Hl. apply not_heading_line.
    vm_compute in Hl. destruct Hl as [<- | [<- | []]]; vm_compute; reflexivity.
  - assert (Hnl : forall s, forallb (fun c => negb (N.eqb c 10)) s = true -> no_newline s).
    { intros s A. apply Forall_forall. intros c Hc. rewrite forallb_forall in A.
      apply negb_true_iff. apply A. exact Hc. }
    assert (Hskills : In (u "skills",
                          [u "skills"; u "technical skills"; u "skills & tools"; u "skills and tools";
                           u "technologies"; u "tech stack"; u "core competencies"; u "key skills"])
                         SECTION_SYNONYMS) by (right; right; right; left; reflexivity).
    constructor; [|constructor; [|constructor; [|constructor]]].
    + split; [apply Hnl; vm_compute; reflexivity|]. split; [|split].
      * exists [], (u "SKILLS"), [58%N], (u "skills"),
          [u "skills"; u "technical skills"; u "skills & tools"; u "skills and tools";
           u "technologies"; u "tech stack"; u "core competencies"; u "key skills"].
        split; [reflexivity|]. split; [constructor|]. split.
        -- exists [], [58%N], []. split; [reflexivity|]. split; [constructor|].
           split; [constructor | right; reflexivity].
        -- split; [exact Hskills|]. split; [left; reflexivity | vm_compute; reflexivity].
      * intros l Hl. apply not_heading_line.
        vm_compute in Hl. destruct Hl as [<- | [<- | [<- | []]]]; vm_compute; reflexivity.
      * vm_compute. discriminate.
    + split; [apply Hnl; vm_compute; reflexivity|]. split; [|split].
      * exists (u " "), (u "Work Experience"), (u " "), (u "work experience"),
          [u "experience"; u "work experience"; u "professional experience"; u "employment history";
           u "career history"; u "work history"; u "employment"; u "work profile"].
        split; [reflexivity|]. split; [repeat constructor|]. split.
        -- exists (u " "), [], []. split; [reflexivity|]. split; [repeat constructor|].
           split; [constructor | left; reflexivity].
        -- split; [left; reflexivity|]. split; [right; left; reflexivity | vm_compute; reflexivity].
      * intros l Hl. apply not_heading_line.
        vm_compute in Hl. destruct Hl as [<- | [<- | []]]; vm_compute; reflexivity.
      * vm_compute. discriminate.
    + split; [apply Hnl; vm_compute; reflexivity|]. split; [|split].
      * exists [], (u "Technical Skills"), [], (u "technical skills"),
          [u "skills"; u "technical skills"; u "skills & tools"; u "skills and tools";
           u "technologies"; u "tech stack"; u "core competencies"; u "key skills"].
        split; [reflexivity|]. split; [constructor|]. split.
        -- exists [], [], []. split; [reflexivity|]. split; [constructor|].
           split; [constructor | left; reflexivity].
        -- split; [exact Hskills|]. split; [right; left; reflexivity | vm_compute; reflexivity].
      * intros l Hl. apply not_heading_line.
        vm_compute in Hl. destruct Hl as [<- | [<- | []]]; vm_compute; reflexivity.
      * vm_compute. discriminate.
  - cbn [whole_lines part_body snd]. split; [|split; [|split; [left; reflexivity | exact I]]].
    + right. right. exists (u "Python, Go" ++ [10%N]). reflexivity.
    + right. right. exists (u "Acme Labs"). reflexivity.
Defined.
